(** * Docutils universal transforms and I/O wrappers: a shallow embedding

    The development follows [docutils/transforms/universal.py] and
    [docutils/io.py].  The document tree is a store of node records
    addressed by object identity; the transforms are state-passing
    programs over that store that may raise Python exceptions. *)

From stdpp Require Import gmap strings list fin_maps pretty.
From Stdlib Require Import ZArith Lia.

Open Scope string_scope.
Open Scope list_scope.

Set Warnings "-register-all,-clear-no-such-hyp".

(** ** Python-level data *)

(** Exceptions the modelled code can raise.  [Dangling] stands for a
    reference to an object that is not in the store (it cannot happen
    in Python) and [NonTermination] for a loop that exhausted its
    fuel. *)
Inductive exn :=
  | AttributeError | KeyError | ValueError | IndexError
  | AssertionError | TypeError | UnicodeError | LookupError
  | Dangling | NonTermination.

(** The double quote character used in the diagnostics' texts. *)
Definition dquote : string := String (Ascii.ascii_of_nat 34) EmptyString.

(** [list.index(x)]: position of the first occurrence. *)
Fixpoint list_index (x : nat) (l : list nat) : option nat :=
  match l with
  | [] => None
  | y :: l' => if decide (x = y) then Some 0
               else S <$> list_index x l'
  end.

(** [list.remove(x)]: drop the first occurrence. *)
Fixpoint list_remove (x : nat) (l : list nat) : option (list nat) :=
  match l with
  | [] => None
  | y :: l' => if decide (x = y) then Some l'
               else (y ::.) <$> list_remove x l'
  end.

(** [list.insert(i, x)] for [0 <= i]: past the end it appends. *)
Definition list_insert_at (i : nat) (x : nat) (l : list nat) : list nat :=
  take i l ++ x :: drop i l.

(** [l[i]] with Python's negative indices. *)
Definition list_getitem (l : list nat) (i : Z) : option nat :=
  let j := (if i <? 0 then i + Z.of_nat (length l) else i)%Z in
  if (j <? 0)%Z then None else l !! Z.to_nat j.

(** ** The document tree *)

Module nodes.

(** Modelled from the spec: the node classes of docutils.nodes that
    the transforms name or the examples use. *)
Inductive Kind :=
  | document | section | title | subtitle | transition
  | reference | footnote_reference | citation_reference
  | target | system_message | problematic
  | paragraph | block_quote | Text.

#[global] Instance Kind_eq_dec : EqDecision Kind.
Proof. solve_decision. Defined.

End nodes.

(** Attribute values. *)
Inductive value :=
  | VStr (s : string)
  | VInt (z : Z)
  | VList (l : list string).

(** One node object.  [text] is the text the node was built around
    (the [text] argument of a text element, the message of a system
    message). *)
Record Node := mkNode {
  kind : nodes.Kind;
  children : list nat;
  parent : option nat;
  attributes : gmap string value;
  resolved : bool;
  referenced : bool;
  rawsource : string;
  text : string;
  line : option Z
}.

Definition new_node (k : nodes.Kind) (raw txt : string)
    (atts : gmap string value) (ln : option Z) : Node :=
  mkNode k [] None atts false false raw txt ln.

Definition with_children (f : list nat → list nat) (nd : Node) : Node :=
  mkNode (kind nd) (f (children nd)) (parent nd) (attributes nd)
         (resolved nd) (referenced nd) (rawsource nd) (text nd) (line nd).

Definition with_parent (p : option nat) (nd : Node) : Node :=
  mkNode (kind nd) (children nd) p (attributes nd)
         (resolved nd) (referenced nd) (rawsource nd) (text nd) (line nd).

Definition with_attributes
    (f : gmap string value → gmap string value) (nd : Node) : Node :=
  mkNode (kind nd) (children nd) (parent nd) (f (attributes nd))
         (resolved nd) (referenced nd) (rawsource nd) (text nd) (line nd).

Definition with_resolved (b : bool) (nd : Node) : Node :=
  mkNode (kind nd) (children nd) (parent nd) (attributes nd)
         b (referenced nd) (rawsource nd) (text nd) (line nd).

Definition with_referenced (b : bool) (nd : Node) : Node :=
  mkNode (kind nd) (children nd) (parent nd) (attributes nd)
         (resolved nd) b (rawsource nd) (text nd) (line nd).

(** The state a transform runs in: the object store, the document
    (root) node and the document's own tables. *)
Record State := mkState {
  heap : gmap nat Node;
  document : nat;
  nameids : gmap string (option string);
  ids : gmap string nat;
  transform_messages : list nat;
  report_level : Z
}.

Definition with_heap (f : gmap nat Node → gmap nat Node) (σ : State) : State :=
  mkState (f (heap σ)) (document σ) (nameids σ) (ids σ)
          (transform_messages σ) (report_level σ).

Definition with_ids (f : gmap string nat → gmap string nat) (σ : State) : State :=
  mkState (heap σ) (document σ) (nameids σ) (f (ids σ))
          (transform_messages σ) (report_level σ).

Definition with_transform_messages (f : list nat → list nat) (σ : State) : State :=
  mkState (heap σ) (document σ) (nameids σ) (ids σ)
          (f (transform_messages σ)) (report_level σ).

(** ** State and exception monad *)

Inductive result (A : Type) :=
  | Ok (a : A) (σ : State)
  | Raise (e : exn).
Arguments Ok {A} a σ.
Arguments Raise {A} e.

Definition M (A : Type) : Type := State → result A.

#[global] Instance M_ret : MRet M := λ A a σ, Ok a σ.
#[global] Instance M_bind : MBind M := λ A B k m σ,
  match m σ with
  | Ok a σ' => k a σ'
  | Raise e => Raise e
  end.

Definition raise {A} (e : exn) : M A := λ _, Raise e.
Definition gets {A} (f : State → A) : M A := λ σ, Ok (f σ) σ.
Definition modify (f : State → State) : M unit := λ σ, Ok tt (f σ).
Definition from_option {A} (e : exn) (o : option A) : M A :=
  match o with Some a => mret a | None => raise e end.

Definition get_node (n : nat) : M Node :=
  o ← gets (λ σ, heap σ !! n); from_option Dangling o.

Definition update_node (n : nat) (f : Node → Node) : M unit :=
  nd ← get_node n; modify (with_heap <[n := f nd]>).

(** Object creation: the new object gets an identity no live object has. *)
Definition alloc (nd : Node) : M nat := λ σ,
  let n := fresh (dom (heap σ)) in Ok n (with_heap <[n := nd]> σ).

(** ** Element operations

    Module [docutils.nodes] is not among the sources; the spec assumes
    "a generic tree with parent/children/index/replace/remove/insert
    operations and per-node attribute maps".  The operations below are
    those of a Python list of children plus the parent back-reference
    that every operation attaching a child sets. *)

(** Modelled from the spec: [Element.setup_child] of docutils.nodes,
    [child.parent = self], done by every operation that attaches. *)
Definition setup_child (self child : nat) : M unit :=
  update_node child (with_parent (Some self)).

(** Modelled from the spec: [Element.__len__] of docutils.nodes,
    [len(self)]. *)
Definition Element_len (self : nat) : M Z :=
  nd ← get_node self; mret (Z.of_nat (length (children nd))).

(** Modelled from the spec: [Element.__getitem__] of docutils.nodes,
    [self[i]] for an integer [i]. *)
Definition Element_getitem (self : nat) (i : Z) : M nat :=
  nd ← get_node self; from_option IndexError (list_getitem (children nd) i).

(** Modelled from the spec: [Element.index] of docutils.nodes,
    [self.index(item)]. *)
Definition Element_index (self item : nat) : M Z :=
  nd ← get_node self;
  i ← from_option ValueError (list_index item (children nd));
  mret (Z.of_nat i).

(** Modelled from the spec: [Element.remove] of docutils.nodes,
    [self.remove(item)]; the removed node keeps its parent field. *)
Definition Element_remove (self item : nat) : M unit :=
  nd ← get_node self;
  l ← from_option ValueError (list_remove item (children nd));
  modify (with_heap <[self := with_children (λ _, l) nd]>).

(** Modelled from the spec: [Element.insert] of docutils.nodes,
    [self.insert(index, item)] for a node [item] and [0 <= index]. *)
Definition Element_insert (self : nat) (index : Z) (item : nat) : M unit :=
  setup_child self item;;
  update_node self (with_children (list_insert_at (Z.to_nat index) item)).

(** Modelled from the spec: [Element.__iadd__] of docutils.nodes,
    [self += item] for a node [item]. *)
Definition Element_append (self item : nat) : M unit :=
  setup_child self item;;
  update_node self (with_children (λ l, l ++ [item])).

(** Modelled from the spec: [Element.__iadd__] of docutils.nodes,
    [self += items] for a list of nodes. *)
Fixpoint Element_extend (self : nat) (items : list nat) : M unit :=
  match items with
  | [] => mret tt
  | item :: rest => Element_append self item;; Element_extend self rest
  end.

(** Modelled from the spec: [Element.replace] of docutils.nodes,
    [self.replace(old, new)] for a node [new]. *)
Definition Element_replace (self old new : nat) : M unit :=
  nd ← get_node self;
  i ← from_option ValueError (list_index old (children nd));
  setup_child self new;;
  update_node self (with_children <[i := new]>).

(** [node.parent], where using [None] as an element raises. *)
Definition parent_of (node : nat) : M nat :=
  nd ← get_node node; from_option AttributeError (parent nd).

(** [node[key]]. *)
Definition getitem (node : nat) (key : string) : M value :=
  nd ← get_node node; from_option KeyError (attributes nd !! key).

Definition as_str (v : value) : M string :=
  match v with VStr s => mret s | _ => raise TypeError end.

Definition as_int (v : value) : M Z :=
  match v with VInt z => mret z | _ => raise TypeError end.

(** A list-valued attribute; node constructors default these to []. *)
Definition list_attribute (nd : Node) (key : string) : list string :=
  match attributes nd !! key with Some (VList l) => l | _ => [] end.

(** Modelled from the spec: [Element.note_referenced_by] of
    docutils.nodes, "mark the referenced target as noted":
    [self.referenced = 1]. *)
Definition note_referenced_by (self : nat) : M unit :=
  update_node self (with_referenced true).

(** Modelled from the spec: [add_backref] of docutils.nodes, by which
    a diagnostic holds a "backreference": [self['backrefs'].append(refid)]. *)
Definition add_backref (self : nat) (refid : string) : M unit :=
  update_node self (λ nd, with_attributes
    <["backrefs" := VList (list_attribute nd "backrefs" ++ [refid])]> nd).

(** ** Document services

    The document class and its reporter are not among the sources.
    The spec: "diagnostics are appended to the document's message list
    and given unique ids"; a problematic node "cross-links to the
    diagnostic via a generated id". *)

(** Modelled from the spec: [document.reporter.error(message,
    line=...)], which makes a new system_message of severity 3 and
    appends it to the document's message list.  Where the source
    passes [base_node=node] the model passes that node's line. *)
Definition reporter_error (message : string) (ln : option Z) : M nat :=
  msg ← alloc (new_node nodes.system_message message message
                        {["level" := VInt 3]} ln);
  modify (with_transform_messages (λ l, l ++ [msg]));;
  mret msg.

(** Modelled from the spec: [document.set_id(node)]; a node without
    ids gets a generated one, not yet in the document's id table, and
    the table then maps the id to the node. *)
Definition set_id (node : nat) : M string :=
  nd ← get_node node;
  id ← match last (list_attribute nd "ids") with
       | Some id => mret id
       | None =>
           id ← gets (λ σ, fresh (dom (ids σ)));
           update_node node (with_attributes <["ids" := VList [id]]>);;
           mret id
       end;
  modify (with_ids <[id := node]>);;
  mret id.

(** Modelled from the spec: the constructor
    [nodes.problematic(rawsource, text, refid=...)], a node that "wraps
    the original raw text". *)
Definition new_problematic (raw txt refid : string) : M nat :=
  alloc (new_node nodes.problematic raw txt {["refid" := VStr refid]} None).

(** Modelled from the spec: [document.reporter.info(message,
    base_node=node)], "emit an informational diagnostic": a new
    system_message of severity 1, appended to the document's message
    list; the model passes the base node's line. *)
Definition reporter_info (message : string) (ln : option Z) : M nat :=
  msg ← alloc (new_node nodes.system_message message message
                        {["level" := VInt 1]} ln);
  modify (with_transform_messages (λ l, l ++ [msg]));;
  mret msg.

(** [isinstance(node, cls)] for the node classes used here, none of
    which has subclasses. *)
Definition isinstance (node : nat) (cls : nodes.Kind) : M bool :=
  nd ← get_node node; mret (bool_decide (kind nd = cls)).

(** [for x in l: body(x)]. *)
Fixpoint for_each {A} (body : A → M unit) (l : list A) : M unit :=
  match l with
  | [] => mret tt
  | x :: rest => body x;; for_each body rest
  end.

(** Modelled from the spec: [Node.walk] of docutils.nodes, "visit
    every node": the visitor sees the node, then each child the node
    has after that visit is walked in turn. *)
Fixpoint walk (fuel : nat) (dispatch_visit : nat → M unit) (node : nat)
    : M unit :=
  match fuel with
  | 0 => raise NonTermination
  | S fuel' =>
      dispatch_visit node;;
      nd ← get_node node;
      for_each (walk fuel' dispatch_visit) (children nd)
  end.

(** Modelled from the spec: [Node.traverse()] of docutils.nodes
    without a condition, which lists "every" node: the node itself,
    then the traversal of each of its children in turn. *)
Fixpoint traverse (fuel : nat) (node : nat) : M (list nat) :=
  match fuel with
  | 0 => raise NonTermination
  | S fuel' =>
      nd ← get_node node;
      below ← mapM (traverse fuel') (children nd);
      mret (node :: concat below)
  end.

(** ** transforms/universal.py *)

(** *** Messages *)

(** The loop condition [msg['level'] >= threshold and not msg.parent]. *)
Definition Messages_qualifies (threshold : Z) (msg : nat) : M bool :=
  level ← getitem msg "level" ≫= as_int;
  if (level >=? threshold)%Z then
    nd ← get_node msg; mret (bool_decide (parent nd = None))
  else mret false.

Fixpoint Messages_collect (threshold : Z) (unfiltered : list nat)
    : M (list nat) :=
  match unfiltered with
  | [] => mret []
  | msg :: rest =>
      b ← Messages_qualifies threshold msg;
      messages ← Messages_collect threshold rest;
      mret (if b : bool then msg :: messages else messages)
  end.

Definition Messages_apply : M unit :=
  unfiltered ← gets transform_messages;
  threshold ← gets report_level;
  messages ← Messages_collect threshold unfiltered;
  match messages : list nat with
  | [] => mret tt
  | _ :: _ =>
      section ← alloc (new_node nodes.section EmptyString EmptyString
                         {["classes" := VList ["system-messages"]]} None);
      title ← alloc (new_node nodes.title EmptyString
                       "Docutils System Messages" ∅ None);
      Element_append section title;;
      Element_extend section messages;;
      modify (with_transform_messages (λ _, []));;
      doc ← gets document;
      Element_append doc section
  end.

(** *** FilterMessages *)

Definition visit_system_message (node : nat) : M unit :=
  level ← getitem node "level" ≫= as_int;
  threshold ← gets report_level;
  if (level <? threshold)%Z then
    p ← parent_of node; Element_remove p node
  else mret tt.

Definition SystemMessageFilterVisitor (node : nat) : M unit :=
  nd ← get_node node;
  match kind nd with
  | nodes.system_message => visit_system_message node
  | _ => mret tt
  end.

Definition FilterMessages_apply (fuel : nat) : M unit :=
  doc ← gets document;
  walk fuel SystemMessageFilterVisitor doc.

(** *** TestMessages *)

Definition TestMessages_apply : M unit :=
  msgs ← gets transform_messages;
  for_each (λ msg,
    nd ← get_node msg;
    match parent nd with
    | None => doc ← gets document; Element_append doc msg
    | Some _ => mret tt
    end) msgs.

(** *** FinalChecks *)

(** The [for resolver_function in ...: if resolver_function(node):
    break] loop; [true] when it left through [break]. *)
Fixpoint try_resolvers (resolvers : list (nat → M bool)) (node : nat)
    : M bool :=
  match resolvers with
  | [] => mret false
  | resolver_function :: rest =>
      b ← resolver_function node;
      if b : bool then mret true else try_resolvers rest node
  end.

Definition duplicate_target_text (refname : string) : string :=
  "Duplicate target name, cannot be used as a unique reference: "
    +:+ dquote +:+ refname +:+ dquote +:+ ".".

Definition unknown_target_text (refname : string) : string :=
  "Unknown target name: " +:+ dquote +:+ refname +:+ dquote +:+ ".".

Definition visit_reference (unknown_reference_resolvers : list (nat → M bool))
    (node : nat) : M unit :=
  nd ← get_node node;
  if resolved nd || negb (bool_decide (is_Some (attributes nd !! "refname")))
  then mret tt
  else
    refname ← getitem node "refname" ≫= as_str;
    id ← gets (λ σ, mjoin (nameids σ !! refname));
    match id : option string with
    | None =>
        handled ← try_resolvers unknown_reference_resolvers node;
        if handled : bool then mret tt
        else
          has_key ← gets (λ σ, bool_decide (is_Some (nameids σ !! refname)));
          shown ← getitem node "refname" ≫= as_str;
          nd' ← get_node node;
          msg ← reporter_error
                  (if has_key : bool then duplicate_target_text shown
                   else unknown_target_text shown) (line nd');
          msgid ← set_id msg;
          nd'' ← get_node node;
          prb ← new_problematic (rawsource nd'') (rawsource nd'') msgid;
          prbid ← set_id prb;
          add_backref msg prbid;;
          p ← parent_of node;
          Element_replace p node prb
    | Some id =>
        update_node node (with_attributes (delete "refname"));;
        update_node node (with_attributes <["refid" := VStr id]>);;
        tgt ← gets (λ σ, ids σ !! id) ≫= from_option KeyError;
        note_referenced_by tgt;;
        update_node node (with_resolved true)
    end.

(** The condition
    [index == 0 or isinstance(node.parent[0], nodes.title) and
     (index == 1 or isinstance(node.parent[1], nodes.subtitle) and
      index == 2)], evaluated left to right with short circuits. *)
Definition begins_with_transition (node : nat) (index : Z) : M bool :=
  if (index =? 0)%Z then mret true
  else
    first ← parent_of node ≫= (λ p, Element_getitem p 0);
    is_title ← isinstance first nodes.title;
    if is_title : bool then
      if (index =? 1)%Z then mret true
      else
        second ← parent_of node ≫= (λ p, Element_getitem p 1);
        is_subtitle ← isinstance second nodes.subtitle;
        if is_subtitle : bool then mret (index =? 2)%Z else mret false
    else mret false.

(** First half of [visit_transition]: the legality checks.  Returns
    the transition's index after a possible insertion. *)
Definition check_transition (node : nat) : M Z :=
  index ← parent_of node ≫= (λ p, Element_index p node);
  nd ← get_node node;
  begins ← begins_with_transition node index;
  error ←
    (if begins : bool then
       p ← parent_of node;
       is_doc ← isinstance p nodes.document;
       is_sec ← (if is_doc : bool then mret true else isinstance p nodes.section);
       if is_sec : bool then
         error ← reporter_error
           "Document or section may not begin with a transition." (line nd);
         mret (Some error)
       else raise AssertionError
     else
       prev ← parent_of node ≫= (λ p, Element_getitem p (index - 1));
       is_transition ← isinstance prev nodes.transition;
       if is_transition : bool then
         error ← reporter_error
           ("At least one body element must separate transitions; "
            +:+ "adjacent transitions are not allowed.") (line nd);
         mret (Some error)
       else mret None);
  match error : option nat with
  | Some error => p ← parent_of node; Element_insert p index error;;
                  mret (index + 1)%Z
  | None => mret index
  end.

(** The [while index == len(sibling.parent) - 1] loop.  [None] when
    the function returned from inside the loop (end of document),
    else the final [sibling] and [index]. *)
Fixpoint find_sibling (fuel : nat) (node sibling : nat) (index : Z)
    : M (option (nat * Z)) :=
  match fuel with
  | 0 => raise NonTermination
  | S fuel' =>
      len ← parent_of sibling ≫= Element_len;
      if (index =? len - 1)%Z then
        sibling' ← parent_of sibling;
        snd ← get_node sibling';
        match parent snd with
        | None =>
            nd ← get_node node;
            error ← reporter_error
                      "Document may not end with a transition." (line nd);
            p ← parent_of node;
            i ← Element_index p node;
            Element_insert p (i + 1) error;;
            mret None
        | Some sp =>
            index' ← Element_index sp sibling';
            find_sibling fuel' node sibling' index'
        end
      else mret (Some (sibling, index))
  end.

(** Second half of [visit_transition]: moving the transition. *)
Definition place_transition (fuel : nat) (node : nat) (index : Z) : M unit :=
  len ← parent_of node ≫= Element_len;
  if negb (index <? len)%Z then raise AssertionError
  else if negb (index =? len - 1)%Z then mret tt
  else
    r ← find_sibling fuel node node index;
    match r : option (nat * Z) with
    | None => mret tt
    | Some (sibling, index) =>
        parent_of node ≫= (λ p, Element_remove p node);;
        sp ← parent_of sibling;
        Element_insert sp (index + 1) node
    end.

Definition visit_transition (fuel : nat) (node : nat) : M unit :=
  index ← check_transition node;
  place_transition fuel node index.

(** Dispatch of [FinalCheckVisitor]:
    [visit_footnote_reference = visit_citation_reference =
     visit_reference]; everything else but transitions goes to
    [unknown_visit]. *)
Definition FinalCheckVisitor (fuel : nat)
    (unknown_reference_resolvers : list (nat → M bool)) (node : nat)
    : M unit :=
  nd ← get_node node;
  match kind nd with
  | nodes.reference | nodes.footnote_reference | nodes.citation_reference =>
      visit_reference unknown_reference_resolvers node
  | nodes.transition => visit_transition fuel node
  | _ => mret tt
  end.

Definition unreferenced_target_text (naming : string) : string :=
  "Hyperlink target " +:+ dquote +:+ naming +:+ dquote
    +:+ " is not referenced.".

(** The body of the loop [for target in self.document.traverse()] of
    [FinalChecks.apply]. *)
Definition check_target (target : nat) : M unit :=
  nd ← get_node target;
  if bool_decide (kind nd = nodes.target) && negb (referenced nd) then
    naming ←
      match list_attribute nd "names" with
      | name :: _ => mret name
      | [] =>
          match list_attribute nd "ids" with
          | id :: _ => mret id
          | [] => getitem target "refid" ≫= as_str
          end
      end;
    reporter_info (unreferenced_target_text naming) (line nd);;
    mret tt
  else mret tt.

(** [FinalChecks.apply].  The visitor [InternalAttributeExposer]
    reads arbitrary Python attributes of the nodes; it is taken as an
    argument, [None] when [settings.expose_internals] is false. *)
Definition FinalChecks_apply (fuel : nat)
    (unknown_reference_resolvers : list (nat → M bool))
    (expose_internals : option (nat → M unit)) : M unit :=
  doc ← gets document;
  walk fuel (FinalCheckVisitor fuel unknown_reference_resolvers) doc;;
  match expose_internals with
  | Some visitor => walk fuel visitor doc
  | None => mret tt
  end;;
  targets ← traverse fuel doc;
  for_each check_target targets.

(** ** io.py *)

Module io.

(** Python 2 strings: a byte string or a unicode string (code points). *)
Inductive pystring :=
  | Str (b : list Byte.byte)
  | Unicode (u : list N).

(** What the wrappers use of the Python runtime: the two codec entry
    points and the three locale queries.  A locale query that raises
    is [None]; one that returns gives the value it returned, which may
    itself be [None]. *)
Record Python := mkPython {
  unicode_ : pystring → string → exn + list N;
  encode : list N → string → exn + list Byte.byte;
  nl_langinfo_CODESET : option (option string);
  getlocale_1 : option (option string);
  getdefaultlocale_1 : option (option string)
}.

(** The option values object. *)
Record Values := mkValues {
  input_encoding : option string;
  output_encoding : option string
}.

(** [try: encodings.append(query) except: pass]. *)
Definition try_append (encodings : list (option string))
    (query : option (option string)) : list (option string) :=
  match query with
  | Some enc => encodings ++ [enc]
  | None => encodings
  end.

(** The list [encodings] that [Input.decode] builds. *)
Definition encodings (py : Python) (options : Values)
    : list (option string) :=
  let encodings := [input_encoding options; Some "utf-8"] in
  let encodings := try_append encodings (nl_langinfo_CODESET py) in
  let encodings := try_append encodings (getlocale_1 py) in
  let encodings := try_append encodings (getdefaultlocale_1 py) in
  encodings ++ [Some "latin-1"].

(** [not enc]: [None] and the empty string are false. *)
Definition falsy (enc : option string) : bool :=
  match enc with
  | None => true
  | Some s => bool_decide (s = EmptyString)
  end.

(** The loop [for enc in encodings] of [Input.decode], followed by the
    final [raise UnicodeError].  The clause [except (UnicodeError,
    LookupError)] also catches the subclasses of the two, which among
    the exceptions of [exn] are [KeyError] and [IndexError]. *)
Fixpoint decode_loop (py : Python) (encodings : list (option string))
    (data : pystring) : exn + list N :=
  match encodings with
  | [] => inl UnicodeError
  | enc :: rest =>
      if falsy enc then decode_loop py rest data
      else
        match enc with
        | Some e =>
            match unicode_ py data e with
            | inr decoded => inr decoded
            | inl UnicodeError | inl LookupError
            | inl KeyError | inl IndexError => decode_loop py rest data
            | inl other => inl other
            end
        | None => decode_loop py rest data
        end
  end.

Definition Input_decode (py : Python) (options : Values) (data : pystring)
    : exn + list N :=
  decode_loop py (encodings py options) data.

Definition StringInput_read (py : Python) (options : Values)
    (source : pystring) : exn + pystring :=
  match input_encoding options with
  | None => inr source
  | Some _ =>
      match Input_decode py options source with
      | inr decoded => inr (Unicode decoded)
      | inl e => inl e
      end
  end.

(** [StringOutput.write]: the value stored in [self.destination],
    which is also the value returned. *)
Definition StringOutput_write (py : Python) (options : Values)
    (data : list N) : exn + pystring :=
  match output_encoding options with
  | None => inr (Unicode data)
  | Some enc =>
      match encode py data enc with
      | inr output => inr (Str output)
      | inl e => inl e
      end
  end.

(** The Latin-1 codec: code points below 256 are the bytes. *)
Definition latin1_decode (b : list Byte.byte) : list N :=
  map Byte.to_N b.

Fixpoint latin1_encode (u : list N) : exn + list Byte.byte :=
  match u with
  | [] => inr []
  | c :: rest =>
      match Byte.of_N c, latin1_encode rest with
      | Some x, inr output => inr (x :: output)
      | _, _ => inl UnicodeError
      end
  end.

(** A runtime that knows the Latin-1 codec only and has no locale. *)
Definition latin1_only : Python :=
  mkPython
    (λ data enc,
       if bool_decide (enc = "latin-1") then
         match data with
         | Str b => inr (latin1_decode b)
         | Unicode _ => inl TypeError
         end
       else inl LookupError)
    (λ data enc,
       if bool_decide (enc = "latin-1") then latin1_encode data
       else inl LookupError)
    None None None.








(** *** Files

    [FileInput] and [FileOutput] wrap Python file objects.  The model
    keeps the file objects in a store addressed by identity, next to
    the contents of the files by path.  Python buffers what is written
    to a file object: the model puts it on the path when the object is
    closed, and until then shows of the writer only that [open] has
    truncated the file.  What Python has flushed before the close is
    not determined, so the statements speak of the content of a path
    only once its writer is closed. *)

(** What can go wrong in the file layer: Python's [IOError], or one of
    the exceptions of [exn]. *)
Inductive failure :=
  | IOError
  | Exn (e : exn).

Inductive Mode := Reading | Writing.

(** A file object.  [file_name] is its [name] attribute, which a
    file-like object need not have; [file_path] is the path it was
    opened on, if any; [file_data] is what is left to read, or what
    has been written. *)
Record File := mkFile {
  file_name : option string;
  file_mode : Mode;
  file_path : option string;
  file_data : list Byte.byte;
  file_closed : bool
}.

Record World := mkWorld {
  objects : gmap nat File;
  disk : gmap string (list Byte.byte);
  stdin : nat;
  stdout : nat
}.

Definition with_objects (f : gmap nat File → gmap nat File) (w : World)
    : World :=
  mkWorld (f (objects w)) (disk w) (stdin w) (stdout w).

Definition with_disk
    (f : gmap string (list Byte.byte) → gmap string (list Byte.byte))
    (w : World) : World :=
  mkWorld (objects w) (f (disk w)) (stdin w) (stdout w).

(** Computations over the world; an exception leaves the world as it
    was when it was raised. *)
Definition W (A : Type) : Type := World → (failure + A) * World.

#[local] Instance W_ret : MRet W := λ A a w, (inr a, w).
#[local] Instance W_bind : MBind W := λ A B k m w,
  match m w with
  | (inr a, w') => k a w'
  | (inl e, w') => (inl e, w')
  end.

Definition fail {A} (e : failure) : W A := λ w, (inl e, w).

Definition lift {A} (r : exn + A) : W A :=
  match r with
  | inr a => mret a
  | inl e => fail (Exn e)
  end.

(** An attribute of [o], which [None] does not have. *)
Definition attribute_of {A} (o : option A) : W A :=
  match o with
  | Some a => mret a
  | None => fail (Exn AttributeError)
  end.

Definition get_file (f : nat) : W File := λ w,
  match objects w !! f with
  | Some x => (inr x, w)
  | None => (inl (Exn Dangling), w)
  end.

Definition set_file (f : nat) (x : File) : W unit := λ w,
  (inr tt, with_objects <[f := x]> w).

Definition set_content (p : string) (content : list Byte.byte) : W unit :=
  λ w, (inr tt, with_disk <[p := content]> w).

(** [sys.stdin] and [sys.stdout]. *)
Definition sys_stdin : W nat := λ w, (inr (stdin w), w).
Definition sys_stdout : W nat := λ w, (inr (stdout w), w).

(** [open(path)] and [open(path, 'w')], which make a new file object.
    A path that is not a string raises [TypeError] and the empty path
    [IOError]; reading needs an existing file; writing creates the
    file or truncates it. *)
Definition open_ (path : option string) (mode : Mode) : W nat :=
  match path with
  | None => fail (Exn TypeError)
  | Some p =>
      λ w,
        let f := fresh (dom (objects w)) in
        if bool_decide (p = EmptyString) then (inl IOError, w)
        else
        match mode with
        | Reading =>
            match disk w !! p with
            | Some content =>
                (inr f,
                 with_objects
                   <[f := mkFile (Some p) Reading (Some p) content false]> w)
            | None => (inl IOError, w)
            end
        | Writing =>
            (inr f,
             with_disk <[p := []]>
               (with_objects
                  <[f := mkFile (Some p) Writing (Some p) [] false]> w))
        end
  end.

(** [f.read()]: everything that is left. *)
Definition file_read (f : nat) : W (list Byte.byte) :=
  x ← get_file f;
  if file_closed x then fail (Exn ValueError)
  else
    match file_mode x with
    | Writing => fail IOError
    | Reading =>
        set_file f (mkFile (file_name x) Reading (file_path x) [] false);;
        mret (file_data x)
    end.

(** [f.write(s)]: the bytes go to the file object. *)
Definition file_write (f : nat) (s : list Byte.byte) : W unit :=
  x ← get_file f;
  if file_closed x then fail (Exn ValueError)
  else
    match file_mode x with
    | Reading => fail IOError
    | Writing =>
        set_file f (mkFile (file_name x) Writing (file_path x)
                      (file_data x ++ s) false)
    end.

(** [f.close()]: what was written to the object is the content of its
    path from now on; closing a closed object does nothing. *)
Definition file_close (f : nat) : W unit :=
  x ← get_file f;
  if file_closed x then mret tt
  else
    set_file f (mkFile (file_name x) (file_mode x) (file_path x)
                  (file_data x) true);;
    match file_mode x, file_path x with
    | Writing, Some p => set_content p (file_data x)
    | _, _ => mret tt
    end.

(** [FileInput] objects. *)
Record FileInput := mkFileInput {
  FileInput_options : Values;
  source : nat;
  source_path : option string;
  FileInput_autoclose : bool
}.

(** [FileInput.__init__], with [Input.__init__] inlined;
    [Input.default_source_path] is [None]. *)
Definition FileInput_init (options : Values) (source : option nat)
    (source_path : option string) (autoclose : bool) : W FileInput :=
  let self_source_path := if falsy source_path then None else source_path in
  '(self_source, self_autoclose) ←
    match source with
    | Some f => mret (f, autoclose)
    | None =>
        if falsy source_path then f ← sys_stdin; mret (f, false)
        else f ← open_ source_path Reading; mret (f, autoclose)
    end;
  self_source_path ←
    (if falsy source_path then
       x ← get_file self_source;
       mret (match file_name x with
             | Some name => Some name
             | None => self_source_path
             end)
     else mret self_source_path);
  mret (mkFileInput options self_source self_source_path self_autoclose).

Definition FileInput_close (self : FileInput) : W unit :=
  file_close (source self).

Definition FileInput_read (py : Python) (self : FileInput) : W (list N) :=
  data ← file_read (source self);
  (if FileInput_autoclose self then FileInput_close self else mret tt);;
  lift (Input_decode py (FileInput_options self) (Str data)).

(** [FileOutput] objects. *)
Record FileOutput := mkFileOutput {
  FileOutput_options : Values;
  destination : option nat;
  destination_path : option string;
  FileOutput_autoclose : bool;
  opened : bool
}.

(** [FileOutput.__init__], with [Output.__init__] inlined;
    [Output.default_destination_path] is [None]. *)
Definition FileOutput_init (options : Values) (destination : option nat)
    (destination_path : option string) (autoclose : bool) : W FileOutput :=
  let self_destination_path :=
    if falsy destination_path then None else destination_path in
  '(self_destination, self_autoclose, self_opened) ←
    match destination with
    | Some f => mret (Some f, autoclose, true)
    | None =>
        if falsy destination_path
        then f ← sys_stdout; mret (Some f, false, true)
        else mret (None, autoclose, false)
    end;
  self_destination_path ←
    (if falsy destination_path then
       match self_destination with
       | Some f =>
           x ← get_file f;
           mret (match file_name x with
                 | Some name => Some name
                 | None => self_destination_path
                 end)
       | None => mret self_destination_path
       end
     else mret self_destination_path);
  mret (mkFileOutput options self_destination self_destination_path
          self_autoclose self_opened).

Definition FileOutput_open (self : FileOutput) : W FileOutput :=
  f ← open_ (destination_path self) Writing;
  mret (mkFileOutput (FileOutput_options self) (Some f)
          (destination_path self) (FileOutput_autoclose self) true).

Definition FileOutput_close (self : FileOutput) : W FileOutput :=
  f ← attribute_of (destination self);
  file_close f;;
  mret (mkFileOutput (FileOutput_options self) (destination self)
          (destination_path self) (FileOutput_autoclose self) false).

(** [data.encode(encoding)]; an encoding that is not a string raises
    [TypeError]. *)
Definition unicode_encode (py : Python) (data : list N)
    (encoding : option string) : exn + list Byte.byte :=
  match encoding with
  | Some enc => encode py data enc
  | None => inl TypeError
  end.

(** [FileOutput.write]: the value returned and the object as the call
    leaves it. *)
Definition FileOutput_write (py : Python) (self : FileOutput)
    (data : list N) : W (list Byte.byte * FileOutput) :=
  output ← lift (unicode_encode py data
                   (output_encoding (FileOutput_options self)));
  self ← (if opened self then mret self else FileOutput_open self);
  f ← attribute_of (destination self);
  file_write f output;;
  self ← (if FileOutput_autoclose self then FileOutput_close self
          else mret self);
  mret (output, self).

(** A world with the two standard streams, [0] and [1], and no files. *)
Definition empty_world : World :=
  mkWorld
    {[0 := mkFile (Some "<stdin>") Reading None [] false;
      1 := mkFile (Some "<stdout>") Writing None [] false]}
    ∅ 0 1.

(** The same world with one file, "in.txt", holding the byte 0xE9. *)
Definition one_file_world : World :=
  with_disk <["in.txt" := [Byte.xe9]]> empty_world.

(** A world that also holds a nameless file-like object, [2], open
    for writing. *)
Definition buffer_world : World :=
  with_objects <[2 := mkFile None Writing None [] false]> empty_world.

End io.

(** ** Vocabulary of the statements *)

(** The encodings [Input.decode] really tries: the entries of
    [encodings] that are not skipped. *)
Definition candidates (py : io.Python) (options : io.Values) : list string :=
  omap (λ enc, if io.falsy enc then None else enc) (io.encodings py options).

(** A candidate fails when [unicode(data, enc)] raises UnicodeError
    or LookupError, or one of the subclasses KeyError and IndexError
    of the latter. *)
Definition fails (py : io.Python) (data : io.pystring) (enc : string) : Prop :=
  io.unicode_ py data enc = inl UnicodeError
  ∨ io.unicode_ py data enc = inl LookupError
  ∨ io.unicode_ py data enc = inl KeyError
  ∨ io.unicode_ py data enc = inl IndexError.

(** An entry of the list of encodings that counts, in the words of the
    spec: one that is neither None nor empty. *)
Definition named (enc : option string) : option string :=
  match enc with
  | Some (String a s) => Some (String a s)
  | Some EmptyString | None => None
  end.

(** A field of the node stored at [n], when there is one. *)
Definition field {A} (f : Node → A) (σ : State) (n : nat) : option A :=
  f <$> heap σ !! n.

(** [self += item] on the store. *)
Definition appended (self item : nat) (h : gmap nat Node) : gmap nat Node :=
  alter (with_children (λ l, l ++ [item])) self
    (alter (with_parent (Some self)) item h).

(** [self += items] on the store. *)
Definition extended (self : nat) (items : list nat) (h : gmap nat Node)
    : gmap nat Node :=
  foldl (λ h item, appended self item h) h items.

(** The condition under which [Messages.apply] picks a message: its
    level is at or above the report threshold and it has no parent. *)
Definition qualifies (σ : State) (msg : nat) : bool :=
  match heap σ !! msg with
  | Some nd =>
      match attributes nd !! "level" with
      | Some (VInt level) =>
          (report_level σ <=? level)%Z && bool_decide (parent nd = None)
      | _ => false
      end
  | None => false
  end.

(** [self.insert(index, item)] on the store. *)
Definition inserted (self : nat) (index : nat) (item : nat)
    (h : gmap nat Node) : gmap nat Node :=
  alter (with_children (list_insert_at index item)) self
    (alter (with_parent (Some self)) item h).

(** Whether the node stored at [n] is of class [cls]. *)
Definition is_kind (σ : State) (n : nat) (cls : nodes.Kind) : bool :=
  bool_decide (field kind σ n = Some cls).

(** The siblings [before] a transition make it begin its parent: there
    are none, or just a title, or just a title and a subtitle. *)
Definition begins (σ : State) (before : list nat) : bool :=
  match before with
  | [] => true
  | [t] => is_kind σ t nodes.title
  | [t; s] => is_kind σ t nodes.title && is_kind σ s nodes.subtitle
  | _ => false
  end.

(** [x] is a child of [a], found at the last position of [a]'s
    children and nowhere before. *)
Definition last_child (σ : State) (x a : nat) : Prop :=
  ∃ xnd and l,
    heap σ !! x = Some xnd ∧ parent xnd = Some a
    ∧ heap σ !! a = Some and ∧ children and = l ++ [x] ∧ x ∉ l.

(** Going up from [x] through the nodes [anc], every step leaves a
    last child for its parent. *)
Fixpoint climbs (σ : State) (x : nat) (anc : list nat) : Prop :=
  match anc with
  | [] => True
  | a :: rest => last_child σ x a ∧ climbs σ a rest
  end.

(** The state after [document.reporter.error(message, line=ln)]. *)
Definition reported (message : string) (ln : option Z) (σ : State) : State :=
  with_transform_messages (λ l, l ++ [fresh (dom (heap σ))])
    (with_heap
       <[fresh (dom (heap σ)) :=
           new_node nodes.system_message message message
             {["level" := VInt 3]} ln]> σ).

(** The state after the new diagnostic has also been inserted into
    [p] at position [i]. *)
Definition error_inserted (message : string) (ln : option Z)
    (p : nat) (i : nat) (σ : State) : State :=
  with_heap (inserted p i (fresh (dom (heap σ)))) (reported message ln σ).

Definition begin_with_transition_text : string :=
  "Document or section may not begin with a transition.".

Definition adjacent_transitions_text : string :=
  "At least one body element must separate transitions; "
  +:+ "adjacent transitions are not allowed.".

Definition end_with_transition_text : string :=
  "Document may not end with a transition.".

(** The store after the transition [node] has left the children of
    [p] (which become [l1]) and has been inserted into [q] at
    position [i]. *)
Definition moved (p : nat) (l1 : list nat) (q : nat) (i : nat) (node : nat)
    (h : gmap nat Node) : gmap nat Node :=
  inserted q i node (alter (with_children (λ _, l1)) p h).

(** The shape of a tree of nodes: a node's identity and the shapes
    below it. *)
Inductive shape := Sh (n : nat) (cs : list shape).

Definition shape_root (t : shape) : nat :=
  match t with Sh n _ => n end.

Fixpoint nodes_of (t : shape) : list nat :=
  match t with Sh n cs => n :: flat_map nodes_of cs end.

Fixpoint height (t : shape) : nat :=
  match t with Sh _ cs => S (foldr (λ c h, height c `max` h) 0 cs) end.

(** The store holds a tree of shape [t] under the parent [par]: every
    node of [t] is live, lists the roots of its sub-shapes as its
    children, and its children point back to it. *)
Inductive is_tree (σ : State) : option nat → shape → Prop :=
  | is_tree_node par n cs nd :
      heap σ !! n = Some nd →
      parent nd = par →
      children nd = map shape_root cs →
      Forall (is_tree σ (Some n)) cs →
      is_tree σ par (Sh n cs).

(** A system message the filter removes: its level is below the
    report threshold. *)
Definition removable (σ : State) (n : nat) : bool :=
  match heap σ !! n with
  | Some nd =>
      bool_decide (kind nd = nodes.system_message)
      && match attributes nd !! "level" with
         | Some (VInt level) => (level <? report_level σ)%Z
         | _ => false
         end
  | None => false
  end.

(** Child [c] of [k] has been struck once the walk has seen the
    nodes [seen]. *)
Definition struck (σ : State) (seen : list nat) (k c : nat) : Prop :=
  c ∈ seen ∧ removable σ c ∧ field parent σ c = Some (Some k).

#[global] Instance struck_dec σ seen k c : Decision (struck σ seen k c).
Proof. unfold struck. apply _. Defined.

(** The store after the filter has seen the nodes [seen]. *)
Definition filtered (σ : State) (seen : list nat) : State :=
  with_heap
    (map_imap (λ k nd,
       Some (with_children (filter (λ c, ¬ struck σ seen k c)) nd))) σ.

(** [node] hangs in the tree: it has a parent that lists it among
    its children. *)
Definition attached (σ : State) (node : nat) : Prop :=
  ∃ q cs, field parent σ node = Some (Some q)
          ∧ field children σ q = Some cs ∧ node ∈ cs.

(** A candidate decodes the data. *)
Definition decodes (py : io.Python) (data : io.pystring) (enc : string) : Prop :=
  ∃ u, io.unicode_ py data enc = inr u.

(** A target nothing refers to. *)
Definition unreferenced (σ : State) (n : nat) : bool :=
  match heap σ !! n with
  | Some nd => bool_decide (kind nd = nodes.target) && negb (referenced nd)
  | None => false
  end.

(** How a target is named in a diagnostic: by its first name, else by
    its first id, else by its [refid]. *)
Definition naming (nd : Node) : option string :=
  match head (list_attribute nd "names"),
        head (list_attribute nd "ids"),
        attributes nd !! "refid" with
  | Some name, _, _ => Some name
  | None, Some id, _ => Some id
  | None, None, Some (VStr refid) => Some refid
  | _, _, _ => None
  end.

(** [msg] is a diagnostic of [σ'], new since [σ], about the
    unreferenced target [t]: an informational message that hangs
    nowhere, names the target and carries its line. *)
Definition reports_target (σ σ' : State) (msg t : nat) : Prop :=
  heap σ !! msg = None
  ∧ field kind σ' msg = Some nodes.system_message
  ∧ field (λ nd, attributes nd !! "level") σ' msg = Some (Some (VInt 1))
  ∧ field parent σ' msg = Some None
  ∧ Some <$> field text σ' msg
    = fmap unreferenced_target_text <$> field naming σ' t
  ∧ field line σ' msg = field line σ' t.

(** The visitor of [FinalChecks] has nothing to do at node [n]: it is
    no transition, and if it is a reference it is resolved or carries
    no name. *)
Definition settled (σ : State) (n : nat) : Prop :=
  ∃ nd, heap σ !! n = Some nd
        ∧ kind nd ≠ nodes.transition
        ∧ (kind nd ∈ [nodes.reference; nodes.footnote_reference;
                      nodes.citation_reference] →
           resolved nd = true ∨ attributes nd !! "refname" = None).

(** The shape left once the filter has run: the sub-shapes under a
    removable root are gone. *)
Fixpoint prune (σ : State) (t : shape) : shape :=
  match t with
  | Sh n cs =>
      Sh n (omap (λ c, if removable σ (shape_root c) then None
                       else Some (prune σ c)) cs)
  end.

(** ** Example documents *)

(** A document [0] whose section [1] holds the diagnostic [2], which
    is also listed in [transform_messages], next to the parentless
    diagnostic [3]. *)
Definition attached_message_doc : State :=
  mkState
    (list_to_map
       [(0, mkNode nodes.document [1] None ∅ false false EmptyString EmptyString None);
        (1, mkNode nodes.section [2] (Some 0) ∅ false false EmptyString EmptyString None);
        (2, mkNode nodes.system_message [] (Some 1) {["level" := VInt 3]}
              false false EmptyString EmptyString None);
        (3, mkNode nodes.system_message [] None {["level" := VInt 1]}
              false false EmptyString EmptyString None)])
    0 ∅ ∅ [2; 3] 2.

(** A document [0] with a paragraph [1] and two pending diagnostics:
    [2] of level 3 and [3] of level 1; the report threshold is 2. *)
Definition pending_message_doc : State :=
  mkState
    (list_to_map
       [(0, mkNode nodes.document [1] None ∅ false false EmptyString EmptyString None);
        (1, mkNode nodes.paragraph [] (Some 0) ∅ false false EmptyString EmptyString None);
        (2, mkNode nodes.system_message [] None {["level" := VInt 3]}
              false false EmptyString EmptyString None);
        (3, mkNode nodes.system_message [] None {["level" := VInt 1]}
              false false EmptyString EmptyString None)])
    0 ∅ ∅ [2; 3] 2.

(** A document [0] holding a paragraph [1] with two references, [2]
    to the known name "known" and [3] to the name "missing", and the
    target [4] that "known" names. *)
Definition reference_doc : State :=
  mkState
    (list_to_map
       [(0, mkNode nodes.document [1; 4] None ∅ false false EmptyString EmptyString None);
        (1, mkNode nodes.paragraph [2; 3] (Some 0) ∅ false false EmptyString EmptyString None);
        (2, mkNode nodes.reference [] (Some 1) {["refname" := VStr "known"]}
              false false "known_" "known" None);
        (3, mkNode nodes.reference [] (Some 1) {["refname" := VStr "missing"]}
              false false "missing_" "missing" None);
        (4, mkNode nodes.target [] (Some 0) {["ids" := VList ["id1"]]}
              false false EmptyString EmptyString None)])
    0 {["known" := Some "id1"]} {["id1" := 4]} [] 2.

(** A document [0] with two sections.  Section [1] holds a title
    [3], a transition [4], a paragraph [5] and a trailing transition
    [10]; section [2] holds a paragraph [6], two transitions [7] and
    [8] in a row, a paragraph [9] and a trailing transition [11]. *)
Definition transition_doc : State :=
  mkState
    (list_to_map
       [(0, mkNode nodes.document [1; 2] None ∅ false false EmptyString EmptyString None);
        (1, mkNode nodes.section [3; 4; 5; 10] (Some 0) ∅
              false false EmptyString EmptyString None);
        (2, mkNode nodes.section [6; 7; 8; 9; 11] (Some 0) ∅
              false false EmptyString EmptyString None);
        (3, mkNode nodes.title [] (Some 1) ∅ false false EmptyString "T" None);
        (4, mkNode nodes.transition [] (Some 1) ∅ false false EmptyString EmptyString (Some 7%Z));
        (5, mkNode nodes.paragraph [] (Some 1) ∅ false false EmptyString EmptyString None);
        (6, mkNode nodes.paragraph [] (Some 2) ∅ false false EmptyString EmptyString None);
        (7, mkNode nodes.transition [] (Some 2) ∅ false false EmptyString EmptyString None);
        (8, mkNode nodes.transition [] (Some 2) ∅ false false EmptyString EmptyString None);
        (9, mkNode nodes.paragraph [] (Some 2) ∅ false false EmptyString EmptyString None);
        (10, mkNode nodes.transition [] (Some 1) ∅ false false EmptyString EmptyString None);
        (11, mkNode nodes.transition [] (Some 2) ∅ false false EmptyString EmptyString None)])
    0 ∅ ∅ [] 2.

(** A document [0] whose block quote [1] begins with the transition
    [2], followed by a paragraph [3]. *)
Definition quoted_transition_doc : State :=
  mkState
    (list_to_map
       [(0, mkNode nodes.document [1] None ∅ false false EmptyString EmptyString None);
        (1, mkNode nodes.block_quote [2; 3] (Some 0) ∅
              false false EmptyString EmptyString None);
        (2, mkNode nodes.transition [] (Some 1) ∅ false false EmptyString EmptyString None);
        (3, mkNode nodes.paragraph [] (Some 1) ∅ false false EmptyString EmptyString None)])
    0 ∅ ∅ [] 2.

(** A document [0] with the diagnostics [1] (level 2) and [2]
    (level 3) and a paragraph [3] holding the diagnostic [4] (level
    1); the report threshold is 3. *)
Definition diagnostics_doc : State :=
  mkState
    (list_to_map
       [(0, mkNode nodes.document [1; 2; 3] None ∅ false false EmptyString EmptyString None);
        (1, mkNode nodes.system_message [] (Some 0) {["level" := VInt 2]}
              false false EmptyString EmptyString None);
        (2, mkNode nodes.system_message [] (Some 0) {["level" := VInt 3]}
              false false EmptyString EmptyString None);
        (3, mkNode nodes.paragraph [4] (Some 0) ∅ false false EmptyString EmptyString None);
        (4, mkNode nodes.system_message [] (Some 3) {["level" := VInt 1]}
              false false EmptyString EmptyString None)])
    0 ∅ ∅ [] 3.

Definition diagnostics_shape : shape :=
  Sh 0 [Sh 1 []; Sh 2 []; Sh 3 [Sh 4 []]].

(** A resolver callback that declines, one that accepts and one that
    fails. *)
Definition declining_resolver : nat → M bool := λ _, mret false.
Definition accepting_resolver : nat → M bool := λ _, mret true.
Definition failing_resolver : nat → M bool := λ _, raise ValueError.

(** [reference_doc] with an empty id table: the name "known" still
    maps to the id "id1", which no node carries. *)
Definition stale_name_doc : State := with_ids (λ _, ∅) reference_doc.

(** A document [0] that holds nothing but the transition [1]. *)
Definition lone_transition_doc : State :=
  mkState
    (list_to_map
       [(0, mkNode nodes.document [1] None ∅ false false EmptyString EmptyString None);
        (1, mkNode nodes.transition [] (Some 0) ∅ false false EmptyString EmptyString (Some 3%Z))])
    0 ∅ ∅ [] 2.

(** [diagnostics_doc] with the threshold lowered to 1: no diagnostic
    is below it. *)
Definition verbose_diagnostics_doc : State :=
  mkState (heap diagnostics_doc) 0 ∅ ∅ [] 1.

(** A diagnostic [0] of level 1 that hangs nowhere, under the report
    threshold 2. *)
Definition detached_message_doc : State :=
  mkState
    (list_to_map
       [(0, mkNode nodes.system_message [] None {["level" := VInt 1]}
              false false EmptyString EmptyString None)])
    0 ∅ ∅ [] 2.

(** [reference_doc] once its reference [2] has been resolved, with a
    second target [5] that nothing refers to. *)
Definition resolved_reference_doc : State :=
  mkState
    (list_to_map
       [(0, mkNode nodes.document [1; 4; 5] None ∅ false false EmptyString EmptyString None);
        (1, mkNode nodes.paragraph [2] (Some 0) ∅ false false EmptyString EmptyString None);
        (2, mkNode nodes.reference [] (Some 1) {["refid" := VStr "id1"]}
              true false "known_" "known" None);
        (4, mkNode nodes.target [] (Some 0)
              {["ids" := VList ["id1"]; "names" := VList ["known"]]}
              false true EmptyString EmptyString None);
        (5, mkNode nodes.target [] (Some 0)
              {["ids" := VList ["id2"]; "names" := VList ["spare"]]}
              false false EmptyString EmptyString (Some 9%Z))])
    0 {["known" := Some "id1"; "spare" := Some "id2"]}
    {["id1" := 4; "id2" := 5]} [] 2.

Definition resolved_reference_shape : shape :=
  Sh 0 [Sh 1 [Sh 2 []]; Sh 4 []; Sh 5 []].


(** * Properties *)

(** ** Python lists *)

Lemma list_index_middle x l1 l2 :
  x ∉ l1 → list_index x (l1 ++ x :: l2) = Some (length l1).
Proof.
  induction l1 as [|y l1 IH]; intros Hx; cbn.
  - by rewrite decide_True.
  - apply not_elem_of_cons in Hx as [Hne Hx].
    rewrite decide_False by done. by rewrite IH.
Qed.

Lemma list_index_Some x l i :
  list_index x l = Some i →
  ∃ l1 l2, l = l1 ++ x :: l2 ∧ (x ∉ l1) ∧ i = length l1.
Proof.
  revert i. induction l as [|y l IH]; intros i; cbn; [done|].
  case_decide as Hxy.
  - intros [= <-]. subst. exists [], l. split; [done|]. split; [|done].
    by apply not_elem_of_nil.
  - destruct (list_index x l) as [j|]; [|done]. intros [= <-].
    destruct (IH j eq_refl) as (l1 & l2 & -> & Hx & ->).
    exists (y :: l1), l2. split; [done|]. split; [|done].
    by apply not_elem_of_cons.
Qed.

Lemma list_remove_middle x l1 l2 :
  x ∉ l1 → list_remove x (l1 ++ x :: l2) = Some (l1 ++ l2).
Proof.
  induction l1 as [|y l1 IH]; intros Hx; cbn.
  - by rewrite decide_True.
  - apply not_elem_of_cons in Hx as [Hne Hx].
    rewrite decide_False by done. by rewrite IH.
Qed.

Lemma list_replace_middle (x y : nat) l1 l2 :
  <[length l1 := y]> (l1 ++ x :: l2) = l1 ++ y :: l2.
Proof. induction l1 as [|z l1 IH]; cbn; [done|]. by f_equal. Qed.

Lemma list_insert_at_middle x (l1 l2 : list nat) :
  list_insert_at (length l1) x (l1 ++ l2) = l1 ++ x :: l2.
Proof.
  unfold list_insert_at. by rewrite take_app_length, drop_app_length.
Qed.

(** ** Running monadic code *)

Lemma bind_Ok {A B} (m : M A) (k : A → M B) σ a σ' :
  m σ = Ok a σ' → (m ≫= k) σ = k a σ'.
Proof. intros H. unfold mbind, M_bind. by rewrite H. Qed.

Lemma bind_Raise {A B} (m : M A) (k : A → M B) σ e :
  m σ = Raise e → (m ≫= k) σ = Raise e.
Proof. intros H. unfold mbind, M_bind. by rewrite H. Qed.

Lemma get_node_Ok σ n nd :
  heap σ !! n = Some nd → get_node n σ = Ok nd σ.
Proof. intros H. unfold get_node. cbv [mbind M_bind gets]. by rewrite H. Qed.

Lemma update_node_Ok σ n nd f :
  heap σ !! n = Some nd →
  update_node n f σ = Ok tt (with_heap <[n := f nd]> σ).
Proof. intros H. unfold update_node. by rewrite (bind_Ok _ _ _ _ _ (get_node_Ok _ _ _ H)). Qed.

Lemma field_Some {A} (f : Node → A) σ n a :
  field f σ n = Some a ↔ ∃ nd, heap σ !! n = Some nd ∧ f nd = a.
Proof.
  unfold field. destruct (heap σ !! n) as [nd|]; cbn; naive_solver.
Qed.

Lemma getitem_Ok σ n nd key v :
  heap σ !! n = Some nd → attributes nd !! key = Some v →
  getitem n key σ = Ok v σ.
Proof.
  intros H Hv. unfold getitem.
  rewrite (bind_Ok _ _ _ _ _ (get_node_Ok _ _ _ H)). by rewrite Hv.
Qed.

Lemma getitem_str_Ok σ n nd key s :
  heap σ !! n = Some nd → attributes nd !! key = Some (VStr s) →
  (getitem n key ≫= as_str) σ = Ok s σ.
Proof. intros H Hv. by rewrite (bind_Ok _ _ _ _ _ (getitem_Ok _ _ _ _ _ H Hv)). Qed.

Lemma getitem_int_Ok σ n nd key z :
  heap σ !! n = Some nd → attributes nd !! key = Some (VInt z) →
  (getitem n key ≫= as_int) σ = Ok z σ.
Proof. intros H Hv. by rewrite (bind_Ok _ _ _ _ _ (getitem_Ok _ _ _ _ _ H Hv)). Qed.


Lemma update_node_alter σ n f :
  is_Some (heap σ !! n) →
  update_node n f σ = Ok tt (with_heap (alter f n) σ).
Proof.
  intros [nd H]. rewrite (update_node_Ok _ _ _ _ H).
  unfold with_heap. do 2 f_equal. apply map_eq. intros k.
  rewrite lookup_alter, lookup_insert. case_decide; [|done].
  subst. by rewrite H.
Qed.

Lemma bind_inv {A B} (m : M A) (k : A → M B) σ b σ' :
  (m ≫= k) σ = Ok b σ' → ∃ a σ1, m σ = Ok a σ1 ∧ k a σ1 = Ok b σ'.
Proof.
  unfold mbind, M_bind. destruct (m σ) as [a σ1|e]; [|done]. eauto.
Qed.

Lemma from_option_inv {A} e (o : option A) σ a σ' :
  from_option e o σ = Ok a σ' → o = Some a ∧ σ' = σ.
Proof. destruct o; cbn; [|done]. by intros [= -> ->]. Qed.

Lemma get_node_inv σ n nd σ' :
  get_node n σ = Ok nd σ' → heap σ !! n = Some nd ∧ σ' = σ.
Proof.
  intros H. apply bind_inv in H as (o & σ1 & [= <- <-] & H).
  by apply from_option_inv in H.
Qed.

Lemma update_node_inv σ n f σ' :
  update_node n f σ = Ok tt σ' →
  is_Some (heap σ !! n) ∧ σ' = with_heap (alter f n) σ.
Proof.
  intros H. pose proof H as H'.
  apply bind_inv in H' as (nd & σ1 & Hn & _).
  apply get_node_inv in Hn as [Hn _].
  rewrite update_node_alter in H by eauto. injection H as <-. eauto.
Qed.

Lemma parent_of_inv σ n p σ' :
  parent_of n σ = Ok p σ' → field parent σ n = Some (Some p) ∧ σ' = σ.
Proof.
  intros H. apply bind_inv in H as (nd & σ1 & Hn & H).
  apply get_node_inv in Hn as [Hn ->].
  apply from_option_inv in H as [Hp ->].
  split; [|done]. apply field_Some. eauto.
Qed.

Lemma Element_len_inv σ n z σ' : Element_len n σ = Ok z σ' → σ' = σ.
Proof.
  intros H. apply bind_inv in H as (nd & σ1 & Hn & H).
  apply get_node_inv in Hn as [_ ->]. by injection H as _ <-.
Qed.

Lemma Element_index_inv σ n x z σ' :
  Element_index n x σ = Ok z σ' → is_Some (heap σ !! n) ∧ σ' = σ.
Proof.
  intros H. apply bind_inv in H as (nd & σ1 & Hn & H).
  apply get_node_inv in Hn as [Hn ->].
  apply bind_inv in H as (i & σ2 & Hi & H).
  apply from_option_inv in Hi as [_ ->]. injection H as _ <-. eauto.
Qed.

Lemma Element_insert_inv σ self i item σ' :
  Element_insert self i item σ = Ok tt σ' →
  is_Some (heap σ !! self) ∧ is_Some (heap σ !! item)
  ∧ σ' = with_heap (inserted self (Z.to_nat i) item) σ.
Proof.
  intros H. apply bind_inv in H as ([] & σ1 & Hset & H).
  apply update_node_inv in Hset as [Hitem ->].
  apply update_node_inv in H as [Hself ->].
  cbn in Hself. rewrite lookup_alter_is_Some in Hself. done.
Qed.

Lemma Element_remove_inv σ self item σ' :
  Element_remove self item σ = Ok tt σ' →
  ∃ nd l, heap σ !! self = Some nd
          ∧ σ' = with_heap <[self := with_children (λ _, l) nd]> σ.
Proof.
  intros H. apply bind_inv in H as (nd & σ1 & Hn & H).
  apply get_node_inv in Hn as [Hn ->].
  apply bind_inv in H as (l & σ2 & Hl & H).
  apply from_option_inv in Hl as [_ ->]. injection H as <-. eauto.
Qed.

Lemma Element_append_Ok σ self item :
  is_Some (heap σ !! self) → is_Some (heap σ !! item) →
  Element_append self item σ = Ok tt (with_heap (appended self item) σ).
Proof.
  intros Hself Hitem. unfold Element_append, setup_child.
  erewrite bind_Ok; [|by apply update_node_alter].
  rewrite update_node_alter; [done|].
  cbn. by rewrite lookup_alter_is_Some.
Qed.

Lemma field_appended {A} (f : Node → A) σ self item n :
  field f (with_heap (appended self item) σ) n =
  (λ nd, f (if decide (self = n)
            then with_children (λ l, l ++ [item])
                   (if decide (item = n) then with_parent (Some self) nd
                    else nd)
            else if decide (item = n) then with_parent (Some self) nd
                 else nd)) <$> heap σ !! n.
Proof.
  unfold field, appended. cbn. rewrite !lookup_alter.
  repeat case_decide; subst; destruct (heap σ !! n); done.
Qed.

(** ** TestMessages *)

Lemma TestMessages_loop msgs : ∀ σ,
  is_Some (heap σ !! document σ) →
  (∀ m, m ∈ msgs → is_Some (heap σ !! m)) →
  ∃ σ' added,
    for_each (λ msg,
      nd ← get_node msg;
      match parent nd with
      | None => doc ← gets document; Element_append doc msg
      | Some _ => mret tt
      end) msgs σ = Ok tt σ'
    ∧ document σ' = document σ
    ∧ transform_messages σ' = transform_messages σ
    ∧ field children σ' (document σ)
      = (λ l, l ++ added) <$> field children σ (document σ)
    ∧ (∀ m, m ∈ added ↔ m ∈ msgs ∧ field parent σ m = Some None)
    ∧ NoDup added
    ∧ added `sublist_of` msgs
    ∧ (∀ n, field parent σ' n =
            if decide (n ∈ added) then Some (Some (document σ))
            else field parent σ n).
Proof.
  induction msgs as [|m rest IH]; intros σ Hdoc Hmsgs.
  - exists σ, []. cbn. split; [done|]. split; [done|]. split; [done|].
    split. { unfold field. destruct (heap σ !! document σ); cbn; [|done].
             by rewrite app_nil_r. }
    split. { intros m. set_solver. }
    split; [constructor|]. split; [constructor|].
    intros n. case_decide; [set_solver|done].
  - destruct (Hmsgs m) as [nd Hm]; [set_solver|].
    cbn [for_each].
    destruct (parent nd) as [q|] eqn:Hpar.
    + destruct (IH σ Hdoc) as (σ' & added & Hrun & Hd & Htm & Hch & Hin & Hnd & Hsub & Hpar');
        [set_solver|].
      exists σ', added. split.
      { erewrite bind_Ok; [exact Hrun|].
        rewrite (bind_Ok _ _ _ _ _ (get_node_Ok _ _ _ Hm)). by rewrite Hpar. }
      split; [done|]. split; [done|]. split; [done|].
      split.
      { intros x. rewrite Hin. split; [set_solver|].
        intros [Hx Hp]. split; [|done].
        apply elem_of_cons in Hx as [->|Hx]; [|done].
        unfold field in Hp. rewrite Hm in Hp. cbn in Hp. congruence. }
      split; [done|]. split; [by constructor|done].
    + set (σ1 := with_heap (appended (document σ) m) σ).
      assert (Hfield : ∀ n, field parent σ1 n =
                if decide (m = n) then Some (Some (document σ))
                else field parent σ n).
      { intros n. unfold σ1. rewrite field_appended.
        unfold field. destruct (heap σ !! n) eqn:?;
          repeat case_decide; naive_solver. }
      destruct (IH σ1) as (σ' & added & Hrun & Hd & Htm & Hch & Hin & Hnd & Hsub & Hpar').
      { unfold σ1, appended. cbn. by rewrite !lookup_alter_is_Some. }
      { intros x Hx. unfold σ1, appended. cbn.
        rewrite !lookup_alter_is_Some. set_solver. }
      assert (Hnotin : m ∉ added).
      { rewrite Hin, Hfield. case_decide; naive_solver. }
      exists σ', (m :: added). split.
      { erewrite bind_Ok; [exact Hrun|].
        rewrite (bind_Ok _ _ _ _ _ (get_node_Ok _ _ _ Hm)). rewrite Hpar.
        erewrite bind_Ok; [|reflexivity]. by apply Element_append_Ok. }
      split; [done|]. split; [done|].
      split.
      { change (document σ1) with (document σ) in Hch. rewrite Hch.
        unfold σ1. rewrite field_appended. unfold field.
        destruct (heap σ !! document σ); cbn; [|done].
        rewrite decide_True by done. f_equal.
        case_decide; cbn; by rewrite <-app_assoc. }
      split.
      { intros x. rewrite elem_of_cons, Hin, Hfield, elem_of_cons.
        case_decide; subst.
        - unfold field. rewrite Hm. cbn. rewrite Hpar. naive_solver.
        - naive_solver. }
      split; [by constructor|]. split; [by constructor|].
      intros n. rewrite Hpar', Hfield.
      change (document σ1) with (document σ).
      repeat case_decide; set_solver.
Qed.

(** C9, as the code has it: [TestMessages.apply] appends to the end
    of the document every diagnostic of [transform_messages] that has
    no parent, once each and in list order, whatever its level (it
    need not even carry one); a diagnostic that has a parent is
    passed over. *)
Theorem TestMessages_appends_parentless σ dnd :
  heap σ !! document σ = Some dnd →
  (∀ m, m ∈ transform_messages σ → is_Some (heap σ !! m)) →
  ∃ σ' added,
    TestMessages_apply σ = Ok tt σ'
    ∧ field children σ' (document σ) = Some (children dnd ++ added)
    ∧ (∀ m, m ∈ added ↔
            m ∈ transform_messages σ ∧ field parent σ m = Some None)
    ∧ NoDup added
    ∧ added `sublist_of` transform_messages σ
    ∧ (∀ m, m ∈ added → field parent σ' m = Some (Some (document σ)))
    ∧ transform_messages σ' = transform_messages σ.
Proof.
  intros Hdoc Hmsgs.
  destruct (TestMessages_loop (transform_messages σ) σ)
    as (σ' & added & Hrun & _ & Htm & Hch & Hin & Hnd & Hsub & Hpar);
    [by eauto|done|].
  exists σ', added. split.
  { unfold TestMessages_apply. by erewrite bind_Ok; [|reflexivity]. }
  split. { rewrite Hch. unfold field. by rewrite Hdoc. }
  split; [done|]. split; [done|]. split; [done|]. split; [|done].
  intros m Hm. rewrite Hpar. by rewrite decide_True.
Qed.

Lemma TestMessages_appends_parentless_witness :
  ∃ σ', TestMessages_apply attached_message_doc = Ok tt σ'
        ∧ field children σ' 0 = Some [1; 3].
Proof.
  destruct (TestMessages_appends_parentless attached_message_doc
              (mkNode nodes.document [1] None ∅ false false EmptyString EmptyString None))
    as (σ' & added & Hrun & Hch & _).
  - reflexivity.
  - intros m Hm. vm_compute in Hm.
    apply elem_of_cons in Hm as [->|Hm]; [by eexists|].
    apply elem_of_cons in Hm as [->|Hm]; [by eexists|].
    by apply elem_of_nil in Hm.
  - exists σ'. split; [exact Hrun|].
    vm_compute in Hrun. injection Hrun as <-. reflexivity.
Defined.

(** C9, as stated, fails: the listed diagnostic [2] has a parent, so
    it is not appended to the document. *)
Lemma TestMessages_skips_attached :
  2 ∈ transform_messages attached_message_doc
  ∧ ∃ σ', TestMessages_apply attached_message_doc = Ok tt σ'
          ∧ field children σ' 0 = Some [1; 3]
          ∧ 2 ∉ [1; 3].
Proof.
  split; [vm_compute; set_solver|].
  eexists. split; [vm_compute; reflexivity|].
  split; [reflexivity|]. set_solver.
Qed.

(** ** Messages *)

Lemma fresh_heap (h : gmap nat Node) : h !! fresh (dom h) = None.
Proof. apply not_elem_of_dom, is_fresh. Qed.

Lemma Element_extend_Ok items : ∀ σ self,
  is_Some (heap σ !! self) →
  (∀ m, m ∈ items → is_Some (heap σ !! m)) →
  Element_extend self items σ = Ok tt (with_heap (extended self items) σ).
Proof.
  induction items as [|item rest IH]; intros σ self Hself Hitems.
  - by destruct σ.
  - cbn [Element_extend].
    erewrite bind_Ok; [|apply Element_append_Ok; [done|set_solver]].
    rewrite IH; [done| |].
    + unfold appended. cbn. by rewrite !lookup_alter_is_Some.
    + intros m Hm. unfold appended. cbn. rewrite !lookup_alter_is_Some.
      set_solver.
Qed.

Lemma lookup_extended self items : ∀ h n,
  extended self items h !! n =
  (λ nd, (if decide (self = n) then with_children (λ l, l ++ items) nd
          else nd))
  <$> ((λ nd, if decide (n ∈ items) then with_parent (Some self) nd else nd)
       <$> h !! n).
Proof.
  induction items as [|item rest IH]; intros h n.
  - unfold extended. cbn [foldl]. destruct (h !! n) as [[]|]; [|done].
    cbn [fmap option_fmap option_map].
    rewrite (decide_False (P := n ∈ [])) by apply not_elem_of_nil.
    case_decide; [|done]. unfold with_children. cbn. by rewrite app_nil_r.
  - cbn [extended foldl]. fold (extended self rest (appended self item h)).
    rewrite IH. unfold appended. rewrite !lookup_alter.
    repeat case_decide; subst; try set_solver.
    all: destruct (h !! _) as [[]|]; [|done].
    all: unfold with_children, with_parent; cbn; rewrite <-?app_assoc; done.
Qed.

Lemma Messages_collect_Ok msgs : ∀ σ,
  (∀ m, m ∈ msgs → ∃ nd level, heap σ !! m = Some nd
                   ∧ attributes nd !! "level" = Some (VInt level)) →
  Messages_collect (report_level σ) msgs σ = Ok (filter (qualifies σ) msgs) σ.
Proof.
  induction msgs as [|m rest IH]; intros σ Hmsgs; [done|].
  destruct (Hmsgs m) as (nd & level & Hm & Hlevel); [set_solver|].
  cbn [Messages_collect]. unfold Messages_qualifies.
  assert (Hq : ((getitem m "level" ≫= as_int) ≫= λ level : Z,
                  if (level >=? report_level σ)%Z
                  then nd ← get_node m; mret (bool_decide (parent nd = None))
                  else mret false) σ = Ok (qualifies σ m) σ).
  { erewrite bind_Ok; [|by eapply getitem_int_Ok].
    unfold qualifies. rewrite Hm, Hlevel. rewrite Z.geb_leb.
    destruct (report_level σ <=? level)%Z; [|done].
    by rewrite (bind_Ok _ _ _ _ _ (get_node_Ok _ _ _ Hm)). }
  erewrite bind_Ok; [|exact Hq].
  erewrite bind_Ok; [|apply IH; set_solver].
  rewrite filter_cons. unfold mret, M_ret. f_equal.
  destruct (qualifies σ m); cbn; by case_decide.
Qed.

(** C10: when no listed message qualifies (level at or above the
    report threshold, and no parent), [Messages.apply] changes nothing,
    neither the tree nor [transform_messages]; when some message
    qualifies, [transform_messages] is emptied altogether and one new
    section, titled "Docutils System Messages" and holding the
    qualifying messages in list order, becomes the last child of the
    document. *)
Theorem Messages_apply_cases σ dnd :
  heap σ !! document σ = Some dnd →
  (∀ m, m ∈ transform_messages σ →
        ∃ nd level, heap σ !! m = Some nd
                    ∧ attributes nd !! "level" = Some (VInt level)) →
  (filter (qualifies σ) (transform_messages σ) = [] →
   Messages_apply σ = Ok tt σ)
  ∧ (filter (qualifies σ) (transform_messages σ) ≠ [] →
     ∃ σ' section title,
       Messages_apply σ = Ok tt σ'
       ∧ transform_messages σ' = []
       ∧ heap σ !! section = None ∧ heap σ !! title = None
       ∧ section ≠ title
       ∧ (∀ n, is_Some (heap σ' !! n) ↔
               is_Some (heap σ !! n) ∨ n = section ∨ n = title)
       ∧ (∀ n nd, heap σ !! n = Some nd → field kind σ' n = Some (kind nd))
       ∧ field children σ' (document σ) = Some (children dnd ++ [section])
       ∧ field kind σ' section = Some nodes.section
       ∧ field parent σ' section = Some (Some (document σ))
       ∧ field children σ' section
         = Some (title :: filter (qualifies σ) (transform_messages σ))
       ∧ field kind σ' title = Some nodes.title
       ∧ field text σ' title = Some "Docutils System Messages"
       ∧ field parent σ' title = Some (Some section)
       ∧ (∀ m, m ∈ filter (qualifies σ) (transform_messages σ) →
               field parent σ' m = Some (Some section))).
Proof.
  intros Hdoc Hlevels.
  assert (Hcollect := Messages_collect_Ok _ σ Hlevels).
  split; intros Hq.
  - unfold Messages_apply.
    erewrite bind_Ok; [|reflexivity]. erewrite bind_Ok; [|reflexivity].
    erewrite bind_Ok; [|exact Hcollect]. by rewrite Hq.
  - set (quals := filter (qualifies σ) (transform_messages σ)) in *.
    set (S := new_node nodes.section EmptyString EmptyString
                {["classes" := VList ["system-messages"]]} None).
    set (T := new_node nodes.title EmptyString
                "Docutils System Messages" ∅ None).
    set (sec := fresh (dom (heap σ))).
    set (t := fresh (dom (<[sec := S]> (heap σ)))).
    assert (Hsec : heap σ !! sec = None) by apply fresh_heap.
    assert (Ht' : <[sec := S]> (heap σ) !! t = None) by apply fresh_heap.
    assert (Hne : sec ≠ t).
    { intros Heq. rewrite <-Heq, lookup_insert_eq in Ht'. done. }
    assert (Ht : heap σ !! t = None).
    { by rewrite lookup_insert_ne in Ht'. }
    assert (Hquals : ∀ m, m ∈ quals → is_Some (heap σ !! m)).
    { intros m Hm. apply list_elem_of_filter in Hm as [_ Hm].
      destruct (Hlevels m Hm) as (? & ? & ? & _). eauto. }
    assert (Hd_sec : document σ ≠ sec) by congruence.
    assert (Hd_t : document σ ≠ t) by congruence.
    assert (Hq_sec : sec ∉ quals).
    { intros Hin. apply Hquals in Hin as [? ?]. congruence. }
    assert (Hq_t : t ∉ quals).
    { intros Hin. apply Hquals in Hin as [? ?]. congruence. }
    set (hF := appended (document σ) sec
                 (extended sec quals
                    (appended sec t (<[t := T]> (<[sec := S]> (heap σ)))))).
    assert (Hlook : ∀ n, hF !! n =
      if decide (n = sec) then
        Some (with_parent (Some (document σ))
                (with_children (λ _, t :: quals) S))
      else if decide (n = t) then Some (with_parent (Some sec) T)
      else (λ nd, (if decide (n = document σ)
                   then with_children (λ l, l ++ [sec]) else id)
                  ((if decide (n ∈ quals)
                    then with_parent (Some sec) else id) nd))
           <$> heap σ !! n).
    { intros n. unfold hF, appended.
      repeat first [rewrite lookup_alter | rewrite lookup_extended
                   | rewrite lookup_insert].
      repeat case_decide; subst; try done;
        try (destruct (heap σ !! _) as [[]|]; done).
      all: by destruct (heap σ !! n) as [[]|]. }
    exists (with_heap (λ _, hF) (with_transform_messages (λ _, []) σ)), sec, t.
    split.
    { unfold Messages_apply.
      erewrite bind_Ok; [|reflexivity]. erewrite bind_Ok; [|reflexivity].
      erewrite bind_Ok; [|exact Hcollect]. fold quals.
      assert (Hmatch : ∀ (a b : M unit),
                match quals with [] => a | _ :: _ => b end = b).
      { intros a b. clearbody quals. by destruct quals. }
      rewrite Hmatch.
      erewrite bind_Ok; [|reflexivity]. erewrite bind_Ok; [|reflexivity].
      erewrite bind_Ok;
        [|apply Element_append_Ok; cbn;
          [rewrite lookup_insert_ne by done; by rewrite lookup_insert_eq
          |by rewrite lookup_insert_eq]].
      erewrite bind_Ok.
      2:{ apply Element_extend_Ok.
          - unfold appended. cbn. rewrite !lookup_alter_is_Some.
            rewrite lookup_insert_ne by done. by rewrite lookup_insert_eq.
          - intros m Hm. unfold appended. cbn. rewrite !lookup_alter_is_Some.
            assert (t ≠ m) by (by intros <-).
            assert (sec ≠ m) by (by intros <-).
            rewrite !lookup_insert_ne by done. by apply Hquals. }
      erewrite bind_Ok; [|reflexivity]. erewrite bind_Ok; [|reflexivity].
      rewrite Element_append_Ok;
        [cbv [with_heap with_transform_messages heap document nameids ids
              transform_messages report_level]; reflexivity| |].
      - cbn. rewrite lookup_extended, !fmap_is_Some. unfold appended.
        rewrite !lookup_alter_is_Some, !lookup_insert_ne by done. eauto.
      - cbn. rewrite lookup_extended, !fmap_is_Some. unfold appended.
        rewrite !lookup_alter_is_Some, lookup_insert_ne by done.
        by rewrite lookup_insert_eq. }
    cbn [heap with_heap with_transform_messages transform_messages].
    unfold field. cbn [heap with_heap with_transform_messages].
    split; [done|]. split; [done|]. split; [done|]. split; [done|].
    split.
    { intros n. rewrite Hlook.
      repeat case_decide; subst; rewrite ?fmap_is_Some; naive_solver. }
    split.
    { intros n nd Hn. rewrite Hlook.
      assert (n ≠ sec) by congruence. assert (n ≠ t) by congruence.
      rewrite !decide_False by done. rewrite Hn.
      by repeat case_decide. }
    rewrite !Hlook, Hdoc.
    rewrite (decide_False (P := document σ = sec)) by done.
    rewrite (decide_False (P := document σ = t)) by done.
    rewrite !(decide_True (P := sec = sec)) by done.
    rewrite (decide_False (P := t = sec)) by done.
    rewrite !(decide_True (P := t = t)) by done.
    rewrite (decide_True (P := document σ = document σ)) by done.
    split. { by case_decide. }
    do 6 (split; [done|]).
    intros m Hm. rewrite Hlook.
    destruct (Hquals m Hm) as [nd Hnd].
    assert (m ≠ sec) by congruence. assert (m ≠ t) by congruence.
    rewrite !decide_False by done. rewrite Hnd.
    rewrite (decide_True (P := m ∈ quals)) by done.
    by case_decide.
Qed.

Lemma Messages_apply_cases_witness :
  ∃ σ', Messages_apply pending_message_doc = Ok tt σ'
        ∧ transform_messages σ' = []
        ∧ field children σ' 0 = Some [1; 4]
        ∧ field children σ' 4 = Some [5; 2].
Proof.
  destruct (Messages_apply_cases pending_message_doc
              (mkNode nodes.document [1] None ∅ false false EmptyString EmptyString None))
    as [_ Hsome].
  - reflexivity.
  - intros m Hm. vm_compute in Hm.
    apply elem_of_cons in Hm as [->|Hm]; [by eexists _, _|].
    apply elem_of_cons in Hm as [->|Hm]; [by eexists _, _|].
    by apply elem_of_nil in Hm.
  - destruct Hsome as (σ' & section & title & Hrun & _); [by vm_compute|].
    exists σ'. split; [exact Hrun|].
    vm_compute in Hrun. injection Hrun as <-. by vm_compute.
Defined.

(** ** FinalChecks: references *)

Lemma reporter_error_Ok σ message ln :
  reporter_error message ln σ =
  Ok (fresh (dom (heap σ)))
     (with_transform_messages (λ l, l ++ [fresh (dom (heap σ))])
        (with_heap
           <[fresh (dom (heap σ)) :=
               new_node nodes.system_message message message
                 {["level" := VInt 3]} ln]> σ)).
Proof. reflexivity. Qed.

Lemma set_id_fresh_Ok σ node nd :
  heap σ !! node = Some nd →
  list_attribute nd "ids" = [] →
  set_id node σ =
  Ok (fresh (dom (ids σ)))
     (with_ids <[fresh (dom (ids σ)) := node]>
        (with_heap
           <[node := with_attributes
                       <["ids" := VList [fresh (dom (ids σ))]]> nd]> σ)).
Proof.
  intros Hnode Hids. unfold set_id.
  rewrite (bind_Ok _ _ _ _ _ (get_node_Ok _ _ _ Hnode)). rewrite Hids.
  cbn [last].
  erewrite bind_Ok; [reflexivity|].
  erewrite bind_Ok; [|reflexivity].
  erewrite bind_Ok; [|by apply update_node_Ok]. reflexivity.
Qed.

Lemma Element_replace_Ok σ self nd old new newnd l1 l2 :
  heap σ !! self = Some nd →
  children nd = l1 ++ old :: l2 → old ∉ l1 →
  heap σ !! new = Some newnd →
  self ≠ new →
  Element_replace self old new σ =
  Ok tt (with_heap
           (λ h, <[self := with_children (λ _, l1 ++ new :: l2) nd]>
                   (<[new := with_parent (Some self) newnd]> h)) σ).
Proof.
  intros Hself Hch Hold Hnew Hne. unfold Element_replace, setup_child.
  rewrite (bind_Ok _ _ _ _ _ (get_node_Ok _ _ _ Hself)).
  rewrite Hch, list_index_middle by done. cbn [from_option].
  erewrite bind_Ok; [|reflexivity].
  erewrite bind_Ok; [|by apply update_node_Ok].
  erewrite update_node_Ok; [|by cbn; rewrite lookup_insert_ne].
  unfold with_heap, with_children. cbn. rewrite Hch.
  by rewrite list_replace_middle.
Qed.

(** C1: a reference, footnote reference or citation reference that
    is not yet resolved and whose [refname] the document's [nameids]
    maps to an id loses its [refname], gets that id as [refid] and is
    marked resolved, and the node the id table holds for that id is
    marked referenced. *)
Theorem visit_reference_resolves fuel rs σ node nd refname id tgt tnd :
  heap σ !! node = Some nd →
  kind nd ∈ [nodes.reference; nodes.footnote_reference;
             nodes.citation_reference] →
  resolved nd = false →
  attributes nd !! "refname" = Some (VStr refname) →
  nameids σ !! refname = Some (Some id) →
  ids σ !! id = Some tgt →
  heap σ !! tgt = Some tnd →
  ∃ σ' nd' tnd',
    FinalCheckVisitor fuel rs node σ = Ok tt σ' ∧
    heap σ' !! node = Some nd' ∧
    attributes nd' !! "refname" = None ∧
    attributes nd' !! "refid" = Some (VStr id) ∧
    resolved nd' = true ∧
    heap σ' !! tgt = Some tnd' ∧
    referenced tnd' = true.
Proof.
  intros Hnode Hkind Hres Hname Hid Hids Htgt.
  assert (Hvisit : FinalCheckVisitor fuel rs node σ = visit_reference rs node σ).
  { unfold FinalCheckVisitor. rewrite (bind_Ok _ _ _ _ _ (get_node_Ok _ _ _ Hnode)).
    set_unfold in Hkind. destruct Hkind as [->|[->|[->|[]]]]; done. }
  rewrite Hvisit. unfold visit_reference.
  rewrite (bind_Ok _ _ _ _ _ (get_node_Ok _ _ _ Hnode)).
  rewrite Hres, Hname. rewrite bool_decide_eq_true_2 by eauto. cbn [orb negb].
  erewrite bind_Ok; [|by eapply getitem_str_Ok].
  erewrite bind_Ok; [|reflexivity]. rewrite Hid. cbn [mjoin option_join].
  erewrite bind_Ok; [|by apply update_node_Ok].
  erewrite bind_Ok; [|apply update_node_Ok; cbn; apply lookup_insert_eq].
  erewrite bind_Ok; [|erewrite bind_Ok; [|reflexivity]; cbn; rewrite Hids; reflexivity].
  unfold note_referenced_by.
  destruct (decide (tgt = node)) as [->|Hne].
  - erewrite bind_Ok; [|apply update_node_Ok; cbn; apply lookup_insert_eq].
    erewrite update_node_Ok; [|cbn; apply lookup_insert_eq].
    eexists _, _, _. split; [reflexivity|]. cbn.
    rewrite lookup_insert_eq. split; [reflexivity|]. cbn.
    rewrite lookup_insert_ne by done. rewrite lookup_delete_eq, lookup_insert_eq.
    eauto 10.
  - erewrite bind_Ok;
      [|apply update_node_Ok; cbn; rewrite !lookup_insert_ne by done; exact Htgt].
    erewrite update_node_Ok;
      [|cbn; rewrite lookup_insert_ne by done; apply lookup_insert_eq].
    eexists _, _, _. split; [reflexivity|]. cbn.
    rewrite lookup_insert_eq. split; [reflexivity|]. cbn.
    rewrite lookup_insert_ne by done. rewrite lookup_delete_eq, lookup_insert_eq.
    rewrite lookup_insert_ne by done. rewrite lookup_insert_eq. eauto 10.
Qed.

Lemma visit_reference_resolves_witness :
  ∃ σ', FinalCheckVisitor 0 [] 2 reference_doc = Ok tt σ'
        ∧ field resolved σ' 2 = Some true
        ∧ field referenced σ' 4 = Some true.
Proof.
  destruct (visit_reference_resolves 0 [] reference_doc 2
              (mkNode nodes.reference [] (Some 1)
                 {["refname" := VStr "known"]}
                 false false "known_" "known" None)
              "known" "id1" 4
              (mkNode nodes.target [] (Some 0) {["ids" := VList ["id1"]]}
                 false false EmptyString EmptyString None))
    as (σ' & nd' & tnd' & Hrun & _).
  - reflexivity.
  - apply list_elem_of_here.
  - reflexivity.
  - reflexivity.
  - reflexivity.
  - reflexivity.
  - reflexivity.
  - exists σ'. split; [exact Hrun|].
    vm_compute in Hrun. injection Hrun as <-. by vm_compute.
Defined.

Lemma try_resolvers_first rs1 : ∀ r rs2 node σ σ1 σ',
  try_resolvers rs1 node σ = Ok false σ1 →
  r node σ1 = Ok true σ' →
  try_resolvers (rs1 ++ r :: rs2) node σ = Ok true σ'.
Proof.
  induction rs1 as [|r1 rs1 IH]; intros r rs2 node σ σ1 σ' Hdecl Hr;
    cbn [try_resolvers app] in *.
  - injection Hdecl as <-. erewrite bind_Ok; [|exact Hr]. done.
  - apply bind_inv in Hdecl as (b & σ2 & Hr1 & Hdecl).
    erewrite bind_Ok; [|exact Hr1].
    destruct b; [done|]. by eapply IH.
Qed.

Lemma visit_reference_handled rs σ σ' node nd refname :
  heap σ !! node = Some nd →
  resolved nd = false →
  attributes nd !! "refname" = Some (VStr refname) →
  mjoin (nameids σ !! refname) = None →
  try_resolvers rs node σ = Ok true σ' →
  visit_reference rs node σ = Ok tt σ'.
Proof.
  intros Hnode Hres Hname Hid Hrs. unfold visit_reference.
  rewrite (bind_Ok _ _ _ _ _ (get_node_Ok _ _ _ Hnode)).
  rewrite Hres, Hname. rewrite bool_decide_eq_true_2 by eauto. cbn [orb negb].
  erewrite bind_Ok; [|by eapply getitem_str_Ok].
  erewrite bind_Ok; [|reflexivity]. rewrite Hid. cbv beta iota.
  erewrite bind_Ok; [|exact Hrs]. done.
Qed.

(** C2: take an unresolved reference whose name does not resolve and
    that every resolver callback, tried in order, declines, and let
    [σ1] be the document the callbacks leave (the same document when
    they only inspect).  If the reference still carries its name and
    hangs in its parent [p] there, it is replaced in [p] by a new
    problematic node built around the reference's raw text; exactly
    one diagnostic, of level 3, is recorded: "Duplicate target name"
    when the name is a key of [nameids] (then mapped to None),
    "Unknown target name" otherwise; the problematic node's [refid] is
    the id generated for the diagnostic, and the diagnostic's backrefs
    hold the id generated for the problematic node. *)
Theorem visit_reference_reports
    fuel rs σ σ1 node nd nd1 refname shown p pnd l1 l2 :
  heap σ !! node = Some nd →
  kind nd ∈ [nodes.reference; nodes.footnote_reference;
             nodes.citation_reference] →
  resolved nd = false →
  attributes nd !! "refname" = Some (VStr refname) →
  mjoin (nameids σ !! refname) = None →
  try_resolvers rs node σ = Ok false σ1 →
  heap σ1 !! node = Some nd1 →
  attributes nd1 !! "refname" = Some (VStr shown) →
  parent nd1 = Some p →
  heap σ1 !! p = Some pnd →
  children pnd = l1 ++ node :: l2 →
  node ∉ l1 →
  ∃ σ' msg prb msgid prbid,
    FinalCheckVisitor fuel rs node σ = Ok tt σ'
    ∧ heap σ1 !! msg = None ∧ heap σ1 !! prb = None ∧ msg ≠ prb
    ∧ ids σ1 !! msgid = None ∧ ids σ1 !! prbid = None ∧ msgid ≠ prbid
    ∧ transform_messages σ' = transform_messages σ1 ++ [msg]
    ∧ field kind σ' msg = Some nodes.system_message
    ∧ field (λ nd, attributes nd !! "level") σ' msg = Some (Some (VInt 3))
    ∧ field text σ' msg
      = Some (if decide (is_Some (nameids σ1 !! refname))
              then duplicate_target_text shown
              else unknown_target_text shown)
    ∧ field children σ' p = Some (l1 ++ prb :: l2)
    ∧ field kind σ' prb = Some nodes.problematic
    ∧ field parent σ' prb = Some (Some p)
    ∧ field rawsource σ' prb = Some (rawsource nd1)
    ∧ field text σ' prb = Some (rawsource nd1)
    ∧ field (λ nd, attributes nd !! "refid") σ' prb
      = Some (Some (VStr msgid))
    ∧ ids σ' !! msgid = Some msg
    ∧ ids σ' !! prbid = Some prb
    ∧ field (λ nd, attributes nd !! "ids") σ' msg
      = Some (Some (VList [msgid]))
    ∧ field (λ nd, attributes nd !! "ids") σ' prb
      = Some (Some (VList [prbid]))
    ∧ field (λ nd, attributes nd !! "backrefs") σ' msg
      = Some (Some (VList [prbid])).
Proof.
  intros Hnode Hkind Hres Hname Hid Hrs Hnode1 Hshown Hpar Hp Hch Hl1.
  assert (Hvisit : FinalCheckVisitor fuel rs node σ = visit_reference rs node σ).
  { unfold FinalCheckVisitor. rewrite (bind_Ok _ _ _ _ _ (get_node_Ok _ _ _ Hnode)).
    set_unfold in Hkind. destruct Hkind as [->|[->|[->|[]]]]; done. }
  set (msg := fresh (dom (heap σ1))).
  set (msgid := fresh (dom (ids σ1))).
  set (message := if bool_decide (is_Some (nameids σ1 !! refname))
                  then duplicate_target_text shown
                  else unknown_target_text shown).
  set (mnd := new_node nodes.system_message message message
                {["level" := VInt 3]} (line nd1)).
  set (mnd' := with_attributes <["ids" := VList [msgid]]> mnd).
  set (h1 := <[msg := mnd']> (<[msg := mnd]> (heap σ1))).
  set (prb := fresh (dom h1)).
  set (prbid := fresh (dom (<[msgid := msg]> (ids σ1)))).
  set (pbnd := new_node nodes.problematic (rawsource nd1) (rawsource nd1)
                 {["refid" := VStr msgid]} None).
  set (pbnd' := with_attributes <["ids" := VList [prbid]]> pbnd).
  assert (Hmsg : heap σ1 !! msg = None) by apply fresh_heap.
  assert (Hprb1 : h1 !! prb = None) by apply fresh_heap.
  assert (Hmp : msg ≠ prb).
  { intros Heq. rewrite <-Heq in Hprb1. unfold h1 in Hprb1.
    by rewrite lookup_insert_eq in Hprb1. }
  assert (Hprb : heap σ1 !! prb = None).
  { unfold h1 in Hprb1. by rewrite !lookup_insert_ne in Hprb1. }
  assert (Hmsgid : ids σ1 !! msgid = None).
  { apply not_elem_of_dom, is_fresh. }
  assert (Hprbid' : <[msgid := msg]> (ids σ1) !! prbid = None).
  { apply not_elem_of_dom, is_fresh. }
  assert (Hids_ne : msgid ≠ prbid).
  { intros Heq. rewrite <-Heq in Hprbid'. by rewrite lookup_insert_eq in Hprbid'. }
  assert (Hprbid : ids σ1 !! prbid = None).
  { by rewrite lookup_insert_ne in Hprbid'. }
  assert (msg ≠ node) by congruence. assert (prb ≠ node) by congruence.
  assert (msg ≠ p) by congruence. assert (prb ≠ p) by congruence.
  assert (prb ≠ msg) by done. assert (p ≠ prb) by done.
  eexists _, msg, prb, msgid, prbid. split.
  { rewrite Hvisit. unfold visit_reference.
    rewrite (bind_Ok _ _ _ _ _ (get_node_Ok _ _ _ Hnode)).
    rewrite Hres, Hname. rewrite bool_decide_eq_true_2 by eauto. cbn [orb negb].
    erewrite bind_Ok; [|by eapply getitem_str_Ok].
    erewrite bind_Ok; [|reflexivity]. rewrite Hid. cbv beta iota.
    erewrite bind_Ok; [|exact Hrs]. cbv beta iota.
    erewrite bind_Ok; [|reflexivity].
    erewrite bind_Ok; [|by eapply getitem_str_Ok].
    rewrite (bind_Ok _ _ _ _ _ (get_node_Ok _ _ _ Hnode1)).
    erewrite bind_Ok; [|apply reporter_error_Ok].
    erewrite bind_Ok;
      [|eapply set_id_fresh_Ok; [cbn; apply lookup_insert_eq|reflexivity]].
    erewrite bind_Ok;
      [|apply get_node_Ok; cbn; rewrite !lookup_insert_ne by done; exact Hnode1].
    erewrite bind_Ok; [|reflexivity].
    erewrite bind_Ok;
      [|eapply set_id_fresh_Ok; [cbn; apply lookup_insert_eq|reflexivity]].
    erewrite bind_Ok.
    2:{ apply update_node_Ok. cbn.
        rewrite lookup_insert_ne by done. rewrite lookup_insert_ne by done.
        apply lookup_insert_eq. }
    erewrite bind_Ok.
    2:{ unfold parent_of. erewrite bind_Ok; [rewrite Hpar; reflexivity|].
        apply get_node_Ok. cbn. rewrite !lookup_insert_ne by done. exact Hnode1. }
    eapply Element_replace_Ok; [|exact Hch|exact Hl1| |done].
    - cbn. rewrite !lookup_insert_ne by done. exact Hp.
    - cbn. rewrite lookup_insert_ne by done. apply lookup_insert_eq. }
  unfold field.
  cbn [heap ids transform_messages with_heap with_ids with_transform_messages].
  rewrite !lookup_insert_eq.
  rewrite !(lookup_insert_ne _ p) by done. rewrite !lookup_insert_eq.
  rewrite !(lookup_insert_ne _ prb msg) by done. rewrite !lookup_insert_eq.
  rewrite (lookup_insert_ne _ prbid msgid) by done. rewrite lookup_insert_eq.
  do 6 (split; [done|]).
  split; [done|]. split; [done|]. split; [done|].
  split. { cbn. unfold message. f_equal.
           case_bool_decide; case_decide; done. }
  repeat (split; [done|]). done.
Qed.

Lemma visit_reference_reports_witness :
  ∃ σ', FinalCheckVisitor 0 [λ _ σ, Ok false σ] 3 reference_doc = Ok tt σ'
        ∧ field children σ' 1 = Some [2; 6]
        ∧ transform_messages σ' = [5].
Proof.
  destruct (visit_reference_reports 0 [λ _ σ, Ok false σ]
              reference_doc reference_doc 3
              (mkNode nodes.reference [] (Some 1)
                 {["refname" := VStr "missing"]}
                 false false "missing_" "missing" None)
              (mkNode nodes.reference [] (Some 1)
                 {["refname" := VStr "missing"]}
                 false false "missing_" "missing" None)
              "missing" "missing" 1
              (mkNode nodes.paragraph [2; 3] (Some 0) ∅ false false EmptyString EmptyString None)
              [2] [])
    as (σ' & msg & prb & msgid & prbid & Hrun & _).
  - reflexivity.
  - apply list_elem_of_here.
  - reflexivity.
  - reflexivity.
  - reflexivity.
  - reflexivity.
  - reflexivity.
  - reflexivity.
  - reflexivity.
  - reflexivity.
  - reflexivity.
  - intros Hin. apply list_elem_of_singleton in Hin. discriminate.
  - exists σ'. split; [exact Hrun|].
    vm_compute in Hrun. injection Hrun as <-. by vm_compute.
Defined.

(** ** FinalChecks: transitions *)

Lemma parent_of_Ok σ n nd p :
  heap σ !! n = Some nd → parent nd = Some p → parent_of n σ = Ok p σ.
Proof.
  intros H Hp. unfold parent_of.
  rewrite (bind_Ok _ _ _ _ _ (get_node_Ok _ _ _ H)). by rewrite Hp.
Qed.

Lemma Element_len_Ok σ n nd :
  heap σ !! n = Some nd →
  Element_len n σ = Ok (Z.of_nat (length (children nd))) σ.
Proof.
  intros H. unfold Element_len.
  by rewrite (bind_Ok _ _ _ _ _ (get_node_Ok _ _ _ H)).
Qed.

Lemma Element_index_Ok σ n nd x l1 l2 :
  heap σ !! n = Some nd → children nd = l1 ++ x :: l2 → x ∉ l1 →
  Element_index n x σ = Ok (Z.of_nat (length l1)) σ.
Proof.
  intros H Hch Hx. unfold Element_index.
  rewrite (bind_Ok _ _ _ _ _ (get_node_Ok _ _ _ H)).
  by rewrite Hch, list_index_middle.
Qed.

Lemma Element_getitem_Ok σ n nd (i : nat) c :
  heap σ !! n = Some nd → children nd !! i = Some c →
  Element_getitem n (Z.of_nat i) σ = Ok c σ.
Proof.
  intros H Hc. unfold Element_getitem, list_getitem.
  rewrite (bind_Ok _ _ _ _ _ (get_node_Ok _ _ _ H)).
  destruct (Z.ltb_spec (Z.of_nat i) 0) as [?|_]; [lia|].
  destruct (Z.ltb_spec (Z.of_nat i) 0) as [?|_]; [lia|].
  by rewrite Nat2Z.id, Hc.
Qed.

Lemma isinstance_Ok σ n cls :
  is_Some (heap σ !! n) → isinstance n cls σ = Ok (is_kind σ n cls) σ.
Proof.
  intros [nd H]. unfold isinstance, is_kind, field.
  rewrite (bind_Ok _ _ _ _ _ (get_node_Ok _ _ _ H)). rewrite H. cbn.
  unfold mret, M_ret. f_equal. apply bool_decide_ext. naive_solver.
Qed.

Lemma Element_insert_Ok σ self (index : nat) item :
  is_Some (heap σ !! self) → is_Some (heap σ !! item) →
  Element_insert self (Z.of_nat index) item σ
  = Ok tt (with_heap (inserted self index item) σ).
Proof.
  intros Hself Hitem. unfold Element_insert, setup_child.
  erewrite bind_Ok; [|by apply update_node_alter].
  rewrite update_node_alter; [by rewrite Nat2Z.id|].
  cbn. by rewrite lookup_alter_is_Some.
Qed.

Lemma Element_remove_Ok σ self nd item l1 l2 :
  heap σ !! self = Some nd → children nd = l1 ++ item :: l2 → item ∉ l1 →
  Element_remove self item σ
  = Ok tt (with_heap <[self := with_children (λ _, l1 ++ l2) nd]> σ).
Proof.
  intros Hself Hch Hitem. unfold Element_remove.
  rewrite (bind_Ok _ _ _ _ _ (get_node_Ok _ _ _ Hself)).
  by rewrite Hch, list_remove_middle.
Qed.

Lemma error_inserted_spec σ p pnd message ln la lb :
  heap σ !! p = Some pnd →
  children pnd = la ++ lb →
  let error := fresh (dom (heap σ)) in
  let σ1 := error_inserted message ln p (length la) σ in
  heap σ !! error = None
  ∧ heap σ1 !! error
    = Some (with_parent (Some p)
              (new_node nodes.system_message message message
                 {["level" := VInt 3]} ln))
  ∧ heap σ1 !! p = Some (with_children (λ _, la ++ error :: lb) pnd)
  ∧ transform_messages σ1 = transform_messages σ ++ [error]
  ∧ (∀ n, n ≠ p → n ≠ error → heap σ1 !! n = heap σ !! n).
Proof.
  intros Hp Hch error σ1.
  assert (Her : heap σ !! error = None) by apply fresh_heap.
  assert (Hne : p ≠ error) by congruence.
  unfold σ1, error_inserted, reported, inserted. cbn. fold error.
  split; [done|]. split.
  { rewrite lookup_alter_ne by done. by rewrite lookup_alter_eq, lookup_insert_eq. }
  split.
  { rewrite lookup_alter_eq, lookup_alter_ne, lookup_insert_ne by done.
    rewrite Hp. cbn. unfold with_children. cbn.
    by rewrite Hch, list_insert_at_middle. }
  split; [done|].
  intros n Hn1 Hn2.
  by rewrite !lookup_alter_ne, lookup_insert_ne by done.
Qed.

Lemma report_and_insert_Ok σ node nd p message (i : nat) :
  heap σ !! node = Some nd → parent nd = Some p →
  is_Some (heap σ !! p) →
  (error ← reporter_error message (line nd);
   p ← parent_of node;
   Element_insert p (Z.of_nat i) error) σ
  = Ok tt (error_inserted message (line nd) p i σ).
Proof.
  intros Hnode Hpar Hp.
  assert (Her : heap σ !! fresh (dom (heap σ)) = None) by apply fresh_heap.
  assert (fresh (dom (heap σ)) ≠ node) by congruence.
  assert (fresh (dom (heap σ)) ≠ p) by (intros <-; by destruct Hp; simplify_eq).
  erewrite bind_Ok; [|apply reporter_error_Ok].
  erewrite bind_Ok;
    [|eapply parent_of_Ok; [|exact Hpar]; cbn;
      by rewrite lookup_insert_ne].
  rewrite Element_insert_Ok; [done| |].
  - cbn. by rewrite lookup_insert_ne.
  - cbn. by rewrite lookup_insert_eq.
Qed.

Lemma begins_with_transition_Ok σ node nd p pnd l1 l2 :
  heap σ !! node = Some nd → parent nd = Some p →
  heap σ !! p = Some pnd →
  children pnd = l1 ++ node :: l2 →
  (∀ c, c ∈ l1 → is_Some (heap σ !! c)) →
  begins_with_transition node (Z.of_nat (length l1)) σ = Ok (begins σ l1) σ.
Proof.
  intros Hnode Hpar Hp Hch Hlive. unfold begins_with_transition.
  destruct l1 as [|t l1]; [done|].
  assert (Ht : is_Some (heap σ !! t)) by (apply Hlive; set_solver).
  destruct (Z.eqb_spec (Z.of_nat (length (t :: l1))) 0) as [?|_];
    [cbn in *; lia|].
  erewrite bind_Ok.
  2:{ erewrite bind_Ok; [|by eapply parent_of_Ok].
      apply (Element_getitem_Ok _ _ _ 0 t Hp). by rewrite Hch. }
  erewrite bind_Ok; [|by apply isinstance_Ok].
  destruct l1 as [|s l1]; cbn [begins].
  { by destruct (is_kind σ t nodes.title). }
  assert (Hs : is_Some (heap σ !! s)) by (apply Hlive; set_solver).
  destruct (is_kind σ t nodes.title); cbn [andb];
    [|by destruct l1].
  destruct (Z.eqb_spec (Z.of_nat (length (t :: s :: l1))) 1) as [?|_];
    [cbn in *; lia|].
  erewrite bind_Ok.
  2:{ erewrite bind_Ok; [|by eapply parent_of_Ok].
      apply (Element_getitem_Ok _ _ _ 1 s Hp). by rewrite Hch. }
  erewrite bind_Ok; [|by apply isinstance_Ok].
  destruct (is_kind σ s nodes.subtitle); [|by destruct l1].
  destruct l1 as [|u l1]; [done|].
  unfold mret, M_ret. f_equal.
  apply Z.eqb_neq. cbn [length]. lia.
Qed.

Section check_transition.

Context (σ : State) (node p : nat) (nd pnd : Node) (l1 l2 : list nat).
Hypothesis Hnode : heap σ !! node = Some nd.
Hypothesis Hpar : parent nd = Some p.
Hypothesis Hp : heap σ !! p = Some pnd.
Hypothesis Hch : children pnd = l1 ++ node :: l2.
Hypothesis Hl1 : node ∉ l1.
Hypothesis Hlive : ∀ c, c ∈ l1 → is_Some (heap σ !! c).

Lemma check_transition_index :
  (parent_of node ≫= λ p, Element_index p node) σ
  = Ok (Z.of_nat (length l1)) σ.
Proof.
  erewrite bind_Ok; [|by eapply parent_of_Ok]. by eapply Element_index_Ok.
Qed.

Lemma reported_insert (message : string) (i : nat) (z : Z) :
  (p ← parent_of node;
   Element_insert p (Z.of_nat i) (fresh (dom (heap σ)));; mret z)
    (reported message (line nd) σ)
  = Ok z (error_inserted message (line nd) p i σ).
Proof.
  assert (Her : heap σ !! fresh (dom (heap σ)) = None) by apply fresh_heap.
  assert (fresh (dom (heap σ)) ≠ node) by congruence.
  assert (fresh (dom (heap σ)) ≠ p) by congruence.
  erewrite bind_Ok;
    [|eapply parent_of_Ok; [|exact Hpar]; cbn; by rewrite lookup_insert_ne].
  erewrite bind_Ok; [reflexivity|].
  apply Element_insert_Ok; cbn.
  - rewrite lookup_insert_ne by done. eauto.
  - by rewrite lookup_insert_eq.
Qed.

Lemma check_transition_begins :
  begins σ l1 = true →
  kind pnd = nodes.document ∨ kind pnd = nodes.section →
  check_transition node σ
  = Ok (Z.of_nat (length l1) + 1)%Z
       (error_inserted begin_with_transition_text (line nd) p (length l1) σ).
Proof.
  intros Hb Hkind. unfold check_transition.
  erewrite bind_Ok; [|exact check_transition_index].
  rewrite (bind_Ok _ _ _ _ _ (get_node_Ok _ _ _ Hnode)).
  erewrite bind_Ok; [|by eapply begins_with_transition_Ok].
  rewrite Hb.
  assert (Hsec : (if is_kind σ p nodes.document then mret true
                  else isinstance p nodes.section) σ = Ok true σ).
  { unfold is_kind, field. rewrite Hp. cbn.
    destruct Hkind as [Hk|Hk].
    - by rewrite bool_decide_eq_true_2 by congruence.
    - rewrite bool_decide_eq_false_2 by congruence.
      rewrite isinstance_Ok by eauto. unfold is_kind, field. rewrite Hp.
      cbn. by rewrite bool_decide_eq_true_2 by congruence. }
  erewrite bind_Ok.
  2:{ erewrite bind_Ok; [|by eapply parent_of_Ok].
      erewrite bind_Ok; [|by apply isinstance_Ok].
      erewrite bind_Ok; [|exact Hsec]. cbv beta iota.
      erewrite bind_Ok; [|apply reporter_error_Ok]. reflexivity. }
  by apply reported_insert.
Qed.

Lemma check_transition_asserts :
  begins σ l1 = true →
  kind pnd ≠ nodes.document → kind pnd ≠ nodes.section →
  check_transition node σ = Raise AssertionError.
Proof.
  intros Hb Hdoc Hsec. unfold check_transition.
  erewrite bind_Ok; [|exact check_transition_index].
  rewrite (bind_Ok _ _ _ _ _ (get_node_Ok _ _ _ Hnode)).
  erewrite bind_Ok; [|by eapply begins_with_transition_Ok].
  rewrite Hb. apply bind_Raise.
  erewrite bind_Ok; [|by eapply parent_of_Ok].
  erewrite bind_Ok; [|by apply isinstance_Ok].
  unfold is_kind at 1, field. rewrite Hp. cbn [fmap option_fmap option_map].
  rewrite bool_decide_eq_false_2 by congruence.
  erewrite bind_Ok; [|by apply isinstance_Ok].
  unfold is_kind, field. rewrite Hp. cbn [fmap option_fmap option_map].
  by rewrite bool_decide_eq_false_2 by congruence.
Qed.

Lemma check_transition_adjacent l0 prev :
  l1 = l0 ++ [prev] →
  is_kind σ prev nodes.transition = true →
  check_transition node σ
  = Ok (Z.of_nat (length l1) + 1)%Z
       (error_inserted adjacent_transitions_text (line nd) p (length l1) σ).
Proof.
  intros Hl0 Hprev. unfold check_transition.
  erewrite bind_Ok; [|exact check_transition_index].
  rewrite (bind_Ok _ _ _ _ _ (get_node_Ok _ _ _ Hnode)).
  erewrite bind_Ok; [|by eapply begins_with_transition_Ok].
  assert (Hb : begins σ l1 = false).
  { assert (Hnt : ∀ cls, cls ≠ nodes.transition → is_kind σ prev cls = false).
    { intros cls Hcls. unfold is_kind in *.
      apply bool_decide_eq_true_1 in Hprev. rewrite Hprev.
      apply bool_decide_eq_false_2. congruence. }
    subst l1. destruct l0 as [|a [|b [|c l0]]]; cbn.
    - by apply Hnt.
    - rewrite (Hnt nodes.subtitle) by done. apply andb_false_r.
    - done.
    - by destruct l0. }
  rewrite Hb.
  erewrite bind_Ok.
  2:{ erewrite bind_Ok.
      2:{ erewrite bind_Ok; [|by eapply parent_of_Ok].
          replace (Z.of_nat (length l1) - 1)%Z with (Z.of_nat (length l0))
            by (subst l1; rewrite length_app; cbn; lia).
          apply (Element_getitem_Ok _ _ _ _ prev Hp).
          rewrite Hch, Hl0, <-app_assoc. by apply list_lookup_middle. }
      erewrite bind_Ok; [|apply isinstance_Ok, Hlive; subst l1; set_solver].
      rewrite Hprev.
      erewrite bind_Ok; [|apply reporter_error_Ok]. reflexivity. }
  by apply reported_insert.
Qed.

Lemma check_transition_legal l0 prev :
  begins σ l1 = false →
  l1 = l0 ++ [prev] →
  is_kind σ prev nodes.transition = false →
  check_transition node σ = Ok (Z.of_nat (length l1)) σ.
Proof.
  intros Hb Hl0 Hprev. unfold check_transition.
  erewrite bind_Ok; [|exact check_transition_index].
  rewrite (bind_Ok _ _ _ _ _ (get_node_Ok _ _ _ Hnode)).
  erewrite bind_Ok; [|by eapply begins_with_transition_Ok].
  rewrite Hb.
  erewrite bind_Ok.
  2:{ erewrite bind_Ok.
      2:{ erewrite bind_Ok; [|by eapply parent_of_Ok].
          replace (Z.of_nat (length l1) - 1)%Z with (Z.of_nat (length l0))
            by (subst l1; rewrite length_app; cbn; lia).
          apply (Element_getitem_Ok _ _ _ _ prev Hp).
          rewrite Hch, Hl0, <-app_assoc. by apply list_lookup_middle. }
      erewrite bind_Ok; [|apply isinstance_Ok, Hlive; subst l1; set_solver].
      rewrite Hprev. reflexivity. }
  reflexivity.
Qed.

End check_transition.

Lemma error_inserted_fields σ p pnd message ln la lb :
  heap σ !! p = Some pnd →
  children pnd = la ++ lb →
  let error := fresh (dom (heap σ)) in
  let σ1 := error_inserted message ln p (length la) σ in
  heap σ !! error = None
  ∧ field kind σ1 error = Some nodes.system_message
  ∧ field (λ nd, attributes nd !! "level") σ1 error = Some (Some (VInt 3))
  ∧ field text σ1 error = Some message
  ∧ field line σ1 error = Some ln
  ∧ field parent σ1 error = Some (Some p)
  ∧ field children σ1 p = Some (la ++ error :: lb)
  ∧ transform_messages σ1 = transform_messages σ ++ [error]
  ∧ (∀ n, n ≠ p → n ≠ error → heap σ1 !! n = heap σ !! n)
  ∧ (∀ n, n ≠ error → field parent σ1 n = field parent σ n).
Proof.
  intros Hp Hch error σ1.
  destruct (error_inserted_spec σ p pnd message ln la lb Hp Hch)
    as (Hnew & Herror & Hp1 & Htm & Hframe).
  fold error in Hnew, Herror, Hp1, Htm, Hframe. fold σ1 in Herror, Hp1, Htm, Hframe.
  unfold field. rewrite Herror, Hp1.
  do 8 (split; [done|]). split; [done|].
  intros n Hn. destruct (decide (n = p)) as [->|Hnp].
  - by rewrite Hp1, Hp.
  - by rewrite Hframe.
Qed.

(** *** Whatever the visit does, the transition stays attached *)

Lemma elem_of_list_insert_at (x y : nat) i l :
  x ∈ l → x ∈ list_insert_at i y l.
Proof.
  intros Hx. unfold list_insert_at.
  rewrite <-(take_drop i l) in Hx.
  apply elem_of_app in Hx as [Hx|Hx]; apply elem_of_app; [by left|].
  right. by right.
Qed.

Lemma lookup_inserted self i item (h : gmap nat Node) n :
  inserted self i item h !! n =
  (λ nd, (if decide (self = n) then with_children (list_insert_at i item)
          else id)
           ((if decide (item = n) then with_parent (Some self) else id) nd))
  <$> h !! n.
Proof.
  unfold inserted. rewrite !lookup_alter.
  repeat case_decide; subst; try done; by destruct (h !! n).
Qed.

Lemma attached_inserted σ self i item node :
  attached σ node → item ≠ node →
  attached (with_heap (inserted self i item) σ) node.
Proof.
  intros (q & cs & Hpar & Hch & Hin) Hne.
  apply field_Some in Hpar as (nd & Hnode & Hpar).
  apply field_Some in Hch as (qnd & Hq & Hch).
  exists q, (if decide (self = q) then list_insert_at i item cs else cs).
  unfold field. cbn. rewrite !lookup_inserted, Hnode, Hq. cbn.
  rewrite (decide_False (P := item = node)) by done.
  split; [|split].
  - case_decide; cbn; by rewrite Hpar.
  - repeat case_decide; cbn; by rewrite Hch.
  - case_decide; [by apply elem_of_list_insert_at|done].
Qed.

Lemma attached_reported σ message ln node :
  attached σ node → attached (reported message ln σ) node.
Proof.
  intros (q & cs & Hpar & Hch & Hin).
  apply field_Some in Hpar as (nd & Hnode & Hpar).
  apply field_Some in Hch as (qnd & Hq & Hch).
  assert (Hfresh : heap σ !! fresh (dom (heap σ)) = None) by apply fresh_heap.
  exists q, cs. unfold field, reported. cbn.
  rewrite !lookup_insert_ne by congruence.
  rewrite Hnode, Hq. cbn. by rewrite Hpar, Hch.
Qed.

Lemma attached_newly_inserted σ self i node :
  is_Some (heap σ !! self) → is_Some (heap σ !! node) →
  attached (with_heap (inserted self i node) σ) node.
Proof.
  intros [snd Hself] [nd Hnode].
  exists self, (list_insert_at i node (children snd)).
  unfold field. cbn. rewrite !lookup_inserted, Hnode, Hself. cbn.
  rewrite !(decide_True (P := node = node)) by done.
  rewrite !(decide_True (P := self = self)) by done.
  split; [|split].
  - by case_decide.
  - by case_decide.
  - unfold list_insert_at. apply elem_of_app. right. by left.
Qed.

Lemma find_sibling_inv node fuel : ∀ x i σ r σ',
  attached σ node →
  find_sibling fuel node x i σ = Ok r σ' →
  (∃ s j, r = Some (s, j) ∧ σ' = σ) ∨ (r = None ∧ attached σ' node).
Proof.
  induction fuel as [|fuel IH]; intros x i σ r σ' Hatt H; [done|].
  cbn [find_sibling] in H.
  apply bind_inv in H as (len & σ1 & Hlen & H).
  apply bind_inv in Hlen as (a & σ2 & Ha & Hlen).
  apply parent_of_inv in Ha as [_ ->].
  apply Element_len_inv in Hlen as ->.
  destruct (i =? len - 1)%Z.
  - apply bind_inv in H as (a' & σ1 & Ha' & H).
    apply parent_of_inv in Ha' as [_ ->].
    apply bind_inv in H as (and & σ1 & Hand & H).
    apply get_node_inv in Hand as [_ ->].
    destruct (parent and) as [sp|].
    + apply bind_inv in H as (j & σ1 & Hj & H).
      apply Element_index_inv in Hj as [_ ->]. by eapply IH.
    + right.
      apply bind_inv in H as (nd & σ1 & Hnd & H).
      apply get_node_inv in Hnd as [Hnd ->].
      apply bind_inv in H as (error & σ1 & Herr & H).
      rewrite reporter_error_Ok in Herr. injection Herr as <- <-.
      apply bind_inv in H as (p & σ1 & Hp & H).
      apply parent_of_inv in Hp as [_ ->].
      apply bind_inv in H as (j & σ1 & Hj & H).
      apply Element_index_inv in Hj as [_ ->].
      apply bind_inv in H as ([] & σ1 & Hins & H).
      injection H as <- <-. split; [done|].
      apply Element_insert_inv in Hins as (_ & _ & ->).
      apply attached_inserted.
      * by apply attached_reported.
      * assert (heap σ !! fresh (dom (heap σ)) = None) by apply fresh_heap.
        congruence.
  - injection H as <- <-. eauto.
Qed.

Lemma place_transition_keeps fuel node index σ σ' :
  attached σ node →
  place_transition fuel node index σ = Ok tt σ' →
  attached σ' node.
Proof.
  intros Hatt H. unfold place_transition in H.
  apply bind_inv in H as (len & σ1 & Hlen & H).
  apply bind_inv in Hlen as (a & σ2 & Ha & Hlen).
  apply parent_of_inv in Ha as [_ ->].
  apply Element_len_inv in Hlen as ->.
  destruct (negb (index <? len)%Z); [done|].
  destruct (negb (index =? len - 1)%Z); [by injection H as <-|].
  apply bind_inv in H as (r & σ1 & Hr & H).
  apply (find_sibling_inv _ _ _ _ _ _ _ Hatt) in Hr
    as [(s & j & -> & ->)|[-> Hatt']].
  - apply bind_inv in H as ([] & σ1 & Hrm & H).
    apply bind_inv in Hrm as (p & σ2 & Hp & Hrm).
    apply parent_of_inv in Hp as [_ ->].
    apply Element_remove_inv in Hrm as (pnd & l & Hpnd & ->).
    apply bind_inv in H as (sp & σ1 & Hsp & H).
    apply parent_of_inv in Hsp as [_ ->].
    apply Element_insert_inv in H as (Hsp & Hnode & ->).
    by apply attached_newly_inserted.
  - by injection H as <-.
Qed.

(** C4, as the code has it: a transition whose parent is a document
    or a section and that comes first among its siblings, or right
    after a title, or right after a title and a subtitle, gets the
    diagnostic "Document or section may not begin with a transition."
    (level 3) inserted into its parent immediately before it; its
    index moves up by one, and the transition is kept: it is still
    a child of [p] when the second half of [visit_transition] starts,
    and a child of its parent in whatever tree the visit ends with. *)
Theorem transition_at_start fuel σ node nd p pnd l1 l2 :
  heap σ !! node = Some nd →
  parent nd = Some p →
  heap σ !! p = Some pnd →
  children pnd = l1 ++ node :: l2 →
  node ∉ l1 →
  (∀ c, c ∈ l1 → is_Some (heap σ !! c)) →
  begins σ l1 = true →
  kind pnd = nodes.document ∨ kind pnd = nodes.section →
  ∃ σ1 error,
    check_transition node σ = Ok (Z.of_nat (length l1) + 1)%Z σ1
    ∧ visit_transition fuel node σ
      = place_transition fuel node (Z.of_nat (length l1) + 1)%Z σ1
    ∧ heap σ !! error = None
    ∧ field kind σ1 error = Some nodes.system_message
    ∧ field (λ nd, attributes nd !! "level") σ1 error = Some (Some (VInt 3))
    ∧ field text σ1 error
      = Some "Document or section may not begin with a transition."
    ∧ field line σ1 error = Some (line nd)
    ∧ field parent σ1 error = Some (Some p)
    ∧ field children σ1 p = Some (l1 ++ error :: node :: l2)
    ∧ transform_messages σ1 = transform_messages σ ++ [error]
    ∧ field parent σ1 node = Some (Some p)
    ∧ (∀ σ', visit_transition fuel node σ = Ok tt σ' → attached σ' node).
Proof.
  intros Hnode Hpar Hp Hch Hl1 Hlive Hb Hkind.
  assert (Hcheck := check_transition_begins σ node p nd pnd l1 l2
                      Hnode Hpar Hp Hch Hl1 Hlive Hb Hkind).
  destruct (error_inserted_fields σ p pnd begin_with_transition_text (line nd)
              l1 (node :: l2) Hp Hch)
    as (Hnew & Hk & Hlv & Htx & Hln & Hpa & Hcs & Htm & _ & Hframe).
  assert (Hvisit : visit_transition fuel node σ
    = place_transition fuel node (Z.of_nat (length l1) + 1)%Z
        (error_inserted begin_with_transition_text (line nd) p (length l1) σ)).
  { unfold visit_transition. by erewrite bind_Ok. }
  assert (Hnp : field parent
      (error_inserted begin_with_transition_text (line nd) p (length l1) σ)
      node = Some (Some p)).
  { rewrite Hframe by congruence. apply field_Some. eauto. }
  eexists _, _. split; [exact Hcheck|].
  split; [exact Hvisit|].
  do 8 (split; [done|]).
  split; [exact Hnp|].
  intros σ' Hrun. rewrite Hvisit in Hrun.
  eapply place_transition_keeps; [|exact Hrun].
  eexists _, _. split; [exact Hnp|]. split; [exact Hcs|].
  apply elem_of_app. right. right. by left.
Qed.

Lemma transition_at_start_witness :
  ∃ σ1, check_transition 4 transition_doc = Ok 2%Z σ1
        ∧ field children σ1 1 = Some [3; 12; 4; 5; 10].
Proof.
  destruct (transition_at_start 0 transition_doc 4
              (mkNode nodes.transition [] (Some 1) ∅ false false EmptyString EmptyString
                 (Some 7%Z))
              1
              (mkNode nodes.section [3; 4; 5; 10] (Some 0) ∅
                 false false EmptyString EmptyString None)
              [3] [5; 10])
    as (σ1 & error & Hcheck & _).
  - reflexivity.
  - reflexivity.
  - reflexivity.
  - reflexivity.
  - intros Hin. apply list_elem_of_singleton in Hin. discriminate.
  - intros c Hc. apply list_elem_of_singleton in Hc as ->. by eexists.
  - reflexivity.
  - by right.
  - exists σ1. split; [exact Hcheck|].
    vm_compute in Hcheck. injection Hcheck as <-. by vm_compute.
Defined.

(** C4, as stated, fails: the transition [2] is the first child of a
    block quote; the visit stops at the assertion on the parent's
    class and inserts nothing. *)
Lemma transition_at_start_of_block_quote :
  field children quoted_transition_doc 1 = Some [2; 3]
  ∧ field kind quoted_transition_doc 2 = Some nodes.transition
  ∧ visit_transition 4 2 quoted_transition_doc = Raise AssertionError.
Proof. by vm_compute. Qed.

(** C5: a transition whose immediately preceding sibling is a
    transition gets the "adjacent transitions" diagnostic (level 3)
    inserted into its parent immediately before it, and its index
    moves up by one. *)
Theorem transition_after_transition fuel σ node nd p pnd l0 prev l2 :
  heap σ !! node = Some nd →
  parent nd = Some p →
  heap σ !! p = Some pnd →
  children pnd = l0 ++ prev :: node :: l2 →
  node ∉ l0 ++ [prev] →
  (∀ c, c ∈ l0 ++ [prev] → is_Some (heap σ !! c)) →
  field kind σ prev = Some nodes.transition →
  ∃ σ1 error,
    check_transition node σ = Ok (Z.of_nat (length l0 + 1) + 1)%Z σ1
    ∧ visit_transition fuel node σ
      = place_transition fuel node (Z.of_nat (length l0 + 1) + 1)%Z σ1
    ∧ heap σ !! error = None
    ∧ field kind σ1 error = Some nodes.system_message
    ∧ field (λ nd, attributes nd !! "level") σ1 error = Some (Some (VInt 3))
    ∧ field text σ1 error
      = Some ("At least one body element must separate transitions; "
              +:+ "adjacent transitions are not allowed.")
    ∧ field line σ1 error = Some (line nd)
    ∧ field parent σ1 error = Some (Some p)
    ∧ field children σ1 p = Some (l0 ++ prev :: error :: node :: l2)
    ∧ transform_messages σ1 = transform_messages σ ++ [error]
    ∧ field parent σ1 node = Some (Some p).
Proof.
  intros Hnode Hpar Hp Hch Hl1 Hlive Hprev.
  assert (Hch' : children pnd = (l0 ++ [prev]) ++ node :: l2).
  { by rewrite <-app_assoc. }
  assert (Hcheck := check_transition_adjacent σ node p nd pnd (l0 ++ [prev]) l2
                      Hnode Hpar Hp Hch' Hl1 Hlive l0 prev eq_refl).
  rewrite length_app in Hcheck. cbn [length] in Hcheck.
  destruct (error_inserted_fields σ p pnd adjacent_transitions_text (line nd)
              (l0 ++ [prev]) (node :: l2) Hp Hch')
    as (Hnew & Hk & Hlv & Htx & Hln & Hpa & Hcs & Htm & _ & Hframe).
  rewrite length_app in Hk, Hlv, Htx, Hln, Hpa, Hcs, Htm, Hframe.
  cbn [length] in Hk, Hlv, Htx, Hln, Hpa, Hcs, Htm, Hframe.
  rewrite <-app_assoc in Hcs.
  eexists _, _. split.
  { apply Hcheck. unfold is_kind. by apply bool_decide_eq_true_2. }
  split. { unfold visit_transition. erewrite bind_Ok; [done|].
           apply Hcheck. unfold is_kind. by apply bool_decide_eq_true_2. }
  do 8 (split; [done|]).
  rewrite Hframe by congruence. unfold field. rewrite Hnode. cbn. by rewrite Hpar.
Qed.

Lemma transition_after_transition_witness :
  ∃ σ1, check_transition 8 transition_doc = Ok 3%Z σ1
        ∧ field children σ1 2 = Some [6; 7; 12; 8; 9; 11].
Proof.
  destruct (transition_after_transition 0 transition_doc 8
              (mkNode nodes.transition [] (Some 2) ∅ false false EmptyString EmptyString None)
              2
              (mkNode nodes.section [6; 7; 8; 9; 11] (Some 0) ∅
                 false false EmptyString EmptyString None)
              [6] 7 [9; 11])
    as (σ1 & error & Hcheck & _).
  - reflexivity.
  - reflexivity.
  - reflexivity.
  - reflexivity.
  - intros Hin. cbn in Hin.
    apply elem_of_cons in Hin as [Hin|Hin]; [discriminate|].
    apply list_elem_of_singleton in Hin. discriminate.
  - intros c Hc. cbn in Hc.
    apply elem_of_cons in Hc as [->|Hc]; [by eexists|].
    apply list_elem_of_singleton in Hc as ->. by eexists.
  - reflexivity.
  - exists σ1. split; [exact Hcheck|].
    vm_compute in Hcheck. injection Hcheck as <-. by vm_compute.
Defined.

Lemma last_cons_default {A} (a b : A) l :
  default a (last (b :: l)) = default b (last l).
Proof.
  revert a b. induction l as [|c l IH]; intros a b; [done|].
  change (default a (last (c :: l)) = default b (last (c :: l))).
  by rewrite (IH a c), (IH b c).
Qed.

Section find_sibling.

Context (σ : State) (node : nat).

Lemma find_sibling_stops fuel x a xnd and l1 l2 :
  heap σ !! x = Some xnd → parent xnd = Some a →
  heap σ !! a = Some and → children and = l1 ++ x :: l2 → l2 ≠ [] →
  find_sibling (S fuel) node x (Z.of_nat (length l1)) σ
  = Ok (Some (x, Z.of_nat (length l1))) σ.
Proof.
  intros Hx Hpar Ha Hch Hl2. cbn [find_sibling].
  erewrite bind_Ok.
  2:{ erewrite bind_Ok; [|by eapply parent_of_Ok]. by apply Element_len_Ok. }
  rewrite Hch, length_app. cbn [length].
  destruct (Z.eqb_spec (Z.of_nat (length l1))
              (Z.of_nat (length l1 + S (length l2)) - 1)) as [Heq|_];
    [|done].
  destruct l2; [done|]. cbn [length] in Heq. lia.
Qed.

Lemma find_sibling_moves rest : ∀ x a cs fuel top tnd q qnd m1 m2,
  last_child σ x a →
  climbs σ a rest →
  field children σ a = Some cs →
  default a (last rest) = top →
  heap σ !! top = Some tnd → parent tnd = Some q →
  heap σ !! q = Some qnd → children qnd = m1 ++ top :: m2 →
  top ∉ m1 → m2 ≠ [] →
  length rest + 1 < fuel →
  find_sibling fuel node x (Z.of_nat (length cs) - 1) σ
  = Ok (Some (top, Z.of_nat (length m1))) σ.
Proof.
  induction rest as [|a' rest IH];
    intros x a cs fuel top tnd q qnd m1 m2
      (xnd & and & l & Hx & Hxa & Ha & Hach & Hxl) Hclimb Hcs Htop
      Ht Htq Hq Hqch Htm1 Hm2 Hfuel.
  all: destruct fuel as [|fuel]; [lia|].
  all: apply field_Some in Hcs as (and' & Ha' & <-).
  all: rewrite Ha in Ha'; injection Ha' as <-.
  all: cbn [find_sibling].
  all: erewrite bind_Ok;
    [|erewrite bind_Ok; [|by eapply parent_of_Ok]; by apply Element_len_Ok].
  all: rewrite Z.eqb_refl.
  all: erewrite bind_Ok; [|by eapply parent_of_Ok].
  all: rewrite (bind_Ok _ _ _ _ _ (get_node_Ok _ _ _ Ha)).
  - cbn in Htop. subst top. rewrite Ha in Ht. injection Ht as <-.
    rewrite Htq.
    erewrite bind_Ok; [|by eapply Element_index_Ok].
    destruct fuel as [|fuel]; [cbn in Hfuel; lia|].
    by eapply find_sibling_stops.
  - destruct Hclimb as [Hlast Hclimb].
    pose proof Hlast as (and2 & a'nd & l' & Ha2 & Haa' & Ha'nd & Ha'ch & Hal').
    rewrite Ha in Ha2. injection Ha2 as <-. rewrite Haa'.
    erewrite bind_Ok; [|by eapply Element_index_Ok].
    rewrite last_cons_default in Htop.
    replace (Z.of_nat (length l')) with (Z.of_nat (length (l' ++ [a])) - 1)%Z
      by (rewrite length_app; cbn; lia).
    eapply (IH a a'); try done.
    + apply field_Some. eauto.
    + cbn in Hfuel. lia.
Qed.

Context (nd pnd : Node) (p : nat) (l1 : list nat).
Hypothesis Hnode : heap σ !! node = Some nd.
Hypothesis Hpar : parent nd = Some p.
Hypothesis Hp : heap σ !! p = Some pnd.
Hypothesis Hch : children pnd = l1 ++ [node].
Hypothesis Hl1 : node ∉ l1.

Lemma report_end_of_document :
  (nd ← get_node node;
   error ← reporter_error "Document may not end with a transition." (line nd);
   p ← parent_of node;
   i ← Element_index p node;
   Element_insert p (i + 1) error;;
   mret None) σ
  = Ok (@None (nat * Z))
       (error_inserted end_with_transition_text (line nd) p (length l1 + 1) σ).
Proof.
  assert (Her : heap σ !! fresh (dom (heap σ)) = None) by apply fresh_heap.
  assert (fresh (dom (heap σ)) ≠ node) by congruence.
  assert (fresh (dom (heap σ)) ≠ p) by congruence.
  rewrite (bind_Ok _ _ _ _ _ (get_node_Ok _ _ _ Hnode)).
  erewrite bind_Ok; [|apply reporter_error_Ok].
  erewrite bind_Ok;
    [|eapply parent_of_Ok; [|exact Hpar]; cbn; by rewrite lookup_insert_ne].
  erewrite bind_Ok;
    [|eapply Element_index_Ok; [|exact Hch|exact Hl1]; cbn;
      by rewrite lookup_insert_ne].
  replace (Z.of_nat (length l1) + 1)%Z with (Z.of_nat (length l1 + 1)) by lia.
  erewrite bind_Ok; [reflexivity|].
  apply Element_insert_Ok; cbn.
  - rewrite lookup_insert_ne by done. eauto.
  - by rewrite lookup_insert_eq.
Qed.

Lemma find_sibling_ends rest : ∀ x a cs fuel top tnd,
  last_child σ x a →
  climbs σ a rest →
  field children σ a = Some cs →
  default a (last rest) = top →
  heap σ !! top = Some tnd → parent tnd = None →
  length rest < fuel →
  find_sibling fuel node x (Z.of_nat (length cs) - 1) σ
  = Ok None
       (error_inserted end_with_transition_text (line nd) p (length l1 + 1) σ).
Proof.
  induction rest as [|a' rest IH];
    intros x a cs fuel top tnd
      (xnd & and & l & Hx & Hxa & Ha & Hach & Hxl) Hclimb Hcs Htop
      Ht Htq Hfuel.
  all: destruct fuel as [|fuel]; [lia|].
  all: apply field_Some in Hcs as (and' & Ha' & <-).
  all: rewrite Ha in Ha'; injection Ha' as <-.
  all: cbn [find_sibling].
  all: erewrite bind_Ok;
    [|erewrite bind_Ok; [|by eapply parent_of_Ok]; by apply Element_len_Ok].
  all: rewrite Z.eqb_refl.
  all: erewrite bind_Ok; [|by eapply parent_of_Ok].
  all: rewrite (bind_Ok _ _ _ _ _ (get_node_Ok _ _ _ Ha)).
  - cbn in Htop. subst top. rewrite Ha in Ht. injection Ht as <-.
    rewrite Htq. apply report_end_of_document.
  - destruct Hclimb as [Hlast Hclimb].
    pose proof Hlast as (and2 & a'nd & l' & Ha2 & Haa' & Ha'nd & Ha'ch & Hal').
    rewrite Ha in Ha2. injection Ha2 as <-. rewrite Haa'.
    erewrite bind_Ok; [|by eapply Element_index_Ok].
    rewrite last_cons_default in Htop.
    replace (Z.of_nat (length l')) with (Z.of_nat (length (l' ++ [a])) - 1)%Z
      by (rewrite length_app; cbn; lia).
    eapply (IH a a'); try done.
    + apply field_Some. eauto.
    + cbn in Hfuel. lia.
Qed.

End find_sibling.

Section place_transition.

Context (σ : State) (node p : nat) (nd pnd : Node) (l1 : list nat).
Hypothesis Hnode : heap σ !! node = Some nd.
Hypothesis Hpar : parent nd = Some p.
Hypothesis Hp : heap σ !! p = Some pnd.
Hypothesis Hl1 : node ∉ l1.

Lemma place_transition_stays fuel l2 :
  children pnd = l1 ++ node :: l2 → l2 ≠ [] →
  place_transition fuel node (Z.of_nat (length l1)) σ = Ok tt σ.
Proof.
  intros Hch Hl2. unfold place_transition.
  erewrite bind_Ok.
  2:{ erewrite bind_Ok; [|by eapply parent_of_Ok]. by apply Element_len_Ok. }
  rewrite Hch, length_app. cbn [length].
  destruct (Z.ltb_spec (Z.of_nat (length l1))
              (Z.of_nat (length l1 + S (length l2)))) as [_|?]; [|lia].
  cbn [negb].
  destruct (Z.eqb_spec (Z.of_nat (length l1))
              (Z.of_nat (length l1 + S (length l2)) - 1)) as [Heq|_];
    [|done].
  destruct l2; [done|]. cbn [length] in Heq. lia.
Qed.

Hypothesis Hch : children pnd = l1 ++ [node].

Lemma place_transition_last fuel :
  place_transition fuel node (Z.of_nat (length l1)) σ
  = (r ← find_sibling fuel node node (Z.of_nat (length l1));
     match r : option (nat * Z) with
     | None => mret tt
     | Some (sibling, index) =>
         parent_of node ≫= (λ p, Element_remove p node);;
         sp ← parent_of sibling;
         Element_insert sp (index + 1) node
     end) σ.
Proof.
  unfold place_transition.
  erewrite bind_Ok.
  2:{ erewrite bind_Ok; [|by eapply parent_of_Ok]. by apply Element_len_Ok. }
  rewrite Hch, length_app. cbn [length].
  destruct (Z.ltb_spec (Z.of_nat (length l1))
              (Z.of_nat (length l1 + 1))) as [_|?]; [|lia].
  cbn [negb].
  destruct (Z.eqb_spec (Z.of_nat (length l1))
              (Z.of_nat (length l1 + 1) - 1)) as [_|?]; [done|lia].
Qed.

Lemma node_last_child : last_child σ node p.
Proof. by exists nd, pnd, l1. Qed.

Lemma place_transition_ends fuel rest top :
  climbs σ p rest →
  default p (last rest) = top →
  field parent σ top = Some None →
  length rest < fuel →
  place_transition fuel node (Z.of_nat (length l1)) σ
  = Ok tt
       (error_inserted end_with_transition_text (line nd) p (length l1 + 1) σ).
Proof.
  intros Hclimb Htop Hroot Hfuel.
  apply field_Some in Hroot as (tnd & Ht & Htpar).
  rewrite place_transition_last.
  erewrite bind_Ok.
  2:{ replace (Z.of_nat (length l1))
        with (Z.of_nat (length (l1 ++ [node])) - 1)%Z
        by (rewrite length_app; cbn; lia).
      eapply (find_sibling_ends σ node nd pnd p l1 Hnode Hpar Hp Hch Hl1 rest
                node p); try done.
      - apply node_last_child.
      - apply field_Some. eauto. }
  reflexivity.
Qed.

Lemma place_transition_moves fuel rest top q m1 m2 :
  climbs σ p rest →
  default p (last rest) = top →
  field parent σ top = Some (Some q) →
  field children σ q = Some (m1 ++ top :: m2) →
  top ∉ m1 → m2 ≠ [] →
  length rest + 1 < fuel →
  place_transition fuel node (Z.of_nat (length l1)) σ
  = Ok tt (with_heap (moved p l1 q (length m1 + 1) node) σ).
Proof.
  intros Hclimb Htop Htq Hqch Htm1 Hm2 Hfuel.
  apply field_Some in Htq as (tnd & Ht & Htpar).
  apply field_Some in Hqch as (qnd & Hq & Hqch).
  rewrite place_transition_last.
  erewrite bind_Ok.
  2:{ replace (Z.of_nat (length l1))
        with (Z.of_nat (length (l1 ++ [node])) - 1)%Z
        by (rewrite length_app; cbn; lia).
      eapply (find_sibling_moves σ node rest node p); try done.
      - apply node_last_child.
      - apply field_Some. eauto. }
  cbv beta iota.
  erewrite bind_Ok.
  2:{ erewrite bind_Ok; [|by eapply parent_of_Ok].
      by eapply Element_remove_Ok. }
  rewrite app_nil_r.
  assert (Halter : <[p := with_children (λ _, l1) pnd]> (heap σ)
                   = alter (with_children (λ _, l1)) p (heap σ)).
  { apply map_eq. intros k. rewrite lookup_alter, lookup_insert.
    case_decide; [|done]. subst. by rewrite Hp. }
  assert (Hpar_alter : ∀ k knd, heap σ !! k = Some knd →
            ∃ knd', alter (with_children (λ _, l1)) p (heap σ) !! k = Some knd'
                    ∧ parent knd' = parent knd).
  { intros k knd Hk. rewrite lookup_alter. case_decide.
    - subst k. rewrite Hk. cbn. eauto.
    - eauto. }
  destruct (Hpar_alter top tnd Ht) as (tnd' & Ht' & Htpar').
  erewrite bind_Ok.
  2:{ eapply parent_of_Ok; [cbn; rewrite Halter; exact Ht'|].
      rewrite Htpar', Htpar. reflexivity. }
  replace (Z.of_nat (length m1) + 1)%Z with (Z.of_nat (length m1 + 1)) by lia.
  rewrite Element_insert_Ok.
  - unfold with_heap, moved. cbn. by rewrite Halter.
  - cbn. rewrite Halter, lookup_alter_is_Some. eauto.
  - cbn. rewrite Halter, lookup_alter_is_Some. eauto.
Qed.

Lemma moved_fields q m1 top m2 :
  field children σ q = Some (m1 ++ top :: m2) →
  q ≠ p →
  let σ' := with_heap (moved p l1 q (length m1 + 1) node) σ in
  field children σ' p = Some l1
  ∧ field children σ' q = Some (m1 ++ top :: node :: m2)
  ∧ field parent σ' node = Some (Some q)
  ∧ transform_messages σ' = transform_messages σ
  ∧ (∀ n, n ≠ p → n ≠ q → n ≠ node → heap σ' !! n = heap σ !! n).
Proof.
  intros Hqch Hqp σ'. apply field_Some in Hqch as (qnd & Hq & Hqch).
  unfold σ', field, moved, inserted. cbn.
  split.
  { rewrite lookup_alter_ne by done. rewrite lookup_alter.
    destruct (decide (node = p)) as [->|?].
    - by rewrite lookup_alter_eq, Hp.
    - by rewrite lookup_alter_eq, Hp. }
  split.
  { rewrite lookup_alter_eq, lookup_alter.
    assert (Hins : list_insert_at (length m1 + 1) node (m1 ++ top :: m2)
                   = m1 ++ top :: node :: m2).
    { replace (length m1 + 1) with (length (m1 ++ [top]))
        by (rewrite length_app; cbn; lia).
      replace (m1 ++ top :: m2) with ((m1 ++ [top]) ++ m2)
        by (by rewrite <-app_assoc).
      rewrite list_insert_at_middle. by rewrite <-app_assoc. }
    case_decide.
    - subst. rewrite lookup_alter_ne, Hq by done. cbn.
      by rewrite Hqch, Hins.
    - rewrite lookup_alter_ne, Hq by done. cbn. by rewrite Hqch, Hins. }
  split.
  { rewrite lookup_alter. case_decide.
    - subst. rewrite lookup_alter_eq, lookup_alter_ne, Hq by done. done.
    - rewrite lookup_alter_eq, lookup_alter.
      case_decide; subst; by rewrite ?Hp, ?Hnode. }
  split; [done|].
  intros n ???. by rewrite !lookup_alter_ne by done.
Qed.

End place_transition.

(** C3: let [σ] be the tree the legality checks leave, in which the
    transition sits in its parent [p] after the siblings [l1] and
    before [l2].  If [l2] is not empty the visit changes nothing more.
    If it is empty, go up from [p] while the current node is the last
    child of its parent, through the nodes [rest], to [top].  When
    [top] has a parent [q] in which it is not the last child, the
    transition leaves [p] and becomes the sibling right after [top]
    in [q]; when [top] has no parent, the transition stays and the
    diagnostic "Document may not end with a transition." is inserted
    right after it. *)
Theorem transition_placement fuel σ0 σ node p l1 l2 :
  check_transition node σ0 = Ok (Z.of_nat (length l1)) σ →
  field parent σ node = Some (Some p) →
  field children σ p = Some (l1 ++ node :: l2) →
  node ∉ l1 →
  (l2 ≠ [] → visit_transition fuel node σ0 = Ok tt σ)
  ∧ (l2 = [] → ∀ rest top q m1 m2,
       climbs σ p rest →
       default p (last rest) = top →
       field parent σ top = Some (Some q) →
       field children σ q = Some (m1 ++ top :: m2) →
       top ∉ m1 → m2 ≠ [] →
       q ≠ p →
       length rest + 1 < fuel →
       ∃ σ',
         visit_transition fuel node σ0 = Ok tt σ'
         ∧ field children σ' p = Some l1
         ∧ field children σ' q = Some (m1 ++ top :: node :: m2)
         ∧ field parent σ' node = Some (Some q)
         ∧ transform_messages σ' = transform_messages σ
         ∧ (∀ n, n ≠ p → n ≠ q → n ≠ node → heap σ' !! n = heap σ !! n))
  ∧ (l2 = [] → ∀ rest top,
       climbs σ p rest →
       default p (last rest) = top →
       field parent σ top = Some None →
       length rest + 1 < fuel →
       ∃ σ' error,
         visit_transition fuel node σ0 = Ok tt σ'
         ∧ heap σ !! error = None
         ∧ field kind σ' error = Some nodes.system_message
         ∧ field (λ nd, attributes nd !! "level") σ' error
           = Some (Some (VInt 3))
         ∧ field text σ' error
           = Some "Document may not end with a transition."
         ∧ field parent σ' error = Some (Some p)
         ∧ field children σ' p = Some (l1 ++ [node; error])
         ∧ field parent σ' node = Some (Some p)
         ∧ transform_messages σ' = transform_messages σ ++ [error]
         ∧ (∀ n, n ≠ p → n ≠ error → heap σ' !! n = heap σ !! n)).
Proof.
  intros Hcheck Hpar Hch Hl1.
  apply field_Some in Hpar as (nd & Hnode & Hpar).
  apply field_Some in Hch as (pnd & Hp & Hch).
  assert (Hvisit : visit_transition fuel node σ0
                   = place_transition fuel node (Z.of_nat (length l1)) σ).
  { unfold visit_transition. by erewrite bind_Ok. }
  rewrite Hvisit. split; [|split].
  - intros Hl2. by eapply place_transition_stays.
  - intros -> rest top q m1 m2 Hclimb Htop Htq Hqch Htm1 Hm2 Hqp Hfuel.
    eexists. split.
    { by eapply place_transition_moves. }
    by eapply moved_fields.
  - intros -> rest top Hclimb Htop Hroot Hfuel.
    assert (Hch' : children pnd = (l1 ++ [node]) ++ []).
    { by rewrite app_nil_r. }
    destruct (error_inserted_fields σ p pnd end_with_transition_text (line nd)
                (l1 ++ [node]) [] Hp Hch')
      as (Hnew & Hk & Hlv & Htx & Hln & Hpa & Hcs & Htm & Hframe & Hparents).
    rewrite length_app in Hk, Hlv, Htx, Hln, Hpa, Hcs, Htm, Hframe, Hparents.
    cbn [length] in Hk, Hlv, Htx, Hln, Hpa, Hcs, Htm, Hframe, Hparents.
    rewrite <-app_assoc in Hcs.
    eexists _, _. split.
    { eapply place_transition_ends; try done. lia. }
    do 6 (split; [done|]).
    split.
    { rewrite Hparents by congruence. apply field_Some. eauto. }
    done.
Qed.

Lemma transition_placement_witness :
  ∃ σ', visit_transition 2 10 transition_doc = Ok tt σ'
        ∧ field children σ' 1 = Some [3; 4; 5]
        ∧ field children σ' 0 = Some [1; 10; 2].
Proof.
  destruct (transition_placement 2 transition_doc transition_doc 10 1
              [3; 4; 5] []) as (_ & Hmove & _).
  - by vm_compute.
  - reflexivity.
  - reflexivity.
  - intros Hin.
    apply elem_of_cons in Hin as [Hin|Hin]; [discriminate|].
    apply elem_of_cons in Hin as [Hin|Hin]; [discriminate|].
    apply list_elem_of_singleton in Hin. discriminate.
  - destruct (Hmove eq_refl [] 1 0 [] [2]) as (σ' & Hrun & Hp & Hq & _).
    + exact I.
    + reflexivity.
    + reflexivity.
    + reflexivity.
    + apply not_elem_of_nil.
    + discriminate.
    + discriminate.
    + cbn. lia.
    + exists σ'. by repeat split.
Defined.

(** ** FilterMessages *)

Lemma filter_ext_elem {A} (P Q : A → Prop)
    `{!∀ x, Decision (P x), !∀ x, Decision (Q x)} (l : list A) :
  (∀ x, x ∈ l → P x ↔ Q x) → filter P l = filter Q l.
Proof.
  induction l as [|x l IH]; intros Hext; [done|].
  rewrite !filter_cons.
  rewrite IH by (intros y Hy; apply Hext; by right).
  destruct (decide (P x)) as [HP|HP], (decide (Q x)) as [HQ|HQ];
    try done; exfalso; apply (Hext x) in HP || apply (Hext x) in HQ;
    try done; by left.
Qed.

Lemma filter_all {A} (P : A → Prop) `{!∀ x, Decision (P x)} (l : list A) :
  (∀ x, x ∈ l → P x) → filter P l = l.
Proof.
  induction l as [|x l IH]; intros Hall; [done|].
  rewrite filter_cons_True by (apply Hall; by left).
  f_equal. apply IH. intros y Hy. apply Hall. by right.
Qed.

Lemma list_remove_NoDup n l :
  NoDup l → n ∈ l → list_remove n l = Some (filter (λ c, c ≠ n) l).
Proof.
  induction l as [|x l IH]; intros Hnd Hin; [by apply elem_of_nil in Hin|].
  apply NoDup_cons in Hnd as [Hx Hnd]. cbn [list_remove].
  case_decide as Hnx.
  - subst x. rewrite filter_cons_False by naive_solver.
    rewrite filter_all; [done|]. intros y Hy ->. done.
  - apply elem_of_cons in Hin as [?|Hin]; [done|].
    rewrite IH by done.
    by rewrite filter_cons_True by naive_solver.
Qed.

Lemma lookup_filtered σ seen k :
  heap (filtered σ seen) !! k
  = with_children (filter (λ c, ¬ struck σ seen k c)) <$> heap σ !! k.
Proof.
  unfold filtered. cbn. rewrite map_lookup_imap.
  by destruct (heap σ !! k).
Qed.

Lemma filtered_ext σ seen1 seen2 :
  (∀ k nd c, heap σ !! k = Some nd → c ∈ children nd →
             struck σ seen1 k c ↔ struck σ seen2 k c) →
  filtered σ seen1 = filtered σ seen2.
Proof.
  intros Hext. unfold filtered, with_heap. f_equal.
  apply map_eq. intros k. rewrite !map_lookup_imap.
  destruct (heap σ !! k) as [nd|] eqn:Hk; [|done]. cbn.
  unfold with_children. do 2 f_equal.
  apply filter_ext_elem. intros c Hc.
  by rewrite (Hext k nd c Hk Hc).
Qed.

Lemma filtered_nil σ : filtered σ [] = σ.
Proof.
  unfold filtered, with_heap. destruct σ as [h d nm i tm rl]. cbn. f_equal.
  apply map_eq. intros k. rewrite map_lookup_imap.
  destruct (h !! k) as [[]|]; [|done]. cbn. unfold with_children. cbn.
  do 2 f_equal. apply filter_all. intros c _ (Hin & _).
  by apply elem_of_nil in Hin.
Qed.

Lemma field_filtered {A} (f : Node → A) σ seen k :
  (∀ g nd, f (with_children g nd) = f nd) →
  field f (filtered σ seen) k = field f σ k.
Proof.
  intros Hf. unfold field. rewrite lookup_filtered.
  destruct (heap σ !! k); cbn; [|done]. by rewrite Hf.
Qed.

Lemma struck_snoc σ seen n k c :
  struck σ (seen ++ [n]) k c ↔
  struck σ seen k c
  ∨ (c = n ∧ removable σ n ∧ field parent σ n = Some (Some k)).
Proof.
  unfold struck. rewrite elem_of_app, list_elem_of_singleton. naive_solver.
Qed.

Lemma filtered_kept σ seen n :
  removable σ n = false → filtered σ (seen ++ [n]) = filtered σ seen.
Proof.
  intros Hrem. apply filtered_ext. intros k nd c _ _.
  rewrite struck_snoc. rewrite Hrem. naive_solver.
Qed.

Lemma Element_remove_filtered σ seen n p pnd :
  removable σ n = true →
  field parent σ n = Some (Some p) →
  heap σ !! p = Some pnd →
  n ∈ children pnd → NoDup (children pnd) →
  n ∉ seen →
  Element_remove p n (filtered σ seen) = Ok tt (filtered σ (seen ++ [n])).
Proof.
  intros Hrem Hpar Hp Hin Hnd Hseen. unfold Element_remove.
  erewrite bind_Ok; [|apply get_node_Ok; by rewrite lookup_filtered, Hp].
  cbn [children with_children].
  rewrite list_remove_NoDup.
  - cbn [from_option]. erewrite bind_Ok; [|reflexivity].
    unfold modify. f_equal.
    unfold filtered, with_heap. cbn. f_equal.
    apply map_eq. intros k. rewrite lookup_insert, !map_lookup_imap.
    case_decide as Hk.
    + subst k. rewrite Hp. cbn. unfold with_children. cbn. do 2 f_equal.
      rewrite list_filter_filter. apply filter_ext_elem. intros c Hc.
      rewrite struck_snoc. rewrite Hrem, Hpar. naive_solver.
    + destruct (heap σ !! k) as [knd|]; [|done]. cbn.
      unfold with_children. do 2 f_equal.
      apply filter_ext_elem. intros c Hc.
      rewrite struck_snoc. rewrite Hpar. naive_solver.
  - by apply NoDup_filter.
  - apply list_elem_of_filter. split; [|done].
    intros (? & _). done.
Qed.

Lemma visit_filtered σ seen n nd :
  heap σ !! n = Some nd →
  (kind nd = nodes.system_message →
   ∃ level, attributes nd !! "level" = Some (VInt level)) →
  (removable σ n = true →
   ∃ p pnd, parent nd = Some p ∧ heap σ !! p = Some pnd
            ∧ n ∈ children pnd ∧ NoDup (children pnd)) →
  n ∉ seen →
  SystemMessageFilterVisitor n (filtered σ seen)
  = Ok tt (filtered σ (seen ++ [n])).
Proof.
  intros Hn Hlevel Hattached Hseen. unfold SystemMessageFilterVisitor.
  assert (Hn' : heap (filtered σ seen) !! n
                = Some (with_children (filter (λ c, ¬ struck σ seen n c)) nd)).
  { by rewrite lookup_filtered, Hn. }
  rewrite (bind_Ok _ _ _ _ _ (get_node_Ok _ _ _ Hn')).
  cbn [kind with_children].
  destruct (decide (kind nd = nodes.system_message)) as [Hk|Hk].
  - rewrite Hk. destruct (Hlevel Hk) as [level Hlv].
    unfold visit_system_message.
    erewrite bind_Ok; [|by eapply getitem_int_Ok].
    erewrite bind_Ok; [|reflexivity].
    change (report_level (filtered σ seen)) with (report_level σ).
    assert (Hrem : removable σ n = (level <? report_level σ)%Z).
    { unfold removable. rewrite Hn, Hlv.
      by rewrite bool_decide_eq_true_2. }
    destruct (level <? report_level σ)%Z.
    + destruct (Hattached Hrem) as (p & pnd & Hpar & Hp & Hin & Hnd).
      erewrite bind_Ok; [|by eapply parent_of_Ok].
      apply (Element_remove_filtered σ seen n p pnd); try done.
      apply field_Some. eauto.
    + by rewrite filtered_kept.
  - rewrite filtered_kept.
    + by destruct (kind nd).
    + unfold removable. rewrite Hn.
      by rewrite bool_decide_eq_false_2.
Qed.

Lemma height_child c cs :
  c ∈ cs → (height c ≤ foldr (λ c h, height c `max` h) 0 cs)%nat.
Proof.
  induction cs as [|d cs IH]; intros Hin; [by apply elem_of_nil in Hin|].
  cbn [foldr]. apply elem_of_cons in Hin as [->|Hin]; [lia|].
  specialize (IH Hin). lia.
Qed.

Lemma root_in_nodes t : shape_root t ∈ nodes_of t.
Proof. destruct t. by left. Qed.

Lemma nodes_of_child c cs x :
  c ∈ cs → x ∈ nodes_of c → x ∈ flat_map nodes_of cs.
Proof.
  intros Hc Hx. apply list_elem_of_In, in_flat_map.
  exists c. by rewrite <-!list_elem_of_In.
Qed.

Lemma NoDup_roots cs :
  NoDup (flat_map nodes_of cs) → NoDup (map shape_root cs).
Proof.
  induction cs as [|c cs IH]; intros Hnd; [constructor|].
  cbn [flat_map] in Hnd. apply NoDup_app in Hnd as (Hc & Hdisj & Hcs).
  cbn [map]. apply NoDup_cons. split; [|by apply IH].
  intros Hin. apply list_elem_of_fmap in Hin as (d & Hroot & Hd).
  apply (Hdisj (shape_root c)); [apply root_in_nodes|].
  rewrite Hroot. eapply nodes_of_child; [exact Hd|apply root_in_nodes].
Qed.

Lemma walk_filtered σ fuel : ∀ t par seen,
  is_tree σ par t →
  NoDup (nodes_of t) →
  (∀ x, x ∈ nodes_of t → x ∉ seen) →
  (∀ m nd, m ∈ nodes_of t → heap σ !! m = Some nd →
           kind nd = nodes.system_message →
           ∃ level, attributes nd !! "level" = Some (VInt level)) →
  (removable σ (shape_root t) = true →
   ∃ p pnd, par = Some p ∧ heap σ !! p = Some pnd
            ∧ shape_root t ∈ children pnd ∧ NoDup (children pnd)) →
  (height t ≤ fuel)%nat →
  walk fuel SystemMessageFilterVisitor (shape_root t) (filtered σ seen)
  = Ok tt (filtered σ (seen ++ nodes_of t)).
Proof.
  induction fuel as [|fuel IH];
    intros t par seen Htree Hnd Hseen Hlevels Hatt Hh.
  { destruct t. cbn in Hh. lia. }
  destruct t as [n cs].
  inversion Htree as [par' n' cs' nd Hn Hpar Hch Hsub]; subst par' n' cs'.
  cbn [walk shape_root nodes_of] in *.
  apply NoDup_cons in Hnd as [Hn_cs Hnd_cs].
  erewrite bind_Ok.
  2:{ eapply visit_filtered; [exact Hn| | |].
      - intros Hk. eapply Hlevels; [by left|done..].
      - intros Hrem. destruct (Hatt Hrem) as (p & pnd & -> & ?).
        exists p, pnd. by rewrite Hpar.
      - apply Hseen. by left. }
  assert (Hsnap : heap (filtered σ (seen ++ [n])) !! n
                  = Some (with_children (λ _, map shape_root cs) nd)).
  { rewrite lookup_filtered, Hn. cbn. unfold with_children. do 2 f_equal.
    rewrite Hch. apply filter_all. intros c Hc (Hin & _).
    apply list_elem_of_fmap in Hc as (d & -> & Hd).
    assert (Hdn : shape_root d ∈ flat_map nodes_of cs).
    { eapply nodes_of_child; [exact Hd|apply root_in_nodes]. }
    apply elem_of_app in Hin as [Hin|Hin].
    - apply (Hseen (shape_root d)); [by right|done].
    - apply list_elem_of_singleton in Hin. congruence. }
  rewrite (bind_Ok _ _ _ _ _ (get_node_Ok _ _ _ Hsnap)).
  cbn [children with_children].
  assert (Hinner : ∀ ds seen',
    (∀ d, d ∈ ds → d ∈ cs) →
    NoDup (flat_map nodes_of ds) →
    (∀ x, x ∈ flat_map nodes_of ds → x ∉ seen') →
    for_each (walk fuel SystemMessageFilterVisitor) (map shape_root ds)
      (filtered σ seen')
    = Ok tt (filtered σ (seen' ++ flat_map nodes_of ds))).
  { induction ds as [|d ds IHds]; intros seen' Hsub' Hnd' Hseen'.
    { cbn. by rewrite app_nil_r. }
    cbn [map for_each flat_map] in *.
    apply NoDup_app in Hnd' as (Hnd_d & Hdisj & Hnd_ds).
    assert (Hd : d ∈ cs) by (apply Hsub'; by left).
    erewrite bind_Ok.
    2:{ apply (IH d (Some n)).
        - by apply (proj1 (Forall_forall _ _) Hsub).
        - done.
        - intros x Hx. apply Hseen'. apply elem_of_app. by left.
        - intros m mnd Hm. apply Hlevels. right.
          by eapply nodes_of_child.
        - intros _. exists n, nd. split; [done|]. split; [done|].
          rewrite Hch. split.
          + by apply list_elem_of_fmap_2.
          + by apply NoDup_roots.
        - pose proof (height_child d cs Hd). cbn [height] in Hh. lia. }
    rewrite IHds.
    - by rewrite <-app_assoc.
    - intros e He. apply Hsub'. by right.
    - done.
    - intros x Hx Hin. apply elem_of_app in Hin as [Hin|Hin].
      + revert Hin. apply Hseen'. apply elem_of_app. by right.
      + by apply (Hdisj x). }
  rewrite Hinner.
  - by rewrite <-app_assoc.
  - done.
  - done.
  - intros x Hx Hin. apply elem_of_app in Hin as [Hin|Hin].
    + revert Hin. apply Hseen. by right.
    + apply list_elem_of_singleton in Hin. congruence.
Qed.

Lemma tree_member σ h : ∀ t par m,
  (height t ≤ h)%nat →
  is_tree σ par t →
  m ∈ nodes_of t →
  ∃ nd, heap σ !! m = Some nd
        ∧ (m = shape_root t ∧ parent nd = par
           ∨ ∃ p pnd, parent nd = Some p ∧ heap σ !! p = Some pnd
                      ∧ m ∈ children pnd).
Proof.
  induction h as [|h IH]; intros t par m Hh Htree Hm.
  { destruct t. cbn in Hh. lia. }
  destruct t as [n cs].
  inversion Htree as [par' n' cs' nd Hn Hpar Hch Hsub]; subst par' n' cs'.
  cbn [nodes_of shape_root] in *.
  apply elem_of_cons in Hm as [->|Hm]; [by eauto|].
  apply list_elem_of_In, in_flat_map in Hm as (c & Hc & Hm).
  apply list_elem_of_In in Hc, Hm.
  destruct (IH c (Some n) m) as (mnd & Hmnd & Hcases).
  - pose proof (height_child c cs Hc). cbn [height] in Hh. lia.
  - by apply (proj1 (Forall_forall _ _) Hsub).
  - done.
  - exists mnd. split; [done|]. right.
    destruct Hcases as [[-> Hp]|Hdeep]; [|done].
    exists n, nd. split; [done|]. split; [done|].
    rewrite Hch. by apply list_elem_of_fmap_2.
Qed.

(** C6: for a document that is a tree, after [FilterMessages.apply]
    (with enough fuel for the tree's height) every system message of
    the tree, which was a child of its parent before, has been removed
    from its parent's children exactly when its level is below the
    report threshold. *)
Theorem FilterMessages_removes fuel σ t :
  is_tree σ None t →
  shape_root t = document σ →
  NoDup (nodes_of t) →
  (height t ≤ fuel)%nat →
  field kind σ (document σ) = Some nodes.document →
  (∀ m nd, m ∈ nodes_of t → heap σ !! m = Some nd →
           kind nd = nodes.system_message →
           ∃ level, attributes nd !! "level" = Some (VInt level)) →
  ∃ σ',
    FilterMessages_apply fuel σ = Ok tt σ'
    ∧ ∀ m p level,
        m ∈ nodes_of t →
        field kind σ m = Some nodes.system_message →
        field parent σ m = Some (Some p) →
        field (λ nd, attributes nd !! "level") σ m = Some (Some (VInt level)) →
        ∃ cs cs',
          field children σ p = Some cs ∧ m ∈ cs
          ∧ field children σ' p = Some cs'
          ∧ (m ∉ cs' ↔ (level < report_level σ)%Z).
Proof.
  intros Htree Hroot Hnd Hh Hdoc Hlevels.
  exists (filtered σ (nodes_of t)). split.
  { unfold FilterMessages_apply. erewrite bind_Ok; [|reflexivity].
    rewrite <-Hroot. rewrite <-(filtered_nil σ) at 1.
    rewrite (walk_filtered σ fuel t None []); try done.
    - intros x _. apply not_elem_of_nil.
    - intros Hrem. exfalso. rewrite Hroot in Hrem.
      apply field_Some in Hdoc as (dnd & Hd & Hk).
      unfold removable in Hrem. rewrite Hd, Hk in Hrem. done. }
  intros m p level Hm Hkind Hpar Hlevel.
  destruct (tree_member σ _ t None m (le_n _) Htree Hm)
    as (mnd & Hmnd & Hcases).
  apply field_Some in Hkind as (x1 & Hx1 & Hkind).
  apply field_Some in Hlevel as (x2 & Hx2 & Hlevel).
  pose proof Hpar as Hpar'.
  apply field_Some in Hpar' as (x3 & Hx3 & Hmpar).
  rewrite Hmnd in Hx1, Hx2, Hx3.
  injection Hx1 as <-. injection Hx2 as <-. injection Hx3 as <-.
  destruct Hcases as [[_ ?]|(p' & pnd & ? & Hp & Hin)]; [congruence|].
  assert (p' = p) as -> by congruence.
  exists (children pnd), (filter (λ c, ¬ struck σ (nodes_of t) p c) (children pnd)).
  split. { apply field_Some. eauto. }
  split; [done|].
  split. { unfold field. by rewrite lookup_filtered, Hp. }
  rewrite list_elem_of_filter.
  assert (Hrem : removable σ m = (level <? report_level σ)%Z).
  { unfold removable. rewrite Hmnd, Hlevel.
    by rewrite bool_decide_eq_true_2. }
  unfold struck. rewrite Hrem.
  destruct (Z.ltb_spec level (report_level σ)) as [Hlt|Hge]; cbn.
  - split; [done|]. intros _ [Hkeep _]. apply Hkeep. by repeat split.
  - split; [|lia]. intros Hout. exfalso. apply Hout.
    split; [|done]. intros (_ & [] & _).
Qed.

Lemma FilterMessages_removes_witness :
  ∃ σ', FilterMessages_apply 3 diagnostics_doc = Ok tt σ'
        ∧ field children σ' 0 = Some [2; 3]
        ∧ field children σ' 3 = Some [].
Proof.
  destruct (FilterMessages_removes 3 diagnostics_doc diagnostics_shape)
    as (σ' & Hrun & _).
  - repeat (econstructor; try reflexivity).
  - reflexivity.
  - cbn. repeat (apply NoDup_cons; split; [set_solver|]). apply NoDup_nil_2.
  - cbn. lia.
  - reflexivity.
  - intros m nd Hm Hnd Hk. cbn in Hm.
    repeat (apply elem_of_cons in Hm as [->|Hm];
            [vm_compute in Hnd; injection Hnd as <-;
             first [discriminate Hk | by eexists]|]).
    by apply elem_of_nil in Hm.
  - exists σ'. split; [exact Hrun|].
    vm_compute in Hrun. injection Hrun as <-. by vm_compute.
Defined.

(** ** io.py *)

Lemma fails_inr py data enc u :
  io.unicode_ py data enc = inr u → ¬ fails py data enc.
Proof. unfold fails. intros -> [?|[?|[?|?]]]; discriminate. Qed.

Lemma fails_cases py data enc : fails py data enc ∨ ¬ fails py data enc.
Proof.
  unfold fails. destruct (io.unicode_ py data enc) as [[]|u];
    first [left; by eauto | right; intros [?|[?|[?|?]]]; discriminate].
Qed.

(** One round of the loop: a candidate that fails is passed over, any
    other decides the outcome. *)
Lemma decode_loop_cons py e rest data :
  e ≠ EmptyString →
  io.decode_loop py (Some e :: rest) data
  = match io.unicode_ py data e with
    | inr decoded => inr decoded
    | inl UnicodeError | inl LookupError | inl KeyError | inl IndexError =>
        io.decode_loop py rest data
    | inl other => inl other
    end.
Proof.
  intros He. cbn [io.decode_loop io.falsy].
  by rewrite bool_decide_eq_false_2.
Qed.

Lemma decode_loop_fails py e rest data :
  e ≠ EmptyString → fails py data e →
  io.decode_loop py (Some e :: rest) data = io.decode_loop py rest data.
Proof.
  intros He Hf. rewrite decode_loop_cons by done.
  destruct Hf as [Hf|[Hf|[Hf|Hf]]]; by rewrite Hf.
Qed.

Lemma decode_loop_stops py e rest data :
  e ≠ EmptyString → ¬ fails py data e →
  io.decode_loop py (Some e :: rest) data = io.unicode_ py data e.
Proof.
  intros He Hnf. rewrite decode_loop_cons by done. unfold fails in Hnf.
  destruct (io.unicode_ py data e) as [[]|u]; try done; exfalso; tauto.
Qed.

(** The loop returns the outcome of the first candidate that does not
    fail. *)
Lemma decode_loop_first py encs data : ∀ l1 enc l2,
  omap (λ enc, if io.falsy enc then None else enc) encs = l1 ++ enc :: l2 →
  Forall (fails py data) l1 →
  ¬ fails py data enc →
  io.decode_loop py encs data = io.unicode_ py data enc.
Proof.
  induction encs as [|[e|] rest IH]; intros l1 enc l2; cbn [omap list_omap].
  - by destruct l1.
  - cbn [io.falsy]. case_bool_decide as He.
    { subst e. cbn [io.decode_loop io.falsy].
      rewrite bool_decide_eq_true_2 by done. apply IH. }
    destruct l1 as [|e' l1]; cbn [app]; intros [= <- Heq] Hall Hnf.
    + by apply decode_loop_stops.
    + apply Forall_cons in Hall as [Hf Hall].
      rewrite decode_loop_fails by done. by eapply IH.
  - cbn [io.falsy io.decode_loop]. apply IH.
Qed.

Lemma decode_loop_inr py encs data u :
  io.decode_loop py encs data = inr u ↔
  ∃ l1 enc l2,
    omap (λ enc, if io.falsy enc then None else enc) encs = l1 ++ enc :: l2
    ∧ Forall (fails py data) l1
    ∧ io.unicode_ py data enc = inr u.
Proof.
  split.
  - induction encs as [|[e|] rest IH]; cbn [omap list_omap].
    + done.
    + cbn [io.falsy]. case_bool_decide as He.
      { subst e. cbn [io.decode_loop io.falsy].
        rewrite bool_decide_eq_true_2 by done. apply IH. }
      destruct (fails_cases py data e) as [Hf|Hnf].
      * rewrite decode_loop_fails by done. intros Hrest.
        destruct (IH Hrest) as (l1 & enc & l2 & Heq & Hall & Henc).
        exists (e :: l1), enc, l2. rewrite Heq.
        split; [done|]. split; [by constructor|done].
      * rewrite decode_loop_stops by done. intros Hu.
        by exists [], e, (omap (λ enc, if io.falsy enc then None else enc)
                            rest).
    + cbn [io.falsy io.decode_loop]. apply IH.
  - intros (l1 & enc & l2 & Heq & Hall & Henc).
    rewrite (decode_loop_first py encs data l1 enc l2); try done.
    by eapply fails_inr.
Qed.

Lemma decode_loop_UnicodeError py encs data :
  io.decode_loop py encs data = inl UnicodeError ↔
  Forall (fails py data)
    (omap (λ enc, if io.falsy enc then None else enc) encs).
Proof.
  induction encs as [|[e|] rest IH]; cbn [omap list_omap].
  - by split.
  - cbn [io.falsy]. case_bool_decide as He.
    { subst e. cbn [io.decode_loop io.falsy].
      by rewrite bool_decide_eq_true_2. }
    rewrite Forall_cons.
    destruct (fails_cases py data e) as [Hf|Hnf].
    + rewrite decode_loop_fails by done. rewrite IH. tauto.
    + rewrite decode_loop_stops by done. split; [|tauto].
      intros Hu. exfalso. apply Hnf. unfold fails. by left.
  - cbn [io.falsy io.decode_loop]. apply IH.
Qed.

Lemma encodings_order py options :
  io.encodings py options =
    io.input_encoding options :: Some "utf-8"
      :: option_list (io.nl_langinfo_CODESET py)
      ++ option_list (io.getlocale_1 py)
      ++ option_list (io.getdefaultlocale_1 py)
      ++ [Some "latin-1"].
Proof.
  unfold io.encodings, io.try_append.
  destruct (io.nl_langinfo_CODESET py), (io.getlocale_1 py),
    (io.getdefaultlocale_1 py); reflexivity.
Qed.

Lemma candidates_named py options :
  candidates py options = omap named (io.encodings py options).
Proof.
  unfold candidates.
  induction (io.encodings py options) as [|enc encs IH]; [done|].
  cbn [omap list_omap]. rewrite IH.
  destruct enc as [[|a s]|]; cbn; [by rewrite bool_decide_eq_true_2| |done].
  by rewrite bool_decide_eq_false_2.
Qed.

(** C7, as the code has it: [Input.decode] goes through its
    candidates in the order configured input encoding, UTF-8, locale
    codeset, locale encoding, default locale encoding, Latin-1 (a
    locale query that raises adds nothing; None and the empty string
    are skipped).  A candidate fails when [unicode(data, enc)] raises
    UnicodeError or LookupError, or a subclass of these.  The outcome
    is that of the first candidate that does not fail: the decoded
    data, or the exception of another class that this candidate
    raises; and [Input.decode] raises UnicodeError exactly when every
    candidate fails. *)
Theorem Input_decode_negotiation py options data :
  candidates py options
  = omap named
      (io.input_encoding options :: Some "utf-8"
         :: option_list (io.nl_langinfo_CODESET py)
         ++ option_list (io.getlocale_1 py)
         ++ option_list (io.getdefaultlocale_1 py)
         ++ [Some "latin-1"])
  ∧ (∀ l1 enc l2,
       candidates py options = l1 ++ enc :: l2 →
       Forall (fails py data) l1 →
       ¬ fails py data enc →
       io.Input_decode py options data = io.unicode_ py data enc)
  ∧ (∀ u, io.Input_decode py options data = inr u ↔
       ∃ l1 enc l2,
         candidates py options = l1 ++ enc :: l2
         ∧ Forall (fails py data) l1
         ∧ io.unicode_ py data enc = inr u)
  ∧ (io.Input_decode py options data = inl UnicodeError ↔
       Forall (fails py data) (candidates py options)).
Proof.
  split; [|split; [|split]].
  - by rewrite candidates_named, encodings_order.
  - apply decode_loop_first.
  - intros u. apply decode_loop_inr.
  - apply decode_loop_UnicodeError.
Qed.

(** C7, as stated, fails: for data that is already unicode no
    candidate decodes, since [unicode] raises TypeError, which the
    loop does not catch; yet [Input.decode] does not raise
    UnicodeError: the TypeError of the first candidate comes out. *)
Lemma Input_decode_unicode_data :
  candidates io.latin1_only (io.mkValues (Some "latin-1") None)
  = ["latin-1"; "utf-8"; "latin-1"]
  ∧ Forall
      (λ enc, ∀ u,
         io.unicode_ io.latin1_only (io.Unicode [233%N]) enc ≠ inr u)
      ["latin-1"; "utf-8"; "latin-1"]
  ∧ io.Input_decode io.latin1_only (io.mkValues (Some "latin-1") None)
      (io.Unicode [233%N]) = inl TypeError.
Proof.
  split; [reflexivity|]. split; [|reflexivity].
  repeat (apply Forall_cons; split; [by intros u|]). constructor.
Qed.



Lemma latin1_roundtrip s b :
  io.latin1_encode s = inr b → io.latin1_decode b = s.
Proof.
  revert b. induction s as [|c s IH]; intros b; cbn.
  - by intros [= <-].
  - destruct (Byte.of_N c) as [x|] eqn:Hx; [|done].
    destruct (io.latin1_encode s) as [|out]; [done|].
    intros [= <-]. unfold io.latin1_decode in *. cbn.
    rewrite (IH out eq_refl). by rewrite (Byte.to_of_N c Hx).
Qed.



Lemma latin1_string_roundtrip s b :
  io.latin1_encode s = inr b →
  io.StringOutput_write io.latin1_only
    (io.mkValues None (Some "latin-1")) s = inr (io.Str b)
  ∧ io.StringInput_read io.latin1_only
      (io.mkValues (Some "latin-1") None) (io.Str b) = inr (io.Unicode s).
Proof.
  intros Henc. split.
  - unfold io.StringOutput_write. cbn. by rewrite Henc.
  - unfold io.StringInput_read, io.Input_decode. cbn.
    by rewrite (latin1_roundtrip s b Henc).
Qed.


(** * Further properties *)

(** ** io.py: more on [Input.decode] *)

Lemma latin1_candidate py options :
  ∃ l, candidates py options = l ++ ["latin-1"].
Proof.
  unfold candidates. rewrite encodings_order.
  rewrite !app_comm_cons, !app_assoc, omap_app. cbn. eauto.
Qed.

Lemma decode_loop_outcome py encs data :
  Forall (λ enc, decodes py data enc ∨ fails py data enc)
    (omap (λ enc, if io.falsy enc then None else enc) encs) →
  (∃ u, io.decode_loop py encs data = inr u)
  ∨ io.decode_loop py encs data = inl UnicodeError.
Proof.
  induction encs as [|[e|] encs IH]; cbn [omap list_omap].
  - by right.
  - cbn [io.falsy]. case_bool_decide as He.
    { subst e. cbn [io.decode_loop io.falsy].
      by rewrite bool_decide_eq_true_2. }
    intros [Hd Hrest]%Forall_cons. specialize (IH Hrest).
    destruct Hd as [[u Hu]|Hf].
    + left. exists u. rewrite decode_loop_stops; [done..|].
      by eapply fails_inr.
    + by rewrite decode_loop_fails.
  - cbn [io.falsy io.decode_loop]. apply IH.
Qed.

(** X1: Latin-1, the last encoding [Input.decode] tries, is its
    safety net: when the data decodes as Latin-1 the final
    [UnicodeError] is never raised, and if moreover every encoding
    tried either decodes the data or raises an exception the loop
    catches, [Input.decode] returns a decoded string. *)
Theorem Input_decode_latin1_fallback py options data :
  decodes py data "latin-1" →
  io.Input_decode py options data ≠ inl UnicodeError
  ∧ (Forall (λ enc, decodes py data enc ∨ fails py data enc)
       (candidates py options) →
     ∃ decoded, io.Input_decode py options data = inr decoded).
Proof.
  intros [u Hu].
  assert (Hne : io.Input_decode py options data ≠ inl UnicodeError).
  { intros Hraise. apply decode_loop_UnicodeError in Hraise.
    destruct (latin1_candidate py options) as [l Hl].
    fold (candidates py options) in Hraise. rewrite Hl in Hraise.
    apply Forall_app in Hraise as [_ Hraise].
    rewrite Forall_singleton in Hraise. exact (fails_inr _ _ _ _ Hu Hraise). }
  split; [done|]. intros Hall.
  by destruct (decode_loop_outcome py (io.encodings py options) data Hall).
Qed.

Lemma Input_decode_latin1_fallback_witness :
  ∃ decoded,
    io.Input_decode io.latin1_only (io.mkValues (Some "ascii") None)
      (io.Str [Byte.xe9]) = inr decoded.
Proof.
  apply (Input_decode_latin1_fallback io.latin1_only
           (io.mkValues (Some "ascii") None) (io.Str [Byte.xe9])).
  - by eexists.
  - assert (candidates io.latin1_only (io.mkValues (Some "ascii") None)
            = ["ascii"; "utf-8"; "latin-1"]) as -> by reflexivity.
    repeat (apply Forall_cons; split);
      [by right; right; left|by right; right; left|by left; eexists
      |constructor].
Defined.

(** X2: the loop of [Input.decode] catches [UnicodeError] and
    [LookupError] with their subclasses, and nothing else: when the
    encodings tried before [enc] all fail that way and
    [unicode(data, enc)] raises an exception that is none of
    [UnicodeError], [LookupError], [KeyError] and [IndexError],
    [Input.decode] raises that exception and the encodings after
    [enc] are not tried. *)
Theorem Input_decode_propagates py options data l1 enc l2 e :
  candidates py options = l1 ++ enc :: l2 →
  Forall (fails py data) l1 →
  io.unicode_ py data enc = inl e →
  e ≠ UnicodeError → e ≠ LookupError → e ≠ KeyError → e ≠ IndexError →
  io.Input_decode py options data = inl e.
Proof.
  intros Hsplit Hall He ? ? ? ?. rewrite <-He.
  apply (decode_loop_first py _ data l1 enc l2); [done..|].
  unfold fails. rewrite He. intros [?|[?|[?|?]]]; congruence.
Qed.

Lemma Input_decode_propagates_witness :
  io.Input_decode io.latin1_only (io.mkValues (Some "latin-1") None)
    (io.Unicode [233%N]) = inl TypeError.
Proof.
  apply (Input_decode_propagates io.latin1_only
           (io.mkValues (Some "latin-1") None) (io.Unicode [233%N])
           [] "latin-1" ["utf-8"; "latin-1"] TypeError);
    [reflexivity|constructor|reflexivity|discriminate..].
Defined.

(** ** FinalChecks: more on references *)

Lemma FinalCheckVisitor_reference fuel rs σ node nd :
  heap σ !! node = Some nd →
  kind nd ∈ [nodes.reference; nodes.footnote_reference;
             nodes.citation_reference] →
  FinalCheckVisitor fuel rs node σ = visit_reference rs node σ.
Proof.
  intros Hnode Hkind. unfold FinalCheckVisitor.
  rewrite (bind_Ok _ _ _ _ _ (get_node_Ok _ _ _ Hnode)).
  set_unfold in Hkind. destruct Hkind as [->|[->|[->|[]]]]; done.
Qed.

(** X3: for an unresolved reference whose name does not resolve,
    the first resolver callback that returns true ends the visit:
    the callbacks after it are not called, no diagnostic is made, and
    the document is as that callback left it. *)
Theorem visit_reference_first_resolver
    fuel rs1 r rs2 σ σ1 σ' node nd refname :
  heap σ !! node = Some nd →
  kind nd ∈ [nodes.reference; nodes.footnote_reference;
             nodes.citation_reference] →
  resolved nd = false →
  attributes nd !! "refname" = Some (VStr refname) →
  mjoin (nameids σ !! refname) = None →
  try_resolvers rs1 node σ = Ok false σ1 →
  r node σ1 = Ok true σ' →
  FinalCheckVisitor fuel (rs1 ++ r :: rs2) node σ = Ok tt σ'.
Proof.
  intros Hnode Hkind Hres Hname Hid Hrs1 Hr.
  erewrite FinalCheckVisitor_reference by done.
  eapply visit_reference_handled; try done.
  by eapply try_resolvers_first.
Qed.

Lemma visit_reference_first_resolver_witness :
  FinalCheckVisitor 0
    [declining_resolver; accepting_resolver; failing_resolver] 3 reference_doc
  = Ok tt reference_doc.
Proof.
  apply (visit_reference_first_resolver 0 [declining_resolver]
           accepting_resolver [failing_resolver]
           reference_doc reference_doc reference_doc 3
           (mkNode nodes.reference [] (Some 1)
              {["refname" := VStr "missing"]}
              false false "missing_" "missing" None) "missing");
    [reflexivity|apply list_elem_of_here|reflexivity|reflexivity
    |reflexivity|reflexivity|reflexivity].
Defined.

(** X4: when the name of an unresolved reference maps to an id that
    [document.ids] does not hold, the visit raises [KeyError]. *)
Theorem visit_reference_unknown_id fuel rs σ node nd refname id :
  heap σ !! node = Some nd →
  kind nd ∈ [nodes.reference; nodes.footnote_reference;
             nodes.citation_reference] →
  resolved nd = false →
  attributes nd !! "refname" = Some (VStr refname) →
  nameids σ !! refname = Some (Some id) →
  ids σ !! id = None →
  FinalCheckVisitor fuel rs node σ = Raise KeyError.
Proof.
  intros Hnode Hkind Hres Hname Hid Hids.
  erewrite FinalCheckVisitor_reference by done. unfold visit_reference.
  rewrite (bind_Ok _ _ _ _ _ (get_node_Ok _ _ _ Hnode)).
  rewrite Hres, Hname. rewrite bool_decide_eq_true_2 by eauto. cbn [orb negb].
  erewrite bind_Ok; [|by eapply getitem_str_Ok].
  erewrite bind_Ok; [|reflexivity]. rewrite Hid. cbn [mjoin option_join].
  erewrite bind_Ok; [|by apply update_node_Ok].
  erewrite bind_Ok; [|apply update_node_Ok; cbn; apply lookup_insert_eq].
  apply bind_Raise. erewrite bind_Ok; [|reflexivity]. cbn. by rewrite Hids.
Qed.

Lemma visit_reference_unknown_id_witness :
  FinalCheckVisitor 0 [] 2 stale_name_doc = Raise KeyError.
Proof.
  apply (visit_reference_unknown_id 0 [] stale_name_doc 2
           (mkNode nodes.reference [] (Some 1)
              {["refname" := VStr "known"]}
              false false "known_" "known" None) "known" "id1");
    [reflexivity|apply list_elem_of_here|reflexivity|reflexivity
    |reflexivity|reflexivity].
Defined.

(** ** FinalChecks: more on transitions *)

Lemma Element_getitem_inv σ n i c σ' :
  Element_getitem n i σ = Ok c σ' → σ' = σ.
Proof.
  unfold Element_getitem. intros H.
  apply bind_inv in H as (nd & σ1 & Hnd & H).
  apply get_node_inv in Hnd as [_ ->].
  by apply from_option_inv in H as [_ ->].
Qed.

Lemma isinstance_inv σ n cls b σ' :
  isinstance n cls σ = Ok b σ' → σ' = σ.
Proof.
  unfold isinstance. intros H.
  apply bind_inv in H as (nd & σ1 & Hnd & H).
  apply get_node_inv in Hnd as [_ ->]. by injection H as _ <-.
Qed.

Lemma begins_with_transition_inv σ node index b σ' :
  begins_with_transition node index σ = Ok b σ' → σ' = σ.
Proof.
  unfold begins_with_transition. intros H.
  destruct (index =? 0)%Z; [by injection H as _ <-|].
  apply bind_inv in H as (first & σ1 & Hfirst & H).
  apply bind_inv in Hfirst as (p & σ2 & Hp & Hfirst).
  apply parent_of_inv in Hp as [_ ->].
  apply Element_getitem_inv in Hfirst as ->.
  apply bind_inv in H as (is_title & σ1 & Ht & H).
  apply isinstance_inv in Ht as ->.
  destruct is_title; [|by injection H as _ <-].
  destruct (index =? 1)%Z; [by injection H as _ <-|].
  apply bind_inv in H as (second & σ1 & Hsecond & H).
  apply bind_inv in Hsecond as (p' & σ2 & Hp' & Hsecond).
  apply parent_of_inv in Hp' as [_ ->].
  apply Element_getitem_inv in Hsecond as ->.
  apply bind_inv in H as (is_subtitle & σ1 & Hs & H).
  apply isinstance_inv in Hs as ->.
  destruct is_subtitle; by injection H as _ <-.
Qed.

(** What the first half of the visit can do to the document: nothing,
    or record one diagnostic and insert it into a live node. *)
Lemma check_transition_inv σ node index σ' :
  check_transition node σ = Ok index σ' →
  σ' = σ
  ∨ ∃ message ln p i, σ' = error_inserted message ln p i σ.
Proof.
  unfold check_transition. intros H.
  apply bind_inv in H as (i & σ1 & Hi & H).
  apply bind_inv in Hi as (p & σ2 & Hp & Hi).
  apply parent_of_inv in Hp as [_ ->].
  apply Element_index_inv in Hi as [_ ->].
  apply bind_inv in H as (nd & σ1 & Hnd & H).
  apply get_node_inv in Hnd as [_ ->].
  apply bind_inv in H as (b & σ1 & Hb & H).
  apply begins_with_transition_inv in Hb as ->.
  apply bind_inv in H as (error & σ1 & Herr & H).
  assert (Hcases : (error = None ∧ σ1 = σ)
    ∨ ∃ message, error = Some (fresh (dom (heap σ)))
                 ∧ σ1 = reported message (line nd) σ).
  { destruct b.
    - apply bind_inv in Herr as (q & σ2 & Hq & Herr).
      apply parent_of_inv in Hq as [_ ->].
      apply bind_inv in Herr as (is_doc & σ2 & Hdoc & Herr).
      apply isinstance_inv in Hdoc as ->.
      apply bind_inv in Herr as (is_sec & σ2 & Hsec & Herr).
      assert (σ2 = σ) as ->.
      { destruct is_doc; [by injection Hsec as _ <-|].
        by apply isinstance_inv in Hsec. }
      destruct is_sec; [|done].
      apply bind_inv in Herr as (e & σ2 & He & Herr).
      rewrite reporter_error_Ok in He. injection He as <- <-.
      injection Herr as <- <-. right. by eexists.
    - apply bind_inv in Herr as (prev & σ2 & Hprev & Herr).
      apply bind_inv in Hprev as (q & σ3 & Hq & Hprev).
      apply parent_of_inv in Hq as [_ ->].
      apply Element_getitem_inv in Hprev as ->.
      apply bind_inv in Herr as (is_transition & σ2 & Htr & Herr).
      apply isinstance_inv in Htr as ->.
      destruct is_transition; [|injection Herr as <- <-; by left].
      apply bind_inv in Herr as (e & σ2 & He & Herr).
      rewrite reporter_error_Ok in He. injection He as <- <-.
      injection Herr as <- <-. right. by eexists. }
  destruct Hcases as [[-> ->]|(message & -> & ->)].
  - injection H as _ <-. by left.
  - right.
    apply bind_inv in H as (q & σ2 & Hq & H).
    apply parent_of_inv in Hq as [_ ->].
    apply bind_inv in H as ([] & σ2 & Hins & H). injection H as _ <-.
    apply Element_insert_inv in Hins as (Hlive & _ & ->).
    by exists message, (line nd), q, (Z.to_nat i).
Qed.

(** X5: whatever [visit_transition] does (insert diagnostics, move
    the transition up), a transition that hung in the tree before the
    visit still hangs in it afterwards: it has a parent that lists it
    among its children. *)
Theorem visit_transition_keeps_attached fuel node σ σ' :
  attached σ node →
  visit_transition fuel node σ = Ok tt σ' →
  attached σ' node.
Proof.
  intros Hatt H. unfold visit_transition in H.
  apply bind_inv in H as (index & σ1 & Hcheck & H).
  eapply place_transition_keeps; [|exact H].
  apply check_transition_inv in Hcheck as [->|(message & ln & p & i & ->)];
    [done|].
  apply attached_inserted; [by apply attached_reported|].
  destruct Hatt as (q & cs & Hpar & _).
  apply field_Some in Hpar as (nd & Hnode & _).
  assert (heap σ !! fresh (dom (heap σ)) = None) by apply fresh_heap.
  congruence.
Qed.

Lemma visit_transition_keeps_attached_witness :
  ∃ σ', visit_transition 2 10 transition_doc = Ok tt σ' ∧ attached σ' 10.
Proof.
  eexists. split; [by vm_compute|].
  apply (visit_transition_keeps_attached 2 10 transition_doc).
  - exists 1, [3; 4; 5; 10]. split; [reflexivity|]. split; [reflexivity|].
    set_solver.
  - by vm_compute.
Defined.

(** X6: a transition that does not begin its parent, whose
    preceding sibling is not a transition and that has a following
    sibling is left alone: the visit changes nothing and records no
    diagnostic, without entering the loop (no fuel is needed). *)
Theorem visit_transition_legal fuel σ node nd p pnd l0 prev l2 :
  heap σ !! node = Some nd →
  parent nd = Some p →
  heap σ !! p = Some pnd →
  children pnd = (l0 ++ [prev]) ++ node :: l2 →
  node ∉ l0 ++ [prev] →
  (∀ c, c ∈ l0 ++ [prev] → is_Some (heap σ !! c)) →
  begins σ (l0 ++ [prev]) = false →
  is_kind σ prev nodes.transition = false →
  l2 ≠ [] →
  visit_transition fuel node σ = Ok tt σ.
Proof.
  intros Hnode Hpar Hp Hch Hl1 Hlive Hb Hprev Hl2.
  unfold visit_transition. erewrite bind_Ok.
  2:{ by eapply (check_transition_legal σ node p nd pnd (l0 ++ [prev]) l2). }
  by eapply place_transition_stays.
Qed.

Lemma visit_transition_legal_witness :
  visit_transition 0 7 transition_doc = Ok tt transition_doc.
Proof.
  apply (visit_transition_legal 0 transition_doc 7
           (mkNode nodes.transition [] (Some 2) ∅ false false
              EmptyString EmptyString None) 2
           (mkNode nodes.section [6; 7; 8; 9; 11] (Some 0) ∅ false false
              EmptyString EmptyString None) [] 6 [8; 9; 11]);
    try reflexivity; try discriminate.
  - set_solver.
  - intros c Hc. apply list_elem_of_singleton in Hc as ->. by eexists.
Defined.

(** X7: a transition that both begins and ends the root of the
    tree (a document or a section without parent) gets two
    diagnostics, "Document or section may not begin with a
    transition." inserted before it and "Document may not end with a
    transition." inserted after it, recorded in that order; the
    transition stays where it is. *)
Theorem visit_transition_begins_and_ends fuel σ node nd p pnd l1 :
  heap σ !! node = Some nd →
  parent nd = Some p →
  heap σ !! p = Some pnd →
  children pnd = l1 ++ [node] →
  node ∉ l1 →
  (∀ c, c ∈ l1 → is_Some (heap σ !! c)) →
  begins σ l1 = true →
  kind pnd = nodes.document ∨ kind pnd = nodes.section →
  parent pnd = None →
  (0 < fuel)%nat →
  ∃ σ' before after,
    visit_transition fuel node σ = Ok tt σ'
    ∧ heap σ !! before = None ∧ heap σ !! after = None ∧ before ≠ after
    ∧ field children σ' p = Some (l1 ++ [before; node; after])
    ∧ transform_messages σ' = transform_messages σ ++ [before; after]
    ∧ field text σ' before = Some begin_with_transition_text
    ∧ field text σ' after = Some end_with_transition_text
    ∧ field parent σ' before = Some (Some p)
    ∧ field parent σ' after = Some (Some p)
    ∧ field parent σ' node = Some (Some p).
Proof.
  intros Hnode Hpar Hp Hch Hl1 Hlive Hb Hkind Hroot Hfuel.
  assert (Hnp : node ≠ p) by (intros ->; congruence).
  assert (Hcheck := check_transition_begins σ node p nd pnd l1 []
                      Hnode Hpar Hp Hch Hl1 Hlive Hb Hkind).
  destruct (error_inserted_spec σ p pnd begin_with_transition_text (line nd)
              l1 [node] Hp Hch) as (Hnew & He1 & Hp1 & Htm1 & Hframe1).
  destruct (error_inserted_fields σ p pnd begin_with_transition_text (line nd)
              l1 [node] Hp Hch)
    as (_ & _ & _ & Htx1 & _ & Hpa1 & _ & _ & _ & _).
  set (e1 := fresh (dom (heap σ))) in *.
  set (σ1 := error_inserted begin_with_transition_text (line nd) p
               (length l1) σ) in *.
  assert (Hne1 : node ≠ e1) by congruence.
  assert (Hpe1 : p ≠ e1) by congruence.
  assert (Hnode1 : heap σ1 !! node = Some nd).
  { by rewrite Hframe1. }
  assert (Hch1 : children (with_children (λ _, l1 ++ [e1; node]) pnd)
                 = ((l1 ++ [e1]) ++ [node]) ++ []).
  { cbn. by rewrite app_nil_r, <-app_assoc. }
  assert (Hl1' : node ∉ l1 ++ [e1]) by set_solver.
  destruct (error_inserted_fields σ1 p _ end_with_transition_text (line nd)
              ((l1 ++ [e1]) ++ [node]) [] Hp1 Hch1)
    as (Hnew2 & _ & _ & Htx2 & _ & Hpa2 & Hcs2 & Htm2 & Hframe2 & Hparents2).
  set (e2 := fresh (dom (heap σ1))) in *.
  assert (Hne12 : e1 ≠ e2) by congruence.
  assert (Hnew2' : heap σ !! e2 = None).
  { rewrite <-Hframe1; [done| |congruence].
    intros Heq. rewrite <-Heq in Hp1. congruence. }
  rewrite !length_app in Hcs2, Htm2, Hframe2, Hparents2, Htx2, Hpa2.
  cbn [length] in Hcs2, Htm2, Hframe2, Hparents2, Htx2, Hpa2.
  eexists _, e1, e2. split.
  { unfold visit_transition. erewrite bind_Ok; [|exact Hcheck].
    replace (Z.of_nat (length l1) + 1)%Z
      with (Z.of_nat (length (l1 ++ [e1])))
      by (rewrite length_app; cbn; lia).
    assert (Hch2 : children (with_children (λ _, l1 ++ [e1; node]) pnd)
                   = (l1 ++ [e1]) ++ [node]).
    { cbn. by rewrite <-app_assoc. }
    eapply (place_transition_ends σ1 node p nd _ (l1 ++ [e1])
              Hnode1 Hpar Hp1 Hl1' Hch2 fuel [] p); try done.
    apply field_Some. eauto. }
  rewrite length_app. cbn [length].
  split; [done|]. split; [done|]. split; [done|].
  split. { rewrite Hcs2. f_equal. by rewrite <-!app_assoc. }
  split. { rewrite Htm2, Htm1. by rewrite <-app_assoc. }
  split. { unfold field. rewrite Hframe2 by congruence. exact Htx1. }
  split; [done|].
  split. { rewrite Hparents2 by done. exact Hpa1. }
  split; [done|].
  rewrite Hparents2 by congruence. apply field_Some. eauto.
Qed.

Lemma visit_transition_begins_and_ends_witness :
  ∃ σ', visit_transition 1 1 lone_transition_doc = Ok tt σ'
        ∧ field children σ' 0 = Some [2; 1; 3]
        ∧ transform_messages σ' = [2; 3].
Proof.
  destruct (visit_transition_begins_and_ends 1 lone_transition_doc 1
              (mkNode nodes.transition [] (Some 0) ∅ false false
                 EmptyString EmptyString (Some 3%Z)) 0
              (mkNode nodes.document [1] None ∅ false false
                 EmptyString EmptyString None) [])
    as (σ' & before & after & Hrun & _);
    try reflexivity.
  - set_solver.
  - set_solver.
  - by left.
  - lia.
  - exists σ'. split; [exact Hrun|].
    vm_compute in Hrun. injection Hrun as <-. by vm_compute.
Defined.

(** ** FilterMessages: what the pass leaves alone *)

Lemma FilterMessages_apply_Ok fuel σ t :
  is_tree σ None t →
  shape_root t = document σ →
  NoDup (nodes_of t) →
  (height t ≤ fuel)%nat →
  removable σ (document σ) = false →
  (∀ m nd, m ∈ nodes_of t → heap σ !! m = Some nd →
           kind nd = nodes.system_message →
           ∃ level, attributes nd !! "level" = Some (VInt level)) →
  FilterMessages_apply fuel σ = Ok tt (filtered σ (nodes_of t)).
Proof.
  intros Htree Hroot Hnd Hh Hdoc Hlevels.
  unfold FilterMessages_apply. erewrite bind_Ok; [|reflexivity].
  rewrite <-Hroot. rewrite <-(filtered_nil σ) at 1.
  rewrite (walk_filtered σ fuel t None []); try done.
  - intros x _. apply not_elem_of_nil.
  - intros Hrem. rewrite Hroot in Hrem. congruence.
Qed.

Lemma FilterMessages_nothing_removable fuel σ t :
  is_tree σ None t →
  shape_root t = document σ →
  NoDup (nodes_of t) →
  (height t ≤ fuel)%nat →
  (∀ m, m ∈ nodes_of t → removable σ m = false) →
  (∀ m nd, m ∈ nodes_of t → heap σ !! m = Some nd →
           kind nd = nodes.system_message →
           ∃ level, attributes nd !! "level" = Some (VInt level)) →
  FilterMessages_apply fuel σ = Ok tt σ.
Proof.
  intros Htree Hroot Hnd Hh Hkeep Hlevels.
  rewrite (FilterMessages_apply_Ok fuel σ t); try done.
  - f_equal. rewrite <-(filtered_nil σ) at 2.
    apply filtered_ext. intros k nd c _ _. unfold struck.
    split; [|by intros [[]%elem_of_nil _]].
    intros (Hc & Hrem & _). rewrite Hkeep in Hrem by done. done.
  - apply Hkeep. rewrite <-Hroot. apply root_in_nodes.
Qed.

(** X8: when every system message of a tree-shaped document has a
    level at or above the report threshold, [FilterMessages.apply]
    leaves the document exactly as it was. *)
Theorem FilterMessages_nothing_below fuel σ t :
  is_tree σ None t →
  shape_root t = document σ →
  NoDup (nodes_of t) →
  (height t ≤ fuel)%nat →
  (∀ m nd, m ∈ nodes_of t → heap σ !! m = Some nd →
           kind nd = nodes.system_message →
           ∃ level, attributes nd !! "level" = Some (VInt level)
                    ∧ (report_level σ ≤ level)%Z) →
  FilterMessages_apply fuel σ = Ok tt σ.
Proof.
  intros Htree Hroot Hnd Hh Hlevels.
  apply (FilterMessages_nothing_removable fuel σ t); try done.
  - intros m Hm. unfold removable.
    destruct (heap σ !! m) as [nd|] eqn:Hmnd; [|done].
    destruct (decide (kind nd = nodes.system_message)) as [Hk|Hk].
    + destruct (Hlevels m nd Hm Hmnd Hk) as (level & -> & Hle).
      rewrite andb_false_iff. right. by apply Z.ltb_ge.
    + by rewrite bool_decide_eq_false_2.
  - intros m nd Hm Hmnd Hk.
    destruct (Hlevels m nd Hm Hmnd Hk) as (level & ? & _). eauto.
Qed.

Lemma FilterMessages_nothing_below_witness :
  FilterMessages_apply 3 verbose_diagnostics_doc
  = Ok tt verbose_diagnostics_doc.
Proof.
  apply (FilterMessages_nothing_below 3 verbose_diagnostics_doc
           diagnostics_shape).
  - repeat (econstructor; try reflexivity).
  - reflexivity.
  - cbn. repeat (apply NoDup_cons; split; [set_solver|]). apply NoDup_nil_2.
  - cbn. lia.
  - intros m nd Hm Hnd Hk. cbn in Hm.
    repeat (apply elem_of_cons in Hm as [->|Hm];
            [vm_compute in Hnd; injection Hnd as <-;
             first [discriminate Hk
                   | eexists; split; [reflexivity|cbn; lia]]|]).
    by apply elem_of_nil in Hm.
Defined.

(** X9: [FilterMessages.apply] changes nothing but children lists:
    [transform_messages] and every node's class, parent and attributes
    are as before (a removed message still names its old parent and
    stays listed); every children list becomes a sublist of what it
    was, in the same order, and a child that is gone was a system
    message of the tree below the threshold. *)
Theorem FilterMessages_frame fuel σ t :
  is_tree σ None t →
  shape_root t = document σ →
  NoDup (nodes_of t) →
  (height t ≤ fuel)%nat →
  field kind σ (document σ) = Some nodes.document →
  (∀ m nd, m ∈ nodes_of t → heap σ !! m = Some nd →
           kind nd = nodes.system_message →
           ∃ level, attributes nd !! "level" = Some (VInt level)) →
  ∃ σ',
    FilterMessages_apply fuel σ = Ok tt σ'
    ∧ transform_messages σ' = transform_messages σ
    ∧ (∀ n, field kind σ' n = field kind σ n
            ∧ field parent σ' n = field parent σ n
            ∧ field attributes σ' n = field attributes σ n)
    ∧ (∀ n cs, field children σ n = Some cs →
         ∃ cs', field children σ' n = Some cs'
                ∧ cs' `sublist_of` cs
                ∧ ∀ c, c ∈ cs → c ∉ cs' →
                       c ∈ nodes_of t ∧ removable σ c = true
                       ∧ field parent σ c = Some (Some n)).
Proof.
  intros Htree Hroot Hnd Hh Hdoc Hlevels.
  exists (filtered σ (nodes_of t)). split.
  { apply FilterMessages_apply_Ok; try done.
    apply field_Some in Hdoc as (dnd & Hd & Hk).
    unfold removable. by rewrite Hd, Hk. }
  split; [done|]. split.
  { intros n. by rewrite !field_filtered. }
  intros n cs Hcs. apply field_Some in Hcs as (nd & Hn & <-).
  exists (filter (λ c, ¬ struck σ (nodes_of t) n c) (children nd)).
  split. { unfold field. by rewrite lookup_filtered, Hn. }
  split. { apply sublist_filter. }
  intros c Hc Hout. rewrite list_elem_of_filter in Hout.
  destruct (decide (struck σ (nodes_of t) n c)) as [(? & Hrem & ?)|Hno].
  - split; [done|]. split; [|done]. by destruct (removable σ c).
  - tauto.
Qed.

Lemma FilterMessages_frame_witness :
  ∃ σ', FilterMessages_apply 3 diagnostics_doc = Ok tt σ'
        ∧ transform_messages σ' = []
        ∧ field parent σ' 1 = Some (Some 0).
Proof.
  destruct (FilterMessages_frame 3 diagnostics_doc diagnostics_shape)
    as (σ' & Hrun & Htm & Hsame & _).
  - repeat (econstructor; try reflexivity).
  - reflexivity.
  - cbn. repeat (apply NoDup_cons; split; [set_solver|]). apply NoDup_nil_2.
  - cbn. lia.
  - reflexivity.
  - intros m nd Hm Hnd Hk. cbn in Hm.
    repeat (apply elem_of_cons in Hm as [->|Hm];
            [vm_compute in Hnd; injection Hnd as <-;
             first [discriminate Hk | by eexists]|]).
    by apply elem_of_nil in Hm.
  - exists σ'. split; [exact Hrun|]. split; [exact Htm|].
    by rewrite (proj1 (proj2 (Hsame 1))).
Defined.

(** X10: the filter's visit of a system message raises [KeyError]
    when the message has no level; a message without parent makes it
    raise [AttributeError] when its level is below the threshold,
    and is left alone otherwise. *)
Theorem visit_system_message_raises σ node nd :
  heap σ !! node = Some nd →
  kind nd = nodes.system_message →
  (attributes nd !! "level" = None →
   SystemMessageFilterVisitor node σ = Raise KeyError)
  ∧ (∀ level, attributes nd !! "level" = Some (VInt level) →
       parent nd = None →
       SystemMessageFilterVisitor node σ
       = if (level <? report_level σ)%Z then Raise AttributeError
         else Ok tt σ).
Proof.
  intros Hnode Hkind.
  assert (Hvisit : SystemMessageFilterVisitor node σ
                   = visit_system_message node σ).
  { unfold SystemMessageFilterVisitor.
    rewrite (bind_Ok _ _ _ _ _ (get_node_Ok _ _ _ Hnode)). by rewrite Hkind. }
  rewrite Hvisit. unfold visit_system_message. split.
  - intros Hlevel. apply bind_Raise. apply bind_Raise. unfold getitem.
    rewrite (bind_Ok _ _ _ _ _ (get_node_Ok _ _ _ Hnode)). by rewrite Hlevel.
  - intros level Hlevel Hpar.
    erewrite bind_Ok; [|by eapply getitem_int_Ok].
    erewrite bind_Ok; [|reflexivity].
    destruct (level <? report_level σ)%Z; [|done].
    apply bind_Raise. unfold parent_of.
    rewrite (bind_Ok _ _ _ _ _ (get_node_Ok _ _ _ Hnode)). by rewrite Hpar.
Qed.

Lemma visit_system_message_raises_witness :
  SystemMessageFilterVisitor 0 detached_message_doc = Raise AttributeError.
Proof.
  destruct (visit_system_message_raises detached_message_doc 0
              (mkNode nodes.system_message [] None {["level" := VInt 1]}
                 false false EmptyString EmptyString None))
    as [_ Hraise]; [reflexivity|reflexivity|].
  exact (Hraise 1%Z eq_refl eq_refl).
Defined.

Lemma prune_root σ t : shape_root (prune σ t) = shape_root t.
Proof. by destruct t. Qed.

Lemma removable_filtered σ seen n :
  removable (filtered σ seen) n = removable σ n.
Proof.
  unfold removable. rewrite lookup_filtered.
  by destruct (heap σ !! n).
Qed.

Lemma prune_nodes σ h : ∀ t,
  (height t ≤ h)%nat →
  nodes_of (prune σ t) `sublist_of` nodes_of t
  ∧ (height (prune σ t) ≤ height t)%nat
  ∧ ∀ m, m ∈ nodes_of (prune σ t) →
         m = shape_root t ∨ removable σ m = false.
Proof.
  induction h as [|h IH]; intros t Hh.
  { destruct t. cbn in Hh. lia. }
  destruct t as [n cs]. cbn [prune nodes_of height shape_root] in *.
  assert (Hcs : ∀ c, c ∈ cs → (height c ≤ h)%nat).
  { intros c Hc. pose proof (height_child c cs Hc). lia. }
  clear Hh.
  set (f := λ c, if removable σ (shape_root c) then None
                 else Some (prune σ c)).
  assert (Hinner :
    flat_map nodes_of (omap f cs) `sublist_of` flat_map nodes_of cs
    ∧ (foldr (λ c h, height c `max` h) 0 (omap f cs)
       ≤ foldr (λ c h, height c `max` h) 0 cs)%nat
    ∧ ∀ m, m ∈ flat_map nodes_of (omap f cs) → removable σ m = false).
  { induction cs as [|c cs IHcs]; cbn [omap list_omap flat_map foldr].
    { split; [done|]. split; [done|]. intros m Hm. set_solver. }
    destruct IHcs as (Hsub & Hht & Hrem).
    { intros d Hd. apply Hcs. by right. }
    destruct (IH c) as (Hsubc & Hhtc & Hremc).
    { apply Hcs. by left. }
    assert (Hfc : f c = if removable σ (shape_root c) then None
                        else Some (prune σ c)) by reflexivity.
    rewrite !Hfc. clear Hfc.
    destruct (removable σ (shape_root c)) eqn:Hc.
    - split; [|split].
      + by apply sublist_inserts_l.
      + lia.
      + done.
    - cbn [flat_map foldr]. split; [|split].
      + by apply sublist_app.
      + lia.
      + intros m Hm. apply elem_of_app in Hm as [Hm|Hm].
        * destruct (Hremc m Hm) as [->|?]; done.
        * by apply Hrem. }
  destruct Hinner as (Hsub & Hht & Hrem).
  split; [by apply sublist_skip|]. split; [lia|].
  intros m Hm. apply elem_of_cons in Hm as [->|Hm]; [by left|].
  right. by apply Hrem.
Qed.

Lemma prune_tree σ seen h : ∀ t par,
  (height t ≤ h)%nat →
  is_tree σ par t →
  (∀ x, x ∈ nodes_of t → x ∈ seen) →
  is_tree (filtered σ seen) par (prune σ t).
Proof.
  induction h as [|h IH]; intros t par Hh Htree Hseen.
  { destruct t. cbn in Hh. lia. }
  destruct t as [n cs].
  inversion Htree as [par' n' cs' nd Hn Hpar Hch Hsub]; subst par' n' cs'.
  cbn [prune nodes_of height] in *.
  eapply is_tree_node.
  - by rewrite lookup_filtered, Hn.
  - done.
  - cbn [children with_children]. rewrite Hch.
    assert (Hin : ∀ c, c ∈ cs → shape_root c ∈ seen
                       ∧ field parent σ (shape_root c) = Some (Some n)).
    { intros c Hc. split.
      - apply Hseen. right. eapply nodes_of_child; [done|apply root_in_nodes].
      - apply (proj1 (Forall_forall _ _) Hsub) in Hc.
        inversion Hc as [? ? ? cnd Hcn Hcp]; subst. cbn.
        apply field_Some. eauto. }
    clear -Hin. induction cs as [|c cs IHcs]; [done|].
    cbn [map omap list_omap]. rewrite filter_cons.
    destruct (Hin c) as [Hc1 Hc2]; [by left|].
    destruct (removable σ (shape_root c)) eqn:Hrem.
    + rewrite decide_False.
      * apply IHcs. intros d Hd. apply Hin. by right.
      * intros Hno. apply Hno. unfold struck. by rewrite Hrem.
    + rewrite decide_True.
      * cbn [map]. rewrite prune_root. f_equal.
        apply IHcs. intros d Hd. apply Hin. by right.
      * unfold struck. rewrite Hrem. intros (_ & [] & _).
  - assert (Hcs : ∀ c, c ∈ cs → (height c ≤ h)%nat
                       ∧ is_tree σ (Some n) c
                       ∧ ∀ x, x ∈ nodes_of c → x ∈ seen).
    { intros c Hc. split; [|split].
      - pose proof (height_child c cs Hc). lia.
      - by apply (proj1 (Forall_forall _ _) Hsub).
      - intros x Hx. apply Hseen. right. by eapply nodes_of_child. }
    clear -Hcs IH. induction cs as [|c cs IHcs]; [constructor|].
    cbn [omap list_omap].
    assert (Hrest : ∀ d, d ∈ cs → (height d ≤ h)%nat
                         ∧ is_tree σ (Some n) d
                         ∧ ∀ x, x ∈ nodes_of d → x ∈ seen).
    { intros d Hd. apply Hcs. by right. }
    destruct (removable σ (shape_root c)); [by apply IHcs|].
    constructor; [|by apply IHcs].
    destruct (Hcs c) as (? & ? & ?); [by left|]. by apply IH.
Qed.

(** X11: [FilterMessages.apply] is idempotent on tree-shaped
    documents: a second run over the filtered document succeeds and
    changes nothing. *)
Theorem FilterMessages_idempotent fuel σ t :
  is_tree σ None t →
  shape_root t = document σ →
  NoDup (nodes_of t) →
  (height t ≤ fuel)%nat →
  field kind σ (document σ) = Some nodes.document →
  (∀ m nd, m ∈ nodes_of t → heap σ !! m = Some nd →
           kind nd = nodes.system_message →
           ∃ level, attributes nd !! "level" = Some (VInt level)) →
  ∃ σ',
    FilterMessages_apply fuel σ = Ok tt σ'
    ∧ FilterMessages_apply fuel σ' = Ok tt σ'.
Proof.
  intros Htree Hroot Hnd Hh Hdoc Hlevels.
  assert (Hkeep : removable σ (document σ) = false).
  { apply field_Some in Hdoc as (dnd & Hd & Hk).
    unfold removable. by rewrite Hd, Hk. }
  exists (filtered σ (nodes_of t)). split.
  { by apply FilterMessages_apply_Ok. }
  destruct (prune_nodes σ (height t) t (le_n _)) as (Hsub & Hht & Hrem).
  apply (FilterMessages_nothing_removable fuel _ (prune σ t)).
  - by apply (prune_tree σ _ (height t)).
  - by rewrite prune_root.
  - by eapply sublist_NoDup.
  - lia.
  - intros m Hm. rewrite removable_filtered.
    destruct (Hrem m Hm) as [->|?]; [|done]. by rewrite Hroot.
  - intros m nd Hm Hmnd Hk.
    rewrite lookup_filtered in Hmnd.
    destruct (heap σ !! m) as [nd0|] eqn:Hm0; [|done].
    injection Hmnd as <-. apply (Hlevels m nd0); [|done|done].
    by eapply elem_of_sublist.
Qed.

Lemma FilterMessages_idempotent_witness :
  ∃ σ', FilterMessages_apply 3 diagnostics_doc = Ok tt σ'
        ∧ FilterMessages_apply 3 σ' = Ok tt σ'.
Proof.
  apply (FilterMessages_idempotent 3 diagnostics_doc diagnostics_shape).
  - repeat (econstructor; try reflexivity).
  - reflexivity.
  - cbn. repeat (apply NoDup_cons; split; [set_solver|]). apply NoDup_nil_2.
  - cbn. lia.
  - reflexivity.
  - intros m nd Hm Hnd Hk. cbn in Hm.
    repeat (apply elem_of_cons in Hm as [->|Hm];
            [vm_compute in Hnd; injection Hnd as <-;
             first [discriminate Hk | by eexists]|]).
    by apply elem_of_nil in Hm.
Defined.

(** ** Messages and TestMessages: running the transforms again *)

(** The transform succeeds; it changes nothing when no message
    qualifies and empties the message list otherwise. *)
Lemma Messages_apply_Ok σ :
  is_Some (heap σ !! document σ) →
  (∀ m, m ∈ transform_messages σ →
        ∃ nd level, heap σ !! m = Some nd
                    ∧ attributes nd !! "level" = Some (VInt level)) →
  ∃ σ',
    Messages_apply σ = Ok tt σ'
    ∧ (filter (qualifies σ) (transform_messages σ) = [] → σ' = σ)
    ∧ (filter (qualifies σ) (transform_messages σ) ≠ [] →
       transform_messages σ' = []).
Proof.
  intros [dnd Hdoc] Hlevels.
  assert (Hcollect := Messages_collect_Ok _ σ Hlevels).
  destruct (filter (qualifies σ) (transform_messages σ)) as [|q quals0] eqn:Hq.
  - exists σ. split; [|done].
    unfold Messages_apply.
    erewrite bind_Ok; [|reflexivity]. erewrite bind_Ok; [|reflexivity].
    erewrite bind_Ok; [|exact Hcollect]. done.
  - set (quals := q :: quals0) in *.
    set (S := new_node nodes.section EmptyString EmptyString
                {["classes" := VList ["system-messages"]]} None).
    set (T := new_node nodes.title EmptyString
                "Docutils System Messages" ∅ None).
    set (sec := fresh (dom (heap σ))).
    set (t := fresh (dom (<[sec := S]> (heap σ)))).
    assert (Hsec : heap σ !! sec = None) by apply fresh_heap.
    assert (Ht' : <[sec := S]> (heap σ) !! t = None) by apply fresh_heap.
    assert (Hne : sec ≠ t).
    { intros Heq. rewrite <-Heq, lookup_insert_eq in Ht'. done. }
    assert (Ht : heap σ !! t = None).
    { by rewrite lookup_insert_ne in Ht'. }
    assert (Hquals : ∀ m, m ∈ quals → is_Some (heap σ !! m)).
    { intros m Hm. rewrite <-Hq in Hm.
      apply list_elem_of_filter in Hm as [_ Hm].
      destruct (Hlevels m Hm) as (? & ? & ? & _). eauto. }
    assert (Hd_sec : document σ ≠ sec) by congruence.
    assert (Hd_t : document σ ≠ t) by congruence.
    set (hF := appended (document σ) sec
                 (extended sec quals
                    (appended sec t (<[t := T]> (<[sec := S]> (heap σ)))))).
    exists (with_heap (λ _, hF) (with_transform_messages (λ _, []) σ)).
    split; [|split; [intros; discriminate|done]].
    unfold Messages_apply.
    erewrite bind_Ok; [|reflexivity]. erewrite bind_Ok; [|reflexivity].
    erewrite bind_Ok; [|exact Hcollect].
    assert (Hmatch : ∀ (a b : M unit),
              match quals with [] => a | _ :: _ => b end = b) by done.
    rewrite Hmatch. clear Hmatch. clearbody quals.
    erewrite bind_Ok; [|reflexivity]. erewrite bind_Ok; [|reflexivity].
    erewrite bind_Ok;
      [|apply Element_append_Ok; cbn;
        [rewrite lookup_insert_ne by done; by rewrite lookup_insert_eq
        |by rewrite lookup_insert_eq]].
    assert (Hq_sec : ∀ m, m ∈ quals → sec ≠ m).
    { intros m Hm <-. apply Hquals in Hm as [? ?]. congruence. }
    assert (Hq_t : ∀ m, m ∈ quals → t ≠ m).
    { intros m Hm <-. apply Hquals in Hm as [? ?]. congruence. }
    erewrite bind_Ok.
    2:{ apply Element_extend_Ok.
        - unfold appended. cbn. rewrite !lookup_alter_is_Some.
          rewrite lookup_insert_ne by done. by rewrite lookup_insert_eq.
        - intros m Hm. unfold appended. cbn. rewrite !lookup_alter_is_Some.
          rewrite !lookup_insert_ne by eauto. by apply Hquals. }
    erewrite bind_Ok; [|reflexivity]. erewrite bind_Ok; [|reflexivity].
    rewrite Element_append_Ok;
      [cbv [with_heap with_transform_messages heap document nameids ids
            transform_messages report_level]; reflexivity| |].
    + cbn. rewrite lookup_extended, !fmap_is_Some. unfold appended.
      rewrite !lookup_alter_is_Some, !lookup_insert_ne by done. eauto.
    + cbn. rewrite lookup_extended, !fmap_is_Some. unfold appended.
      rewrite !lookup_alter_is_Some, lookup_insert_ne by done.
      by rewrite lookup_insert_eq.
Qed.

Lemma Messages_apply_nil σ :
  transform_messages σ = [] → Messages_apply σ = Ok tt σ.
Proof.
  intros Htm. unfold Messages_apply.
  erewrite bind_Ok; [|reflexivity]. erewrite bind_Ok; [|reflexivity].
  rewrite Htm. done.
Qed.

(** X12: [Messages.apply] is idempotent: run again on the document
    it produced, it changes nothing (it has either found nothing to
    place or emptied the message list). *)
Theorem Messages_apply_idempotent σ :
  is_Some (heap σ !! document σ) →
  (∀ m, m ∈ transform_messages σ →
        ∃ nd level, heap σ !! m = Some nd
                    ∧ attributes nd !! "level" = Some (VInt level)) →
  ∃ σ', Messages_apply σ = Ok tt σ' ∧ Messages_apply σ' = Ok tt σ'.
Proof.
  intros Hdoc Hlevels.
  destruct (Messages_apply_Ok σ Hdoc Hlevels) as (σ' & Hrun & Hnone & Hsome).
  exists σ'. split; [done|].
  destruct (decide (filter (qualifies σ) (transform_messages σ) = []))
    as [Hq|Hq].
  - by pose proof (Hnone Hq) as ->.
  - by apply Messages_apply_nil, Hsome.
Qed.

Lemma Messages_apply_idempotent_witness :
  ∃ σ', Messages_apply pending_message_doc = Ok tt σ'
        ∧ Messages_apply σ' = Ok tt σ'.
Proof.
  apply (Messages_apply_idempotent pending_message_doc).
  - by eexists.
  - intros m Hm. vm_compute in Hm.
    apply elem_of_cons in Hm as [->|Hm]; [by eexists _, _|].
    apply elem_of_cons in Hm as [->|Hm]; [by eexists _, _|].
    by apply elem_of_nil in Hm.
Defined.

Lemma TestMessages_loop_attached msgs σ :
  (∀ m, m ∈ msgs → ∃ q, field parent σ m = Some (Some q)) →
  for_each (λ msg,
    nd ← get_node msg;
    match parent nd with
    | None => doc ← gets document; Element_append doc msg
    | Some _ => mret tt
    end) msgs σ = Ok tt σ.
Proof.
  induction msgs as [|m msgs IH]; intros Hall; [done|].
  cbn [for_each].
  destruct (Hall m) as (q & Hq); [by left|].
  apply field_Some in Hq as (nd & Hnd & Hpar).
  erewrite bind_Ok.
  2:{ rewrite (bind_Ok _ _ _ _ _ (get_node_Ok _ _ _ Hnd)). by rewrite Hpar. }
  apply IH. intros m' Hm'. apply Hall. by right.
Qed.

(** X13: [TestMessages.apply] is idempotent: after one run every
    listed message has a parent, so a second run appends nothing. *)
Theorem TestMessages_apply_idempotent σ :
  is_Some (heap σ !! document σ) →
  (∀ m, m ∈ transform_messages σ → is_Some (heap σ !! m)) →
  ∃ σ', TestMessages_apply σ = Ok tt σ' ∧ TestMessages_apply σ' = Ok tt σ'.
Proof.
  intros Hdoc Hmsgs.
  destruct (TestMessages_loop (transform_messages σ) σ Hdoc Hmsgs)
    as (σ' & added & Hrun & _ & Htm & _ & Hin & _ & _ & Hpar).
  exists σ'. split.
  { unfold TestMessages_apply. by erewrite bind_Ok; [|reflexivity]. }
  unfold TestMessages_apply. erewrite bind_Ok; [|reflexivity].
  rewrite Htm. apply TestMessages_loop_attached.
  intros m Hm. rewrite Hpar. case_decide as Hadd; [by eexists|].
  destruct (Hmsgs m Hm) as [nd Hnd].
  destruct (parent nd) as [q|] eqn:Hq.
  - exists q. apply field_Some. eauto.
  - exfalso. apply Hadd, Hin. split; [done|]. apply field_Some. eauto.
Qed.

Lemma TestMessages_apply_idempotent_witness :
  ∃ σ', TestMessages_apply attached_message_doc = Ok tt σ'
        ∧ TestMessages_apply σ' = Ok tt σ'.
Proof.
  apply (TestMessages_apply_idempotent attached_message_doc).
  - by eexists.
  - intros m Hm. vm_compute in Hm.
    apply elem_of_cons in Hm as [->|Hm]; [by eexists|].
    apply elem_of_cons in Hm as [->|Hm]; [by eexists|].
    by apply elem_of_nil in Hm.
Defined.

(** X14: [TestMessages.apply] after [Messages.apply]: the messages
    the second transform appends to the document are listed messages
    whose level is below the report threshold.  When the first
    transform found a message to place, it has emptied the list and
    the second appends nothing and changes nothing; when it found
    none, it changed nothing and the second appends exactly the listed
    messages without parent. *)
Theorem Messages_then_TestMessages σ :
  is_Some (heap σ !! document σ) →
  (∀ m, m ∈ transform_messages σ →
        ∃ nd level, heap σ !! m = Some nd
                    ∧ attributes nd !! "level" = Some (VInt level)) →
  ∃ σ1 σ2 added,
    Messages_apply σ = Ok tt σ1
    ∧ TestMessages_apply σ1 = Ok tt σ2
    ∧ field children σ2 (document σ)
      = (λ l, l ++ added) <$> field children σ1 (document σ)
    ∧ (∀ m, m ∈ added →
         m ∈ transform_messages σ
         ∧ ∃ level,
             field (λ nd, attributes nd !! "level") σ m
               = Some (Some (VInt level))
             ∧ (level < report_level σ)%Z)
    ∧ (filter (qualifies σ) (transform_messages σ) ≠ [] →
       transform_messages σ1 = [] ∧ added = [] ∧ σ2 = σ1)
    ∧ (filter (qualifies σ) (transform_messages σ) = [] →
       σ1 = σ
       ∧ ∀ m, m ∈ added ↔
              m ∈ transform_messages σ ∧ field parent σ m = Some None).
Proof.
  intros Hdoc Hlevels.
  destruct (Messages_apply_Ok σ Hdoc Hlevels) as (σ1 & Hrun & Hnone & Hsome).
  exists σ1.
  destruct (decide (filter (qualifies σ) (transform_messages σ) = []))
    as [Hq|Hq].
  - pose proof (Hnone Hq) as ->.
    destruct (TestMessages_loop (transform_messages σ) σ Hdoc)
      as (σ2 & added & Hrun2 & _ & _ & Hch & Hin & _).
    { intros m Hm. destruct (Hlevels m Hm) as (? & ? & ? & _). eauto. }
    exists σ2, added. split; [done|]. split.
    { unfold TestMessages_apply. by erewrite bind_Ok; [|reflexivity]. }
    split; [done|].
    split; [|split; [done|by intros _]].
    intros m Hm. apply Hin in Hm as [Hm Hpar]. split; [done|].
    destruct (Hlevels m Hm) as (nd & level & Hnd & Hlv).
    exists level. split. { unfold field. by rewrite Hnd, <-Hlv. }
    assert (Hnot : qualifies σ m = false).
    { destruct (qualifies σ m) eqn:Hyes; [|done].
      assert (m ∈ filter (qualifies σ) (transform_messages σ)) as Hin'.
      { apply list_elem_of_filter. split; [by rewrite Hyes|done]. }
      rewrite Hq in Hin'. by apply elem_of_nil in Hin'. }
    unfold qualifies in Hnot. rewrite Hnd, Hlv in Hnot.
    apply field_Some in Hpar as (nd' & Hnd' & Hpar).
    assert (nd' = nd) as -> by congruence.
    rewrite Hpar, bool_decide_eq_true_2, andb_true_r in Hnot by done.
    by apply Z.leb_gt in Hnot.
  - exists σ1, []. split; [done|]. split.
    { unfold TestMessages_apply. erewrite bind_Ok; [|reflexivity].
      by rewrite (Hsome Hq). }
    split. { by destruct (field children σ1 (document σ)); cbn;
               rewrite ?app_nil_r. }
    split; [|split; [by intros _; rewrite (Hsome Hq)|done]].
    intros m Hm. by apply elem_of_nil in Hm.
Qed.

Lemma Messages_then_TestMessages_witness :
  ∃ σ1 σ2, Messages_apply attached_message_doc = Ok tt σ1
           ∧ TestMessages_apply σ1 = Ok tt σ2
           ∧ field children σ2 0 = Some [1; 3].
Proof.
  destruct (Messages_then_TestMessages attached_message_doc)
    as (σ1 & σ2 & added & Hrun1 & Hrun2 & _).
  - by eexists.
  - intros m Hm. vm_compute in Hm.
    apply elem_of_cons in Hm as [->|Hm]; [by eexists _, _|].
    apply elem_of_cons in Hm as [->|Hm]; [by eexists _, _|].
    by apply elem_of_nil in Hm.
  - exists σ1, σ2. split; [exact Hrun1|]. split; [exact Hrun2|].
    vm_compute in Hrun1. injection Hrun1 as <-.
    vm_compute in Hrun2. injection Hrun2 as <-. by vm_compute.
Defined.

(** ** FinalChecks: targets nothing refers to *)

Lemma reporter_info_Ok σ message ln :
  reporter_info message ln σ =
  Ok (fresh (dom (heap σ)))
     (with_transform_messages (λ l, l ++ [fresh (dom (heap σ))])
        (with_heap
           <[fresh (dom (heap σ)) :=
               new_node nodes.system_message message message
                 {["level" := VInt 1]} ln]> σ)).
Proof. reflexivity. Qed.

Lemma check_target_skip σ t :
  is_Some (heap σ !! t) → unreferenced σ t = false →
  check_target t σ = Ok tt σ.
Proof.
  intros [nd Hnd] Hun. unfold unreferenced in Hun. rewrite Hnd in Hun.
  unfold check_target.
  rewrite (bind_Ok _ _ _ _ _ (get_node_Ok _ _ _ Hnd)). by rewrite Hun.
Qed.

Lemma check_target_report σ t nd name :
  heap σ !! t = Some nd → unreferenced σ t = true →
  naming nd = Some name →
  check_target t σ =
  Ok tt
     (with_transform_messages (λ l, l ++ [fresh (dom (heap σ))])
        (with_heap
           <[fresh (dom (heap σ)) :=
               new_node nodes.system_message
                 (unreferenced_target_text name)
                 (unreferenced_target_text name)
                 {["level" := VInt 1]} (line nd)]> σ)).
Proof.
  intros Hnd Hun Hname. unfold unreferenced in Hun. rewrite Hnd in Hun.
  unfold check_target.
  rewrite (bind_Ok _ _ _ _ _ (get_node_Ok _ _ _ Hnd)). rewrite Hun.
  unfold naming in Hname.
  erewrite bind_Ok.
  2:{ destruct (list_attribute nd "names") as [|n0 ?]; cbn in Hname.
      - destruct (list_attribute nd "ids") as [|i0 ?]; cbn in Hname.
        + destruct (attributes nd !! "refid") as [[r| |]|] eqn:Hr; try done.
          injection Hname as ->. by eapply getitem_str_Ok.
        + injection Hname as ->. reflexivity.
      - injection Hname as ->. reflexivity. }
  erewrite bind_Ok; [|apply reporter_info_Ok]. reflexivity.
Qed.

Lemma check_targets_Ok targets : ∀ σ,
  (∀ t, t ∈ targets →
        ∃ nd, heap σ !! t = Some nd
              ∧ (unreferenced σ t = true → is_Some (naming nd))) →
  ∃ σ' msgs,
    for_each check_target targets σ = Ok tt σ'
    ∧ transform_messages σ' = transform_messages σ ++ msgs
    ∧ Forall2 (reports_target σ σ') msgs (filter (unreferenced σ) targets)
    ∧ NoDup msgs
    ∧ (∀ n nd, heap σ !! n = Some nd → heap σ' !! n = Some nd)
    ∧ document σ' = document σ.
Proof.
  induction targets as [|t targets IH]; intros σ Hall.
  { exists σ, []. rewrite app_nil_r. repeat split; try done; constructor. }
  destruct (Hall t) as (nd & Hnd & Hname); [by left|].
  cbn [for_each]. rewrite filter_cons.
  destruct (decide (unreferenced σ t)) as [Hun|Hun].
  - apply Is_true_true in Hun.
    destruct (Hname Hun) as [name Hnm].
    set (msg := fresh (dom (heap σ))).
    assert (Hfresh : heap σ !! msg = None) by apply fresh_heap.
    set (σ1 := with_transform_messages (λ l, l ++ [msg])
                 (with_heap
                    <[msg := new_node nodes.system_message
                               (unreferenced_target_text name)
                               (unreferenced_target_text name)
                               {["level" := VInt 1]} (line nd)]> σ)).
    assert (Hold : ∀ n x, heap σ !! n = Some x → heap σ1 !! n = Some x).
    { intros n x Hn. cbn. rewrite lookup_insert_ne by congruence. done. }
    assert (Hsame : ∀ n, is_Some (heap σ !! n) →
                         unreferenced σ1 n = unreferenced σ n).
    { intros n [x Hn]. unfold unreferenced. by rewrite (Hold n x Hn), Hn. }
    destruct (IH σ1) as (σ' & msgs & Hrun & Htm & Hrep & Hnd' & Hframe & Hdoc).
    { intros t' Ht'. destruct (Hall t') as (nd' & Hnd' & Hname'); [by right|].
      exists nd'. split; [by apply Hold|]. rewrite Hsame by eauto. done. }
    exists σ', (msg :: msgs).
    split. { erewrite bind_Ok; [exact Hrun|]. by eapply check_target_report. }
    split. { rewrite Htm. cbn. by rewrite <-app_assoc. }
    assert (Hfilter : filter (unreferenced σ1) targets
                      = filter (unreferenced σ) targets).
    { apply filter_ext_elem. intros t' Ht'.
      destruct (Hall t') as (nd' & Hnd'' & _); [by right|].
      rewrite Hsame by eauto. done. }
    rewrite Hfilter in Hrep.
    assert (Hmsg : heap σ' !! msg
                   = Some (new_node nodes.system_message
                             (unreferenced_target_text name)
                             (unreferenced_target_text name)
                             {["level" := VInt 1]} (line nd))).
    { apply Hframe. cbn. apply lookup_insert_eq. }
    assert (Hnew : Forall (λ m, heap σ1 !! m = None) msgs).
    { eapply Forall2_Forall_l; [exact Hrep|].
      apply Forall_forall. by intros y _ x (? & _). }
    split; [|split; [|split]].
    + constructor.
      * unfold reports_target, field.
        rewrite Hmsg, (Hframe t nd (Hold t nd Hnd)). cbn.
        rewrite Hnm. done.
      * eapply Forall2_impl; [exact Hrep|].
        intros m t' (Hm & Hrest). split; [|done].
        destruct (heap σ !! m) as [x|] eqn:Hx; [|done].
        apply Hold in Hx. congruence.
    + apply NoDup_cons. split; [|done].
      intros Hin. apply (proj1 (Forall_forall _ _) Hnew) in Hin.
      cbn in Hin. by rewrite lookup_insert_eq in Hin.
    + intros n x Hn. by apply Hframe, Hold.
    + done.
  - apply Is_true_false in Hun.
    erewrite bind_Ok; [|by apply check_target_skip; eauto].
    apply IH. intros t' Ht'. apply Hall. by right.
Qed.


Lemma FinalCheckVisitor_settled fuel rs σ n :
  settled σ n → FinalCheckVisitor fuel rs n σ = Ok tt σ.
Proof.
  intros (nd & Hnd & Htr & Href). unfold FinalCheckVisitor.
  rewrite (bind_Ok _ _ _ _ _ (get_node_Ok _ _ _ Hnd)).
  assert (Hvisit : kind nd ∈ [nodes.reference; nodes.footnote_reference;
                              nodes.citation_reference] →
                   visit_reference rs n σ = Ok tt σ).
  { intros Hk. unfold visit_reference.
    rewrite (bind_Ok _ _ _ _ _ (get_node_Ok _ _ _ Hnd)).
    destruct (Href Hk) as [Hres|Hname]; [by rewrite Hres|].
    rewrite Hname, bool_decide_eq_false_2 by (by intros [? ?]).
    by rewrite orb_true_r. }
  destruct (kind nd) eqn:Hk; try done; apply Hvisit; set_solver.
Qed.

Lemma walk_unchanged σ v fuel : ∀ t par,
  is_tree σ par t →
  (height t ≤ fuel)%nat →
  (∀ m, m ∈ nodes_of t → v m σ = Ok tt σ) →
  walk fuel v (shape_root t) σ = Ok tt σ.
Proof.
  induction fuel as [|fuel IH]; intros t par Htree Hh Hv.
  { destruct t. cbn in Hh. lia. }
  destruct t as [n cs].
  inversion Htree as [par' n' cs' nd Hn Hpar Hch Hsub]; subst par' n' cs'.
  cbn [walk shape_root nodes_of height] in *.
  erewrite bind_Ok; [|apply Hv; by left].
  rewrite (bind_Ok _ _ _ _ _ (get_node_Ok _ _ _ Hn)). rewrite Hch.
  assert (Hcs : ∀ c, c ∈ cs →
            walk fuel v (shape_root c) σ = Ok tt σ).
  { intros c Hc. apply (IH c (Some n)).
    - by apply (proj1 (Forall_forall _ _) Hsub).
    - pose proof (height_child c cs Hc). lia.
    - intros m Hm. apply Hv. right. by eapply nodes_of_child. }
  clear -Hcs. induction cs as [|c cs IHcs]; [done|].
  cbn [map for_each]. erewrite bind_Ok; [|apply Hcs; by left].
  apply IHcs. intros d Hd. apply Hcs. by right.
Qed.

Lemma traverse_tree σ fuel : ∀ t par,
  is_tree σ par t →
  (height t ≤ fuel)%nat →
  traverse fuel (shape_root t) σ = Ok (nodes_of t) σ.
Proof.
  induction fuel as [|fuel IH]; intros t par Htree Hh.
  { destruct t. cbn in Hh. lia. }
  destruct t as [n cs].
  inversion Htree as [par' n' cs' nd Hn Hpar Hch Hsub]; subst par' n' cs'.
  cbn [traverse shape_root nodes_of height] in *.
  rewrite (bind_Ok _ _ _ _ _ (get_node_Ok _ _ _ Hn)). rewrite Hch.
  assert (Hcs : ∀ c, c ∈ cs →
            traverse fuel (shape_root c) σ = Ok (nodes_of c) σ).
  { intros c Hc. apply (IH c (Some n)).
    - by apply (proj1 (Forall_forall _ _) Hsub).
    - pose proof (height_child c cs Hc). lia. }
  erewrite bind_Ok with (a := map nodes_of cs).
  { by rewrite flat_map_concat_map. }
  clear -Hcs. induction cs as [|c cs IHcs]; [done|].
  cbn [map mapM]. erewrite bind_Ok; [|apply Hcs; by left].
  erewrite bind_Ok; [done|].
  apply IHcs. intros d Hd. apply Hcs. by right.
Qed.

(** X15: on a tree-shaped document without transitions whose
    references are resolved or carry no name, and with
    [expose_internals] off, [FinalChecks.apply] records one
    informational diagnostic (level 1, no parent) for each target that
    is not marked referenced, in document order, naming the target by
    its first name, else its first id, else its [refid]; the nodes of
    the document are left as they were. *)
Theorem FinalChecks_reports_unreferenced fuel rs σ t :
  is_tree σ None t →
  shape_root t = document σ →
  (height t ≤ fuel)%nat →
  (∀ m, m ∈ nodes_of t → settled σ m) →
  (∀ m nd, m ∈ nodes_of t → heap σ !! m = Some nd →
           unreferenced σ m = true → is_Some (naming nd)) →
  ∃ σ' msgs,
    FinalChecks_apply fuel rs None σ = Ok tt σ'
    ∧ transform_messages σ' = transform_messages σ ++ msgs
    ∧ Forall2 (reports_target σ σ') msgs
        (filter (unreferenced σ) (nodes_of t))
    ∧ NoDup msgs
    ∧ (∀ n nd, heap σ !! n = Some nd → heap σ' !! n = Some nd).
Proof.
  intros Htree Hroot Hh Hsettled Hnames.
  destruct (check_targets_Ok (nodes_of t) σ)
    as (σ' & msgs & Hrun & Htm & Hrep & Hnd & Hframe & _).
  { intros m Hm. destruct (Hsettled m Hm) as (nd & Hmnd & _).
    exists nd. split; [done|]. by apply Hnames. }
  exists σ', msgs. split; [|done].
  unfold FinalChecks_apply. erewrite bind_Ok; [|reflexivity].
  rewrite <-Hroot.
  erewrite bind_Ok.
  2:{ apply (walk_unchanged σ _ fuel t None); try done.
      intros m Hm. by apply FinalCheckVisitor_settled, Hsettled. }
  erewrite bind_Ok; [|reflexivity].
  erewrite bind_Ok; [|by apply (traverse_tree σ fuel t None)].
  exact Hrun.
Qed.

Lemma FinalChecks_reports_unreferenced_witness :
  ∃ σ' msg,
    FinalChecks_apply 3 [] None resolved_reference_doc = Ok tt σ'
    ∧ transform_messages σ' = [msg]
    ∧ field text σ' msg
      = Some (unreferenced_target_text "spare").
Proof.
  destruct (FinalChecks_reports_unreferenced 3 [] resolved_reference_doc
              resolved_reference_shape)
    as (σ' & msgs & Hrun & _).
  - repeat (econstructor; try reflexivity).
  - reflexivity.
  - cbn. lia.
  - intros m Hm. cbn in Hm.
    repeat (apply elem_of_cons in Hm as [->|Hm];
            [eexists; split; [reflexivity|];
             split; [discriminate|]; intros _;
             first [by left | by right]|]).
    by apply elem_of_nil in Hm.
  - intros m nd Hm Hnd Hun. cbn in Hm.
    repeat (apply elem_of_cons in Hm as [->|Hm];
            [vm_compute in Hun;
             first [discriminate Hun
                   | vm_compute in Hnd; injection Hnd as <-; by eexists]|]).
    by apply elem_of_nil in Hm.
  - exists σ'. vm_compute in Hrun. injection Hrun as <-.
    eexists. split; [by vm_compute|]. split; by vm_compute.
Defined.

(** A reference whose name resolves leaves its target marked. *)
Lemma visit_reference_marks_target rs σ node nd refname id tgt tnd :
  heap σ !! node = Some nd →
  resolved nd = false →
  attributes nd !! "refname" = Some (VStr refname) →
  nameids σ !! refname = Some (Some id) →
  ids σ !! id = Some tgt →
  heap σ !! tgt = Some tnd →
  ∃ σ' tnd',
    visit_reference rs node σ = Ok tt σ'
    ∧ heap σ' !! tgt = Some tnd'
    ∧ referenced tnd' = true.
Proof.
  intros Hnode Hres Hname Hid Hids Htgt. unfold visit_reference.
  rewrite (bind_Ok _ _ _ _ _ (get_node_Ok _ _ _ Hnode)).
  rewrite Hres, Hname. rewrite bool_decide_eq_true_2 by eauto. cbn [orb negb].
  erewrite bind_Ok; [|by eapply getitem_str_Ok].
  erewrite bind_Ok; [|reflexivity]. rewrite Hid. cbn [mjoin option_join].
  erewrite bind_Ok; [|by apply update_node_Ok].
  erewrite bind_Ok; [|apply update_node_Ok; cbn; apply lookup_insert_eq].
  erewrite bind_Ok; [|erewrite bind_Ok; [|reflexivity]; cbn; rewrite Hids; reflexivity].
  unfold note_referenced_by.
  destruct (decide (tgt = node)) as [->|Hne].
  - erewrite bind_Ok; [|apply update_node_Ok; cbn; apply lookup_insert_eq].
    erewrite update_node_Ok; [|cbn; apply lookup_insert_eq].
    eexists _, _. split; [reflexivity|]. cbn.
    rewrite lookup_insert_eq. split; reflexivity.
  - erewrite bind_Ok;
      [|apply update_node_Ok; cbn; rewrite !lookup_insert_ne by done; exact Htgt].
    erewrite update_node_Ok;
      [|cbn; rewrite lookup_insert_ne by done; apply lookup_insert_eq].
    eexists _, _. split; [reflexivity|]. cbn.
    rewrite lookup_insert_ne by done. rewrite lookup_insert_eq.
    split; reflexivity.
Qed.

(** X16: once the visitor has resolved a reference, the check for
    unreferenced targets passes over the node the reference's id
    belongs to: no diagnostic is made for it. *)
Theorem resolved_target_not_reported fuel rs σ node nd refname id tgt tnd :
  heap σ !! node = Some nd →
  kind nd ∈ [nodes.reference; nodes.footnote_reference;
             nodes.citation_reference] →
  resolved nd = false →
  attributes nd !! "refname" = Some (VStr refname) →
  nameids σ !! refname = Some (Some id) →
  ids σ !! id = Some tgt →
  heap σ !! tgt = Some tnd →
  ∃ σ',
    FinalCheckVisitor fuel rs node σ = Ok tt σ'
    ∧ check_target tgt σ' = Ok tt σ'.
Proof.
  intros Hnode Hkind Hres Hname Hid Hids Htgt.
  destruct (visit_reference_marks_target rs σ node nd refname id tgt tnd)
    as (σ' & tnd' & Hrun & Htgt' & Hmark); try done.
  exists σ'. split.
  { by erewrite FinalCheckVisitor_reference. }
  apply check_target_skip; [by eauto|].
  unfold unreferenced. rewrite Htgt', Hmark. by rewrite andb_false_r.
Qed.

Lemma resolved_target_not_reported_witness :
  ∃ σ', FinalCheckVisitor 0 [] 2 reference_doc = Ok tt σ'
        ∧ check_target 4 σ' = Ok tt σ'.
Proof.
  apply (resolved_target_not_reported 0 [] reference_doc 2
           (mkNode nodes.reference [] (Some 1)
              {["refname" := VStr "known"]}
              false false "known_" "known" None)
           "known" "id1" 4
           (mkNode nodes.target [] (Some 0) {["ids" := VList ["id1"]]}
              false false EmptyString EmptyString None));
    [reflexivity|apply list_elem_of_here|reflexivity|reflexivity
    |reflexivity|reflexivity|reflexivity].
Defined.




(** ** io.py: files *)

Lemma bind_inr {A B} (m : io.W A) (k : A → io.W B) w a w' :
  m w = (inr a, w') → @mbind io.W io.W_bind A B k m w = k a w'.
Proof. unfold mbind, io.W_bind. by intros ->. Qed.

Lemma bind_inl {A B} (m : io.W A) (k : A → io.W B) w e w' :
  m w = (inl e, w') → @mbind io.W io.W_bind A B k m w = (inl e, w').
Proof. unfold mbind, io.W_bind. by intros ->. Qed.

Lemma fresh_object (o : gmap nat io.File) : o !! fresh (dom o) = None.
Proof. apply not_elem_of_dom, is_fresh. Qed.

Lemma get_file_inr w f x :
  io.objects w !! f = Some x → io.get_file f w = (inr x, w).
Proof. unfold io.get_file. by intros ->. Qed.

Lemma open_write_inr w p :
  p ≠ EmptyString →
  io.open_ (Some p) io.Writing w
  = (inr (fresh (dom (io.objects w))),
     io.with_disk <[p := []]>
       (io.with_objects
          <[fresh (dom (io.objects w))
              := io.mkFile (Some p) io.Writing (Some p) [] false]> w)).
Proof.
  intros Hp. unfold io.open_. by rewrite bool_decide_eq_false_2.
Qed.

Lemma open_read_inr w p content :
  p ≠ EmptyString →
  io.disk w !! p = Some content →
  io.open_ (Some p) io.Reading w
  = (inr (fresh (dom (io.objects w))),
     io.with_objects
       <[fresh (dom (io.objects w))
           := io.mkFile (Some p) io.Reading (Some p) content false]> w).
Proof.
  intros Hp Hc. unfold io.open_. rewrite bool_decide_eq_false_2 by done.
  by rewrite Hc.
Qed.

Lemma file_write_inr w f x s :
  io.objects w !! f = Some x →
  io.file_closed x = false →
  io.file_mode x = io.Writing →
  io.file_write f s w
  = (inr tt,
     io.with_objects
       <[f := io.mkFile (io.file_name x) io.Writing (io.file_path x)
                (io.file_data x ++ s) false]> w).
Proof.
  intros Hx Hopen Hmode. unfold io.file_write.
  erewrite bind_inr; [|by apply get_file_inr].
  by rewrite Hopen, Hmode.
Qed.

Lemma file_read_inr w f x :
  io.objects w !! f = Some x →
  io.file_closed x = false →
  io.file_mode x = io.Reading →
  io.file_read f w
  = (inr (io.file_data x),
     io.with_objects
       <[f := io.mkFile (io.file_name x) io.Reading (io.file_path x)
                [] false]> w).
Proof.
  intros Hx Hopen Hmode. unfold io.file_read.
  erewrite bind_inr; [|by apply get_file_inr].
  rewrite Hopen, Hmode.
  by erewrite bind_inr; [|reflexivity].
Qed.

Lemma file_read_closed w f x :
  io.objects w !! f = Some x →
  io.file_closed x = true →
  io.file_read f w = (inl (io.Exn ValueError), w).
Proof.
  intros Hx Hclosed. unfold io.file_read.
  erewrite bind_inr; [|by apply get_file_inr]. by rewrite Hclosed.
Qed.

Lemma file_close_inr w f x :
  io.objects w !! f = Some x →
  io.file_closed x = false →
  io.file_close f w
  = (inr tt,
     (match io.file_mode x, io.file_path x with
      | io.Writing, Some p => io.with_disk <[p := io.file_data x]>
      | _, _ => id
      end)
       (io.with_objects
          <[f := io.mkFile (io.file_name x) (io.file_mode x)
                   (io.file_path x) (io.file_data x) true]> w)).
Proof.
  intros Hx Hopen. unfold io.file_close.
  erewrite bind_inr; [|by apply get_file_inr].
  rewrite Hopen. erewrite bind_inr; [|reflexivity].
  by destruct (io.file_mode x), (io.file_path x).
Qed.

Lemma FileOutput_init_path options p autoclose w :
  p ≠ EmptyString →
  io.FileOutput_init options None (Some p) autoclose w
  = (inr (io.mkFileOutput options None (Some p) autoclose false), w).
Proof.
  intros Hp. unfold io.FileOutput_init. cbn [io.falsy].
  rewrite bool_decide_eq_false_2 by done. reflexivity.
Qed.

(** One write through a [FileOutput] that has not opened its path
    yet: the path is truncated, the output goes to a new file object
    and, with [autoclose], from there to the path. *)
Lemma FileOutput_write_unopened py options d p autoclose enc data output w :
  p ≠ EmptyString →
  io.output_encoding options = Some enc →
  io.encode py data enc = inr output →
  let f := fresh (dom (io.objects w)) in
  io.FileOutput_write py
    (io.mkFileOutput options d (Some p) autoclose false) data w
  = (inr (output, io.mkFileOutput options (Some f) (Some p) autoclose
                    (negb autoclose)),
     io.with_disk <[p := if autoclose then output else []]>
       (io.with_objects
          <[f := io.mkFile (Some p) io.Writing (Some p) output autoclose]>
          w)).
Proof.
  intros Hp Henc Hout f. unfold io.FileOutput_write.
  cbn [io.FileOutput_options io.opened io.FileOutput_autoclose].
  rewrite Henc. cbn [io.unicode_encode]. rewrite Hout. cbn [io.lift].
  erewrite bind_inr; [|reflexivity].
  erewrite bind_inr.
  2:{ unfold io.FileOutput_open. cbn [io.destination_path].
      erewrite bind_inr; [|by apply open_write_inr]. reflexivity. }
  fold f. cbn [io.destination io.attribute_of].
  erewrite bind_inr; [|reflexivity].
  erewrite bind_inr.
  2:{ eapply file_write_inr; [cbn; apply lookup_insert_eq|done|done]. }
  cbn [io.file_path io.file_data io.file_name app
       io.FileOutput_autoclose].
  destruct autoclose.
  - erewrite bind_inr.
    2:{ unfold io.FileOutput_close. cbn [io.destination io.attribute_of].
        erewrite bind_inr; [|reflexivity].
        erewrite bind_inr; [reflexivity|].
        eapply file_close_inr; [cbn; apply lookup_insert_eq|done]. }
    cbn. unfold io.with_disk, io.with_objects. cbn.
    by rewrite !insert_insert_eq.
  - erewrite bind_inr; [|reflexivity].
    cbn. unfold io.with_disk, io.with_objects. cbn.
    by rewrite !insert_insert_eq.
Qed.

(** A further write through a [FileOutput] that holds an open file
    object goes to that object and leaves it open. *)
Lemma FileOutput_write_opened py options f x p enc data output w :
  io.objects w !! f = Some x →
  io.file_closed x = false →
  io.file_mode x = io.Writing →
  io.output_encoding options = Some enc →
  io.encode py data enc = inr output →
  io.FileOutput_write py
    (io.mkFileOutput options (Some f) p false true) data w
  = (inr (output, io.mkFileOutput options (Some f) p false true),
     io.with_objects
       <[f := io.mkFile (io.file_name x) io.Writing (io.file_path x)
                (io.file_data x ++ output) false]> w).
Proof.
  intros Hx Hopen Hmode Henc Hout. unfold io.FileOutput_write.
  cbn [io.FileOutput_options io.opened io.FileOutput_autoclose
       io.destination io.attribute_of].
  rewrite Henc. cbn [io.unicode_encode]. rewrite Hout. cbn [io.lift].
  erewrite bind_inr; [|reflexivity].
  erewrite bind_inr; [|reflexivity].
  cbn [io.destination io.attribute_of io.FileOutput_autoclose].
  erewrite bind_inr; [|reflexivity].
  erewrite bind_inr; [|by eapply file_write_inr].
  by erewrite bind_inr; [|reflexivity].
Qed.

(** [FileOutput.close] on an open file object that was opened on a
    path: the path holds what was written to the object. *)
Lemma FileOutput_close_flushes options f x p q autoclose opened w :
  io.objects w !! f = Some x →
  io.file_closed x = false →
  io.file_mode x = io.Writing →
  io.file_path x = Some q →
  io.FileOutput_close (io.mkFileOutput options (Some f) p autoclose opened) w
  = (inr (io.mkFileOutput options (Some f) p autoclose false),
     io.with_disk <[q := io.file_data x]>
       (io.with_objects
          <[f := io.mkFile (io.file_name x) io.Writing (Some q)
                   (io.file_data x) true]> w)).
Proof.
  intros Hx Hopen Hmode Hpath. unfold io.FileOutput_close.
  cbn [io.destination io.attribute_of].
  erewrite bind_inr; [|reflexivity].
  erewrite bind_inr; [|by eapply file_close_inr].
  by rewrite Hmode, Hpath.
Qed.

(** X17: a [FileOutput] made from a path alone opens nothing when
    it is made; [write] encodes the data first, so a write whose
    encoding fails raises with the file system untouched (the file is
    neither created nor truncated); a write whose encoding succeeds
    opens the path, writes exactly the output to the new file object
    and returns the output.  With [autoclose] it then closes the
    object, and the file holds exactly the output; without it the
    object stays open. *)
Theorem FileOutput_opens_on_write py options p autoclose data w :
  p ≠ EmptyString →
  ∃ self,
    io.FileOutput_init options None (Some p) autoclose w = (inr self, w)
    ∧ (∀ e,
         io.unicode_encode py data (io.output_encoding options) = inl e →
         io.FileOutput_write py self data w = (inl (io.Exn e), w))
    ∧ (∀ output,
         io.unicode_encode py data (io.output_encoding options) = inr output →
         ∃ self' f w',
           io.objects w !! f = None
           ∧ io.FileOutput_write py self data w = (inr (output, self'), w')
           ∧ io.objects w'
             = <[f := io.mkFile (Some p) io.Writing (Some p) output
                        autoclose]> (io.objects w)
           ∧ (autoclose = true →
              io.disk w' = <[p := output]> (io.disk w))
           ∧ io.destination self' = Some f
           ∧ io.opened self' = negb autoclose).
Proof.
  intros Hp. eexists. split; [by apply FileOutput_init_path|]. split.
  - intros e He. unfold io.FileOutput_write.
    cbn [io.FileOutput_options]. rewrite He.
    by erewrite bind_inl; [|reflexivity].
  - intros output Hout.
    destruct (io.output_encoding options) as [enc|] eqn:Henc; [|done].
    eexists _, (fresh (dom (io.objects w))), _.
    split; [apply fresh_object|].
    split; [by eapply FileOutput_write_unopened|].
    split; [done|]. split; [by intros ->|done].
Qed.

Lemma FileOutput_opens_on_write_witness :
  ∃ self,
    io.FileOutput_init (io.mkValues None (Some "latin-1")) None
      (Some "out.txt") true io.empty_world = (inr self, io.empty_world)
    ∧ io.FileOutput_write io.latin1_only self [8364%N] io.empty_world
      = (inl (io.Exn UnicodeError), io.empty_world)
    ∧ ∃ self' w',
        io.FileOutput_write io.latin1_only self [233%N] io.empty_world
        = (inr ([Byte.xe9], self'), w')
        ∧ io.disk w' !! "out.txt" = Some [Byte.xe9].
Proof.
  destruct (FileOutput_opens_on_write io.latin1_only
              (io.mkValues None (Some "latin-1")) "out.txt" true
              [233%N] io.empty_world)
    as (self & Hinit & _ & Hwrite); [discriminate|].
  destruct (FileOutput_opens_on_write io.latin1_only
              (io.mkValues None (Some "latin-1")) "out.txt" true
              [8364%N] io.empty_world)
    as (self0 & Hinit0 & Hfail & _); [discriminate|].
  assert (self0 = self) as -> by congruence.
  exists self. split; [exact Hinit|].
  split; [by apply Hfail|].
  destruct (Hwrite [Byte.xe9]) as (self' & f & w' & _ & Hrun & _ & Hdisk & _);
    [reflexivity|].
  exists self', w'. split; [exact Hrun|].
  rewrite (Hdisk eq_refl). apply lookup_insert_eq.
Defined.

(** X18: two writes through a [FileOutput] made from a path.  With
    [autoclose] the second write opens the path again and the file
    holds the second output only.  Without [autoclose] both writes go
    to one file object, which stays open and holds the two outputs in
    order; once the [FileOutput] is closed the file holds them. *)
Theorem FileOutput_write_again
    py options p autoclose enc data1 data2 out1 out2 w :
  p ≠ EmptyString →
  io.output_encoding options = Some enc →
  io.encode py data1 enc = inr out1 →
  io.encode py data2 enc = inr out2 →
  ∃ self1 w1 self2 w2,
    io.FileOutput_write py
      (io.mkFileOutput options None (Some p) autoclose false) data1 w
    = (inr (out1, self1), w1)
    ∧ io.FileOutput_write py self1 data2 w1 = (inr (out2, self2), w2)
    ∧ (autoclose = true →
       io.destination self2 ≠ io.destination self1
       ∧ io.disk w2 = <[p := out2]> (io.disk w))
    ∧ (autoclose = false →
       ∃ f self3 w3,
         io.destination self1 = Some f ∧ io.destination self2 = Some f
         ∧ io.objects w2 !! f
           = Some (io.mkFile (Some p) io.Writing (Some p) (out1 ++ out2)
                     false)
         ∧ io.FileOutput_close self2 w2 = (inr self3, w3)
         ∧ io.disk w3 = <[p := out1 ++ out2]> (io.disk w)).
Proof.
  intros Hp Henc Hout1 Hout2.
  assert (Hfirst := FileOutput_write_unopened py options None p autoclose enc
                      data1 out1 w Hp Henc Hout1).
  cbv zeta in Hfirst.
  set (f := fresh (dom (io.objects w))) in *.
  destruct autoclose.
  - eexists _, _, _, _. split; [exact Hfirst|]. split.
    { by eapply FileOutput_write_unopened. }
    split; [|done]. intros _. split.
    + cbn. intros [= Heq].
      pose proof (fresh_object
                    (<[f := io.mkFile (Some p) io.Writing (Some p) out1 true]>
                       (io.objects w))) as Hfresh.
      rewrite Heq in Hfresh. by rewrite lookup_insert_eq in Hfresh.
    + cbn. by rewrite insert_insert_eq.
  - cbn [negb] in Hfirst.
    eexists _, _, _, _. split; [exact Hfirst|]. split.
    { eapply FileOutput_write_opened; [cbn; apply lookup_insert_eq|done..]. }
    split; [done|]. intros _.
    eexists f, _, _. split; [done|]. split; [done|].
    split. { cbn. by rewrite lookup_insert_eq. }
    split.
    { eapply FileOutput_close_flushes; [cbn; apply lookup_insert_eq|done..]. }
    cbn. by rewrite insert_insert_eq.
Qed.

Lemma FileOutput_write_again_witness :
  ∃ self1 w1 self2 w2 self3 w3,
    io.FileOutput_write io.latin1_only
      (io.mkFileOutput (io.mkValues None (Some "latin-1")) None
         (Some "out.txt") false false) [97%N] io.empty_world
    = (inr ([Byte.x61], self1), w1)
    ∧ io.FileOutput_write io.latin1_only self1 [98%N] w1
      = (inr ([Byte.x62], self2), w2)
    ∧ io.FileOutput_close self2 w2 = (inr self3, w3)
    ∧ io.disk w3 !! "out.txt" = Some [Byte.x61; Byte.x62].
Proof.
  destruct (FileOutput_write_again io.latin1_only
              (io.mkValues None (Some "latin-1")) "out.txt" false "latin-1"
              [97%N] [98%N] [Byte.x61] [Byte.x62] io.empty_world)
    as (self1 & w1 & self2 & w2 & H1 & H2 & _ & Hopen);
    [discriminate|reflexivity|reflexivity|reflexivity|].
  destruct (Hopen eq_refl) as (f & self3 & w3 & _ & _ & _ & H3 & Hdisk).
  exists self1, w1, self2, w2, self3, w3.
  split; [exact H1|]. split; [exact H2|]. split; [exact H3|].
  rewrite Hdisk. apply lookup_insert_eq.
Defined.

(** X19: a [FileOutput] made without destination and path writes to
    [sys.stdout], takes the stream's name as its path and never closes
    it, whatever [autoclose] was asked for: the object is unchanged by
    a write and the stream holds the output and is still open. *)
Theorem FileOutput_stdout_stays_open py options autoclose enc data output w x :
  io.objects w !! io.stdout w = Some x →
  io.file_closed x = false →
  io.file_mode x = io.Writing →
  io.output_encoding options = Some enc →
  io.encode py data enc = inr output →
  ∃ self w',
    io.FileOutput_init options None None autoclose w = (inr self, w)
    ∧ io.destination self = Some (io.stdout w)
    ∧ io.destination_path self = io.file_name x
    ∧ io.FileOutput_autoclose self = false
    ∧ io.FileOutput_write py self data w = (inr (output, self), w')
    ∧ io.stdout w' = io.stdout w
    ∧ io.objects w' !! io.stdout w
      = Some (io.mkFile (io.file_name x) io.Writing (io.file_path x)
                (io.file_data x ++ output) false).
Proof.
  intros Hx Hopen Hmode Henc Hout.
  eexists _, _. split.
  { unfold io.FileOutput_init. cbn [io.falsy].
    erewrite bind_inr; [|reflexivity]. cbv beta iota.
    erewrite bind_inr.
    2:{ erewrite bind_inr; [|by apply get_file_inr]. reflexivity. }
    reflexivity. }
  cbn [io.destination io.destination_path io.FileOutput_autoclose].
  split; [done|]. split; [by destruct (io.file_name x)|]. split; [done|].
  split.
  { unfold io.FileOutput_write.
    cbn [io.FileOutput_options io.opened io.FileOutput_autoclose
         io.destination io.attribute_of].
    rewrite Henc. cbn [io.unicode_encode]. rewrite Hout. cbn [io.lift].
    erewrite bind_inr; [|reflexivity].
    erewrite bind_inr; [|reflexivity].
    cbn [io.destination io.attribute_of io.FileOutput_autoclose].
    erewrite bind_inr; [|reflexivity].
    erewrite bind_inr; [|by eapply file_write_inr].
    erewrite bind_inr; [|reflexivity]. reflexivity. }
  destruct (io.file_path x); cbn; by rewrite lookup_insert_eq.
Qed.

Lemma FileOutput_stdout_stays_open_witness :
  ∃ self w',
    io.FileOutput_init (io.mkValues None (Some "latin-1")) None None true
      io.empty_world = (inr self, io.empty_world)
    ∧ io.FileOutput_write io.latin1_only self [233%N] io.empty_world
      = (inr ([Byte.xe9], self), w')
    ∧ io.file_closed <$> io.objects w' !! 1 = Some false.
Proof.
  destruct (FileOutput_stdout_stays_open io.latin1_only
              (io.mkValues None (Some "latin-1")) true "latin-1"
              [233%N] [Byte.xe9] io.empty_world
              (io.mkFile (Some "<stdout>") io.Writing None [] false))
    as (self & w' & Hinit & _ & _ & _ & Hwrite & _ & Hobj);
    [reflexivity|reflexivity|reflexivity|reflexivity|reflexivity|].
  exists self, w'. split; [exact Hinit|]. split; [exact Hwrite|].
  cbn in Hobj. by rewrite Hobj.
Defined.

Lemma lift_inr {A} (r : exn + A) a w :
  r = inr a → io.lift r w = (inr a, w).
Proof. by intros ->. Qed.

(** Opening a path for reading and reading it once. *)
Lemma FileInput_init_read py options p autoclose content decoded w :
  p ≠ EmptyString →
  io.disk w !! p = Some content →
  io.Input_decode py options (io.Str content) = inr decoded →
  let f := fresh (dom (io.objects w)) in
  let self := io.mkFileInput options f (Some p) autoclose in
  let w0 := io.with_objects
              <[f := io.mkFile (Some p) io.Reading (Some p) content false]>
              w in
  let w1 := io.with_objects
              <[f := io.mkFile (Some p) io.Reading (Some p) [] autoclose]>
              w in
  io.FileInput_init options None (Some p) autoclose w = (inr self, w0)
  ∧ io.FileInput_read py self w0 = (inr decoded, w1)
  ∧ io.FileInput_read py self w1
    = if autoclose then (inl (io.Exn ValueError), w1)
      else io.lift (io.Input_decode py options (io.Str [])) w1.
Proof.
  intros Hp Hdisk Hdec f self w0 w1. subst self w0 w1.
  split.
  { unfold io.FileInput_init. cbn [io.falsy].
    rewrite bool_decide_eq_false_2 by done.
    erewrite bind_inr.
    2:{ erewrite bind_inr; [|by eapply open_read_inr]. reflexivity. }
    reflexivity. }
  destruct autoclose.
  - split.
    { unfold io.FileInput_read. cbn [io.source io.FileInput_autoclose].
      erewrite bind_inr.
      2:{ eapply file_read_inr; [cbn; apply lookup_insert_eq|done|done]. }
      erewrite bind_inr.
      2:{ unfold io.FileInput_close. cbn [io.source].
          eapply file_close_inr; [cbn; apply lookup_insert_eq|done]. }
      cbn [io.file_data io.FileInput_options io.file_name io.file_path
           io.file_mode].
      unfold io.with_objects. cbn. rewrite !insert_insert_eq.
      by apply lift_inr. }
    unfold io.FileInput_read. cbn [io.source].
    erewrite bind_inl; [done|].
    eapply file_read_closed; [cbn; apply lookup_insert_eq|done].
  - split.
    { unfold io.FileInput_read. cbn [io.source io.FileInput_autoclose].
      erewrite bind_inr.
      2:{ eapply file_read_inr; [cbn; apply lookup_insert_eq|done|done]. }
      erewrite bind_inr; [|reflexivity].
      cbn [io.file_data io.FileInput_options io.file_name io.file_path].
      unfold io.with_objects. cbn. rewrite !insert_insert_eq.
      by apply lift_inr. }
    unfold io.FileInput_read. cbn [io.source io.FileInput_autoclose].
    erewrite bind_inr.
    2:{ eapply file_read_inr; [cbn; apply lookup_insert_eq|done|done]. }
    erewrite bind_inr; [|reflexivity].
    cbn [io.file_data io.FileInput_options io.file_name io.file_path].
    unfold io.with_objects. cbn. by rewrite !insert_insert_eq.
Qed.

(** X20: a [FileInput] made from a path opens the file at once; its
    [read] returns the decoded content of the file and leaves the file
    system as it was.  With [autoclose] the file object is closed by
    the first [read] and a second [read] raises [ValueError]; without
    it the object stays open and a second [read] decodes the empty
    string. *)
Theorem FileInput_read_once py options p autoclose content decoded w :
  p ≠ EmptyString →
  io.disk w !! p = Some content →
  io.Input_decode py options (io.Str content) = inr decoded →
  ∃ self w0 w1,
    io.FileInput_init options None (Some p) autoclose w = (inr self, w0)
    ∧ io.source_path self = Some p
    ∧ io.objects w !! io.source self = None
    ∧ io.FileInput_read py self w0 = (inr decoded, w1)
    ∧ io.disk w1 = io.disk w
    ∧ io.file_closed <$> io.objects w1 !! io.source self = Some autoclose
    ∧ io.FileInput_read py self w1
      = if autoclose then (inl (io.Exn ValueError), w1)
        else io.lift (io.Input_decode py options (io.Str [])) w1.
Proof.
  intros Hp Hdisk Hdec.
  destruct (FileInput_init_read py options p autoclose content decoded w
              Hp Hdisk Hdec) as (Hinit & Hread & Hagain).
  eexists _, _, _. split; [exact Hinit|].
  cbn [io.source io.source_path].
  split; [done|]. split; [apply fresh_object|].
  split; [exact Hread|]. split; [done|].
  split; [cbn; by rewrite lookup_insert_eq|]. exact Hagain.
Qed.

Lemma FileInput_read_once_witness :
  ∃ self w0 w1,
    io.FileInput_init (io.mkValues (Some "latin-1") None) None
      (Some "in.txt") true io.one_file_world = (inr self, w0)
    ∧ io.FileInput_read io.latin1_only self w0 = (inr [233%N], w1)
    ∧ io.FileInput_read io.latin1_only self w1
      = (inl (io.Exn ValueError), w1).
Proof.
  destruct (FileInput_read_once io.latin1_only
              (io.mkValues (Some "latin-1") None) "in.txt" true
              [Byte.xe9] [233%N] io.one_file_world)
    as (self & w0 & w1 & Hinit & _ & _ & Hread & _ & _ & Hagain);
    [discriminate|reflexivity|reflexivity|].
  by exists self, w0, w1.
Defined.

(** X21: a [FileInput] made without source and path reads
    [sys.stdin], takes the stream's name as its path and never closes
    it, whatever [autoclose] was asked for. *)
Theorem FileInput_stdin_stays_open py options autoclose decoded w x :
  io.objects w !! io.stdin w = Some x →
  io.file_closed x = false →
  io.file_mode x = io.Reading →
  io.Input_decode py options (io.Str (io.file_data x)) = inr decoded →
  ∃ self w',
    io.FileInput_init options None None autoclose w = (inr self, w)
    ∧ io.source self = io.stdin w
    ∧ io.source_path self = io.file_name x
    ∧ io.FileInput_autoclose self = false
    ∧ io.FileInput_read py self w = (inr decoded, w')
    ∧ io.stdin w' = io.stdin w
    ∧ io.file_closed <$> io.objects w' !! io.stdin w = Some false.
Proof.
  intros Hx Hopen Hmode Hdec.
  eexists _, _. split.
  { unfold io.FileInput_init. cbn [io.falsy].
    erewrite bind_inr.
    2:{ erewrite bind_inr; [|reflexivity]. reflexivity. }
    cbv beta iota.
    erewrite bind_inr.
    2:{ erewrite bind_inr; [|by apply get_file_inr]. reflexivity. }
    reflexivity. }
  cbn [io.source io.source_path io.FileInput_autoclose].
  split; [done|]. split; [by destruct (io.file_name x)|]. split; [done|].
  split.
  { unfold io.FileInput_read. cbn [io.source io.FileInput_autoclose].
    erewrite bind_inr; [|by eapply file_read_inr].
    erewrite bind_inr; [|reflexivity].
    cbn [io.FileInput_options]. by apply lift_inr. }
  cbn. by rewrite lookup_insert_eq.
Qed.

Lemma FileInput_stdin_stays_open_witness :
  ∃ self w',
    io.FileInput_init (io.mkValues (Some "latin-1") None) None None true
      io.empty_world = (inr self, io.empty_world)
    ∧ io.FileInput_read io.latin1_only self io.empty_world = (inr [], w')
    ∧ io.file_closed <$> io.objects w' !! 0 = Some false.
Proof.
  destruct (FileInput_stdin_stays_open io.latin1_only
              (io.mkValues (Some "latin-1") None) true [] io.empty_world
              (io.mkFile (Some "<stdin>") io.Reading None [] false))
    as (self & w' & Hinit & _ & _ & _ & Hread & _ & Hobj);
    [reflexivity|reflexivity|reflexivity|reflexivity|].
  by exists self, w'.
Defined.




(** X23: a [FileOutput] around a given file object closes the object
    after the first write ([autoclose]); the next write does not go
    to that object: it opens, for writing, the path kept from the
    object's [name], replacing that file's content, and raises
    [TypeError] when the object had no name. *)
Theorem FileOutput_reopens_by_name
    py options f x enc data1 data2 out1 out2 w :
  io.objects w !! f = Some x →
  io.file_closed x = false →
  io.file_mode x = io.Writing →
  io.output_encoding options = Some enc →
  io.encode py data1 enc = inr out1 →
  io.encode py data2 enc = inr out2 →
  ∃ self self1 w1,
    io.FileOutput_init options (Some f) None true w = (inr self, w)
    ∧ io.FileOutput_write py self data1 w = (inr (out1, self1), w1)
    ∧ io.objects w1 !! f
      = Some (io.mkFile (io.file_name x) io.Writing (io.file_path x)
                (io.file_data x ++ out1) true)
    ∧ match io.file_name x with
      | None =>
          io.FileOutput_write py self1 data2 w1
          = (inl (io.Exn TypeError), w1)
      | Some name =>
          name ≠ EmptyString →
          ∃ self2 w2 g,
            io.FileOutput_write py self1 data2 w1 = (inr (out2, self2), w2)
            ∧ g ≠ f
            ∧ io.destination self2 = Some g
            ∧ io.disk w2 = <[name := out2]> (io.disk w1)
            ∧ io.objects w2 !! f = io.objects w1 !! f
      end.
Proof.
  intros Hx Hopen Hmode Henc Hout1 Hout2.
  set (self := io.mkFileOutput options (Some f) (io.file_name x) true true).
  set (self1 :=
         io.mkFileOutput options (Some f) (io.file_name x) true false).
  set (x1 := io.mkFile (io.file_name x) io.Writing (io.file_path x)
               (io.file_data x ++ out1) true).
  assert (Hfirst : ∃ w1,
    io.FileOutput_write py self data1 w = (inr (out1, self1), w1)
    ∧ io.objects w1 = <[f := x1]> (io.objects w)).
  { unfold io.FileOutput_write, self.
    cbn [io.FileOutput_options io.opened io.FileOutput_autoclose
         io.destination io.attribute_of].
    rewrite Henc. cbn [io.unicode_encode]. rewrite Hout1. cbn [io.lift].
    erewrite bind_inr; [|reflexivity].
    erewrite bind_inr; [|reflexivity].
    cbn [io.destination io.attribute_of io.FileOutput_autoclose].
    erewrite bind_inr; [|reflexivity].
    erewrite bind_inr; [|by eapply file_write_inr].
    unfold x1. destruct (io.file_path x) as [q|].
    - erewrite bind_inr.
      2:{ unfold io.FileOutput_close. cbn [io.destination io.attribute_of].
          erewrite bind_inr; [|reflexivity].
          erewrite bind_inr; [reflexivity|].
          eapply file_close_inr; [cbn; apply lookup_insert_eq|done]. }
      eexists. split; [reflexivity|]. cbn. by rewrite insert_insert_eq.
    - erewrite bind_inr.
      2:{ unfold io.FileOutput_close. cbn [io.destination io.attribute_of].
          erewrite bind_inr; [|reflexivity].
          erewrite bind_inr; [reflexivity|].
          eapply file_close_inr; [cbn; apply lookup_insert_eq|done]. }
      eexists. split; [reflexivity|]. cbn. by rewrite insert_insert_eq. }
  destruct Hfirst as (w1 & Hfirst & Hobj).
  exists self, self1, w1.
  split.
  { unfold io.FileOutput_init. cbn [io.falsy].
    erewrite bind_inr; [|reflexivity]. cbv beta iota.
    erewrite bind_inr.
    2:{ erewrite bind_inr; [|by apply get_file_inr]. reflexivity. }
    unfold self. by destruct (io.file_name x). }
  split; [exact Hfirst|].
  split. { rewrite Hobj. by rewrite lookup_insert_eq. }
  unfold self1. destruct (io.file_name x) as [name|] eqn:Hname.
  - intros Hne.
    assert (Hwrite := FileOutput_write_unopened py options (Some f) name true
                        enc data2 out2 w1 Hne Henc Hout2).
    cbv zeta in Hwrite.
    eexists _, _, (fresh (dom (io.objects w1))).
    split; [exact Hwrite|].
    assert (Hg : fresh (dom (io.objects w1)) ≠ f).
    { intros Heq. pose proof (fresh_object (io.objects w1)) as Hfresh.
      rewrite Heq, Hobj in Hfresh.
      by rewrite lookup_insert_eq in Hfresh. }
    split; [done|]. split; [done|]. split; [done|].
    cbn. by rewrite lookup_insert_ne.
  - unfold io.FileOutput_write.
    cbn [io.FileOutput_options io.opened io.FileOutput_autoclose
         io.destination io.attribute_of].
    rewrite Henc. cbn [io.unicode_encode]. rewrite Hout2. cbn [io.lift].
    erewrite bind_inr; [|reflexivity].
    erewrite bind_inl; [reflexivity|].
    unfold io.FileOutput_open. cbn [io.destination_path].
    by erewrite bind_inl; [|reflexivity].
Qed.

Lemma FileOutput_reopens_by_name_witness :
  ∃ self self1 w1,
    io.FileOutput_init (io.mkValues None (Some "latin-1")) (Some 2) None true
      io.buffer_world = (inr self, io.buffer_world)
    ∧ io.FileOutput_write io.latin1_only self [97%N] io.buffer_world
      = (inr ([Byte.x61], self1), w1)
    ∧ io.FileOutput_write io.latin1_only self1 [98%N] w1
      = (inl (io.Exn TypeError), w1).
Proof.
  destruct (FileOutput_reopens_by_name io.latin1_only
              (io.mkValues None (Some "latin-1")) 2
              (io.mkFile None io.Writing None [] false) "latin-1"
              [97%N] [98%N] [Byte.x61] [Byte.x62] io.buffer_world)
    as (self & self1 & w1 & Hinit & H1 & _ & H2);
    [reflexivity|reflexivity|reflexivity|reflexivity|reflexivity
    |reflexivity|].
  by exists self, self1, w1.
Defined.
